(** * Agenzia Immobiliare: listing engine of [assets/js/main.js]

    A shallow embedding of the client-side listing engine (loading, filtering,
    sorting, facet derivation, detail lookup and JSON-LD injection) together
    with the properties stated about it.

    Conventions of the embedding.
    - A JavaScript string is a [string]; each character stands for one UTF-16
      code unit below 256.
    - A JavaScript number is an integer [Z]; the result of an arithmetic
      conversion is a [num], which adds [NaN].  Fractions and infinities are
      outside the model.  Reading and printing of decimal digits are exact in
      the model; in the browser they are exact on the safe integers (up to
      2^53 - 1 in absolute value), and the statements that read or print a
      number of the data or of the form are made for [safe_integer]s.
    - [Array.prototype.sort] is the stable sort that ECMAScript fixes for a
      consistent comparison function; for other comparison functions the
      order is left to the engine, and the statements about the order of a
      sorted sequence are made for inputs on which the comparison function
      is consistent.
    - A property of an entry holds a JSON scalar or is absent ([JUndefined],
      or [None] for the text fields).
    - Built-ins whose result depends on the browser are fields of [Host]. *)

From Stdlib Require Import List String Ascii ZArith Bool Lia Arith.
From Stdlib Require Import Permutation Sorted DecimalString.
From Stdlib Require DecimalPos DecimalZ.
Import ListNotations.

Open Scope string_scope.
Open Scope Z_scope.

(** ** JavaScript values *)

(** Result of a numeric conversion or of [parseInt]. *)
Inductive num : Type :=
| NaN : num
| Fin : Z -> num.

(** Scalar values read from the JSON data ([JUndefined]: property absent). *)
Inductive JsVal : Type :=
| JUndefined : JsVal
| JNull : JsVal
| JBool : bool -> JsVal
| JNum : Z -> JsVal
| JStr : string -> JsVal.

Definition num_eqb (a b : num) : bool :=
  match a, b with
  | NaN, NaN => true
  | Fin x, Fin y => x =? y
  | _, _ => false
  end.

(** [isNaN(x)] on a number. *)
Definition isNaN (n : num) : bool :=
  match n with NaN => true | Fin _ => false end.

(** [a < b] on numbers: false as soon as one side is [NaN]. *)
Definition num_lt (a b : num) : bool :=
  match a, b with
  | Fin x, Fin y => x <? y
  | _, _ => false
  end.

(** [a - b] on numbers. *)
Definition num_sub (a b : num) : num :=
  match a, b with
  | Fin x, Fin y => Fin (x - y)
  | _, _ => NaN
  end.

(** Truthiness of a string: only the empty string is falsy. *)
Definition truthy_str (s : string) : bool :=
  match s with EmptyString => false | String _ _ => true end.

(** ToBoolean. *)
Definition ToBoolean (v : JsVal) : bool :=
  match v with
  | JUndefined | JNull => false
  | JBool b => b
  | JNum z => negb (z =? 0)
  | JStr s => truthy_str s
  end.

(** [a || b]. *)
Definition js_or (a b : JsVal) : JsVal := if ToBoolean a then a else b.

(** [typeof v === 'number']. *)
Definition typeof_number (v : JsVal) : bool :=
  match v with JNum _ => true | _ => false end.

(** Number::toString on an integer: plain decimal digits, which is what
    ECMAScript prints for an integer below 10^21 in absolute value (from
    there on it prints an exponent). *)
Definition Number_toString (z : Z) : string := NilZero.string_of_int (Z.to_int z).

(** ToString, which is also [String(v)]. *)
Definition ToString (v : JsVal) : string :=
  match v with
  | JUndefined => "undefined"
  | JNull => "null"
  | JBool true => "true"
  | JBool false => "false"
  | JNum z => Number_toString z
  | JStr s => s
  end.

(** ToString of a text property that may be absent. *)
Definition ToString_text (o : option string) : string :=
  match o with Some s => s | None => "undefined" end.

(** [o || ''] on a text property that may be absent. *)
Definition text_or_empty (o : option string) : string :=
  match o with Some s => s | None => "" end.

(** Truthiness of a text property that may be absent. *)
Definition truthy_text (o : option string) : bool :=
  match o with Some s => truthy_str s | None => false end.

(** [o === s] and [o !== s] for a text property against a string. *)
Definition strict_eq_text (o : option string) (s : string) : bool :=
  match o with Some t => String.eqb t s | None => false end.

Definition strict_neq_text (o : option string) (s : string) : bool :=
  negb (strict_eq_text o s).

(** ** Built-ins supplied by the browser

    - [StringToNumber]: the numeric value of a string (ToNumber on strings).
    - [collationKey]: the sort key of the locale's collation;
      [localeCompare] orders strings by the code units of their sort keys.
    - [innerHTML_of_text]: serialisation of a text node ([div.textContent = s;
      div.innerHTML]).
    - [encodeURIComponent]. *)
Class Host : Type := {
  StringToNumber : string -> num;
  collationKey : string -> string;
  innerHTML_of_text : string -> string;
  encodeURIComponent : string -> string
}.

Definition sign_of_comparison (c : comparison) : Z :=
  match c with Lt => -1 | Eq => 0 | Gt => 1 end.

(** [s.localeCompare(that)]. *)
Definition localeCompare `{Host} (s that : string) : Z :=
  sign_of_comparison (String.compare (collationKey s) (collationKey that)).

(** ToNumber. *)
Definition ToNumber `{Host} (v : JsVal) : num :=
  match v with
  | JUndefined => NaN
  | JNull => Fin 0
  | JBool true => Fin 1
  | JBool false => Fin 0
  | JNum z => Fin z
  | JStr s => StringToNumber s
  end.

(** ** Data model *)

Record Immagine : Type := {
  src : option string;
  alt : option string
}.

(** One entry of [data/immobili.json]. *)
Record Immobile : Type := {
  id : JsVal;
  titolo : option string;
  descrizione : option string;
  prezzo : JsVal;
  prezzoDisplay : option string;
  tipologia : option string;
  superficie : JsVal;
  locali : JsVal;
  citta : option string;
  tipoImmobile : option string;
  immagini : option (list Immagine);
  dataInserimento : option string
}.

(** Output of [getFiltersFromForm] ([None] is [null]). *)
Record Filters : Type := {
  contratto : string;
  prezzoMin : option num;
  prezzoMax : option num;
  localita : string;
  f_tipoImmobile : string;
  ordine : string
}.

(** ** Filtering *)

(** [filters.prezzoMin != null && !isNaN(filters.prezzoMin)]. *)
Definition bound_active (b : option num) : bool :=
  match b with
  | None => false
  | Some n => negb (isNaN n)
  end.

(** The callback passed to [immobili.filter] in [filterImmobili]. *)
Definition filterImmobili_cb (filters : Filters) (item : Immobile) : bool :=
  if truthy_str (contratto filters)
     && strict_neq_text (tipologia item) (contratto filters) then false
  else
    let prezzo := if typeof_number (prezzo item)
                  then match prezzo item with JNum z => z | _ => 0 end
                  else 0 in
    if bound_active (prezzoMin filters)
       && match prezzoMin filters with
          | Some m => num_lt (Fin prezzo) m | None => false end then false
    else if bound_active (prezzoMax filters)
       && match prezzoMax filters with
          | Some m => num_lt m (Fin prezzo) | None => false end then false
    else if truthy_str (localita filters)
       && strict_neq_text (citta item) (localita filters) then false
    else if truthy_str (f_tipoImmobile filters)
       && negb (String.eqb (text_or_empty (tipoImmobile item))
                           (f_tipoImmobile filters)) then false
    else true.

Definition filterImmobili (immobili : list Immobile) (filters : Filters)
  : list Immobile :=
  filter (filterImmobili_cb filters) immobili.

(** What the criteria of the specification ask of an entry: every active
    criterion holds.  The price is the number stored in the entry, or 0 when
    the stored value is not a number. *)
Definition normalizedPrice (e : Immobile) : Z :=
  match prezzo e with JNum z => z | _ => 0 end.

Definition Satisfies (f : Filters) (e : Immobile) : Prop :=
  (contratto f = "" \/ tipologia e = Some (contratto f)) /\
  (forall m, prezzoMin f = Some (Fin m) -> m <= normalizedPrice e) /\
  (forall m, prezzoMax f = Some (Fin m) -> normalizedPrice e <= m) /\
  (localita f = "" \/ citta e = Some (localita f)) /\
  (f_tipoImmobile f = "" \/ tipoImmobile e = Some (f_tipoImmobile f)).

(** [Kept P l r]: [r] is [l] with exactly the elements satisfying [P] kept,
    in their order and with their multiplicity. *)
Inductive Kept {A : Type} (P : A -> Prop) : list A -> list A -> Prop :=
| Kept_nil : Kept P [] []
| Kept_keep x l r : P x -> Kept P l r -> Kept P (x :: l) (x :: r)
| Kept_drop x l r : ~ P x -> Kept P l r -> Kept P (x :: l) r.

(** An entry with an id, a price, a contract type and a city. *)
Definition mkImmobile (i : JsVal) (p : JsVal) (t c : string) : Immobile :=
  {| id := i; titolo := None; descrizione := None;
     prezzo := p; prezzoDisplay := None; tipologia := Some t;
     superficie := JUndefined; locali := JUndefined; citta := Some c;
     tipoImmobile := None; immagini := None; dataInserimento := None |}.

(** Scenario A: two entries, one for sale in Milano, one for rent in Roma. *)
Definition immobile1 : Immobile := mkImmobile (JNum 1) (JNum 100000) "sale" "Milano".
Definition immobile2 : Immobile := mkImmobile (JNum 2) (JNum 50000) "rent" "Roma".
Definition scenarioA : list Immobile := [immobile1; immobile2].

Definition noFilters : Filters :=
  {| contratto := ""; prezzoMin := None; prezzoMax := None;
     localita := ""; f_tipoImmobile := ""; ordine := "recente" |}.

Definition with_contratto (c : string) (f : Filters) : Filters :=
  {| contratto := c; prezzoMin := prezzoMin f; prezzoMax := prezzoMax f;
     localita := localita f; f_tipoImmobile := f_tipoImmobile f;
     ordine := ordine f |}.

Definition with_prezzoMin (b : option num) (f : Filters) : Filters :=
  {| contratto := contratto f; prezzoMin := b; prezzoMax := prezzoMax f;
     localita := localita f; f_tipoImmobile := f_tipoImmobile f;
     ordine := ordine f |}.

Definition with_prezzoMax (b : option num) (f : Filters) : Filters :=
  {| contratto := contratto f; prezzoMin := prezzoMin f; prezzoMax := b;
     localita := localita f; f_tipoImmobile := f_tipoImmobile f;
     ordine := ordine f |}.

Definition with_prezzo (p : JsVal) (e : Immobile) : Immobile :=
  {| id := id e; titolo := titolo e; descrizione := descrizione e;
     prezzo := p; prezzoDisplay := prezzoDisplay e; tipologia := tipologia e;
     superficie := superficie e; locali := locali e; citta := citta e;
     tipoImmobile := tipoImmobile e; immagini := immagini e;
     dataInserimento := dataInserimento e |}.

(** ** Reading the filter form *)

(** StrWhiteSpaceChar, among the code units below 256. *)
Definition is_whitespace (c : ascii) : bool :=
  let n := nat_of_ascii c in
  ((9 <=? n) && (n <=? 13) || (n =? 32) || (n =? 160))%nat.

Fixpoint skip_whitespace (s : string) : string :=
  match s with
  | EmptyString => EmptyString
  | String c r => if is_whitespace c then skip_whitespace r else s
  end.

Fixpoint drop_trailing_whitespace (s : string) : string :=
  match s with
  | EmptyString => EmptyString
  | String c r =>
      let r' := drop_trailing_whitespace r in
      if is_whitespace c && negb (truthy_str r') then EmptyString
      else String c r'
  end.

(** [s.trim()]. *)
Definition trim (s : string) : string :=
  drop_trailing_whitespace (skip_whitespace s).

Definition digit_of (c : ascii) : option Z :=
  let n := nat_of_ascii c in
  if ((48 <=? n) && (n <=? 57))%nat then Some (Z.of_nat n - 48) else None.

(** The longest prefix of decimal digits, as a number; [acc] is the value
    read so far ([None]: no digit yet). *)
Fixpoint parse_digits (acc : option Z) (s : string) : option Z :=
  match s with
  | EmptyString => acc
  | String c r =>
      match digit_of c with
      | Some d =>
          parse_digits
            (Some (10 * match acc with Some a => a | None => 0 end + d)) r
      | None => acc
      end
  end.

(** [parseInt(s, 10)]: the mathematical value of the digits read.
    ECMAScript rounds that value to the nearest Number, which leaves every
    value up to 2^53 as it is. *)
Definition parseInt10 (s : string) : num :=
  let s1 := skip_whitespace s in
  let '(sign, s2) :=
    match s1 with
    | String "-" r => (-1, r)
    | String "+" r => (1, r)
    | _ => (1, s1)
    end in
  match parse_digits None s2 with
  | Some n => Fin (sign * n)
  | None => NaN
  end.

(** The controls of [#filtri-immobili-form]; [None]: the control is not in
    the form ([form.querySelector] returns [null]). *)
Record FormControls : Type := {
  c_contratto : option string;
  c_prezzo_min : option string;
  c_prezzo_max : option string;
  c_localita : option string;
  c_tipo_immobile : option string;
  c_ordine : option string
}.

(** [v === '' ? null : parseInt(v, 10)] where [v] is [el && el.value.trim()]:
    without the control [v] is [null], which [parseInt] reads as the text
    "null". *)
Definition read_bound (control : option string) : option num :=
  let v := option_map trim control in
  match v with
  | Some EmptyString => None
  | Some s => Some (parseInt10 s)
  | None => Some (parseInt10 "null")
  end.

Definition getFiltersFromForm (form : option FormControls) : Filters :=
  match form with
  | None =>
      {| contratto := ""; prezzoMin := None; prezzoMax := None;
         localita := ""; f_tipoImmobile := ""; ordine := "recente" |}
  | Some form =>
      {| contratto := text_or_empty (c_contratto form);
         prezzoMin := read_bound (c_prezzo_min form);
         prezzoMax := read_bound (c_prezzo_max form);
         localita := text_or_empty (c_localita form);
         f_tipoImmobile := text_or_empty (c_tipo_immobile form);
         ordine := if truthy_text (c_ordine form)
                   then text_or_empty (c_ordine form) else "recente" |}
  end.

(** ** Sorting *)

(** SortCompare of [Array.prototype.sort]: the number returned by the
    comparison function, with [NaN] read as +0. *)
Definition SortCompare {A : Type} (comparefn : A -> A -> num) (x y : A) : Z :=
  match comparefn x y with NaN => 0 | Fin v => v end.

(** [Array.prototype.sort] on the contents of an array.  ECMAScript asks for
    a stable sort and fixes the result whenever the comparison function is
    consistent; this is the stable insertion sort, which moves an element to
    the right only past elements it compares strictly greater than.  With a
    comparison function that is not consistent on the elements (here: a price
    whose conversion is [NaN]) the order is implementation-defined: every
    engine still returns a rearrangement of the elements, but not
    necessarily this one (see [v8_sort]). *)
Fixpoint sort_insert {A : Type} (comparefn : A -> A -> num) (x : A)
  (sorted : list A) : list A :=
  match sorted with
  | [] => [x]
  | y :: rest =>
      if SortCompare comparefn x y >? 0
      then y :: sort_insert comparefn x rest
      else x :: sorted
  end.

Definition Array_sort {A : Type} (comparefn : A -> A -> num) (l : list A)
  : list A :=
  fold_right (sort_insert comparefn) [] l.

(** The preorder and the equivalence a comparison function induces. *)
Definition sort_le {A : Type} (comparefn : A -> A -> num) (x y : A) : Prop :=
  SortCompare comparefn x y <= 0.

Definition sort_equiv {A : Type} (comparefn : A -> A -> num) (x y : A)
  : bool :=
  (SortCompare comparefn x y <=? 0) && (SortCompare comparefn y x <=? 0).

(** The three comparison functions of [sortImmobili]. *)
Definition cmp_prezzo_crescente `{Host} (a b : Immobile) : num :=
  num_sub (ToNumber (js_or (prezzo a) (JNum 0)))
          (ToNumber (js_or (prezzo b) (JNum 0))).

Definition cmp_prezzo_decrescente `{Host} (a b : Immobile) : num :=
  num_sub (ToNumber (js_or (prezzo b) (JNum 0)))
          (ToNumber (js_or (prezzo a) (JNum 0))).

Definition cmp_recente `{Host} (a b : Immobile) : num :=
  let dateA := text_or_empty (dataInserimento a) in
  let dateB := text_or_empty (dataInserimento b) in
  Fin (localeCompare dateB dateA).

(** [sortImmobili] on array contents: the contents of the returned array as
    a function of the contents of the argument. *)
Definition sortImmobili `{Host} (immobili : list Immobile) (ordine : string)
  : list Immobile :=
  let list := immobili in
  if String.eqb ordine "prezzo-crescente" then
    Array_sort cmp_prezzo_crescente list
  else if String.eqb ordine "prezzo-decrescente" then
    Array_sort cmp_prezzo_decrescente list
  else
    Array_sort cmp_recente list.

(** The values the comparison functions look at. *)
Definition prezzoKey `{Host} (e : Immobile) : num :=
  ToNumber (js_or (prezzo e) (JNum 0)).

Definition dataKey (e : Immobile) : string :=
  text_or_empty (dataInserimento e).

(** The price is a number or is missing. *)
Definition prezzo_numeric_or_missing (e : Immobile) : Prop :=
  match prezzo e with
  | JNum _ | JUndefined | JNull => True
  | _ => False
  end.

(** The digits of a whole string, as a number. *)
Fixpoint all_digits (acc : Z) (s : string) : option Z :=
  match s with
  | EmptyString => Some acc
  | String c r =>
      match digit_of c with
      | Some d => all_digits (10 * acc + d) r
      | None => None
      end
  end.

(** The numeric value of a string that holds a signed decimal integer
    between white space, 0 for a blank string, [NaN] for any other text. *)
Definition decimal_StringToNumber (s : string) : num :=
  match trim s with
  | EmptyString => Fin 0
  | String c r =>
      let '(sign, body) :=
        if Ascii.eqb c "-" then (-1, r)
        else if Ascii.eqb c "+" then (1, r)
        else (1, String c r) in
      match body with
      | EmptyString => NaN
      | _ => match all_digits 0 body with
             | Some n => Fin (sign * n)
             | None => NaN
             end
      end
  end.

(** A host for examples: it collates by code units, reads decimal integers
    and leaves texts as they are. *)
Definition literalHost : Host :=
  {| StringToNumber := decimal_StringToNumber;
     collationKey := fun s => s;
     innerHTML_of_text := fun s => s;
     encodeURIComponent := fun s => s |}.

(** ** Arrays as objects

    An array is an object with an identity; [Heap] maps the address of each
    array to its contents.  [filter] and [slice] allocate a new array,
    [sort] rewrites the array it is called on.  The entries are never
    assigned to by this program and are stored by value. *)
Definition ref : Type := nat.
Definition Heap : Type := list (list Immobile).

(** Computations over the heap that fail on a dangling address. *)
Definition M (A : Type) : Type := Heap -> option (A * Heap).

Definition ret {A : Type} (a : A) : M A := fun h => Some (a, h).

Definition bind {A B : Type} (m : M A) (k : A -> M B) : M B :=
  fun h => match m h with
           | Some (a, h') => k a h'
           | None => None
           end.

Notation "x <- m ;; k" := (bind m (fun x => k))
  (at level 61, m at next level, right associativity).

Fixpoint heap_update (r : ref) (l : list Immobile) (h : Heap) : Heap :=
  match h, r with
  | [], _ => []
  | _ :: t, O => l :: t
  | x :: t, S r' => x :: heap_update r' l t
  end.

Definition Array_read (r : ref) : M (list Immobile) :=
  fun h => match nth_error h r with
           | Some l => Some (l, h)
           | None => None
           end.

Definition Array_alloc (l : list Immobile) : M ref :=
  fun h => Some (List.length h, (h ++ [l])%list).

Definition Array_write (r : ref) (l : list Immobile) : M unit :=
  fun h => match nth_error h r with
           | Some _ => Some (tt, heap_update r l h)
           | None => None
           end.

(** [a.slice()]. *)
Definition Array_prototype_slice (a : ref) : M ref :=
  l <- Array_read a ;; Array_alloc l.

(** [a.filter(cb)]. *)
Definition Array_prototype_filter (cb : Immobile -> bool) (a : ref) : M ref :=
  l <- Array_read a ;; Array_alloc (filter cb l).

(** [a.sort(comparefn)]: sorts [a] in place and returns it. *)
Definition Array_prototype_sort (comparefn : Immobile -> Immobile -> num)
  (a : ref) : M ref :=
  l <- Array_read a ;;
  _ <- Array_write a (Array_sort comparefn l) ;;
  ret a.

(** [filterImmobili] and [sortImmobili] on array objects. *)
Definition filterImmobili_heap (immobili : ref) (filters : Filters) : M ref :=
  Array_prototype_filter (filterImmobili_cb filters) immobili.

Definition sortImmobili_heap `{Host} (immobili : ref) (ordine : string) : M ref :=
  list <- Array_prototype_slice immobili ;;
  _ <- (if String.eqb ordine "prezzo-crescente" then
          Array_prototype_sort cmp_prezzo_crescente list
        else if String.eqb ordine "prezzo-decrescente" then
          Array_prototype_sort cmp_prezzo_decrescente list
        else
          Array_prototype_sort cmp_recente list) ;;
  ret list.

(** [applyFiltersAndRender] up to the rendering: filter, then sort. *)
Definition applyFilters_heap `{Host} (allImmobili : ref) (filters : Filters)
  : M ref :=
  filtered <- filterImmobili_heap allImmobili filters ;;
  sortImmobili_heap filtered (ordine filters).

(** ** Loading the data *)

(** A settled promise. *)
Inductive Promise (A : Type) : Type :=
| Fulfilled : A -> Promise A
| Rejected : string -> Promise A.

Arguments Fulfilled {A} _.
Arguments Rejected {A} _.

(** [p.then(f)]: [f] returns a promise, rejected when [f] throws. *)
Definition then_ {A B : Type} (p : Promise A) (f : A -> Promise B) : Promise B :=
  match p with
  | Fulfilled a => f a
  | Rejected e => Rejected e
  end.

(** [p.catch(g)]. *)
Definition catch_ {A : Type} (p : Promise A) (g : string -> A) : Promise A :=
  match p with
  | Fulfilled a => Fulfilled a
  | Rejected e => Fulfilled (g e)
  end.

(** What [response.json()] can give. *)
Inductive JsonData : Type :=
| DataArray : list Immobile -> JsonData
| DataObject : JsonData
| DataScalar : JsVal -> JsonData.

Record Response : Type := {
  ok : bool;
  status : Z;
  json : Promise JsonData   (* rejected when the body is not JSON *)
}.

(** [fetch(IMMOBILI_JSON_PATH)] as seen by the page: the promise it returns,
    rejected on a transport failure. *)
Definition FetchOutcome : Type := Promise Response.

(** [Array.isArray(data) ? data : []]. *)
Definition array_or_empty (data : JsonData) : list Immobile :=
  match data with
  | DataArray l => l
  | _ => []
  end.

(** [fetchImmobili], identical in the home/detail script and in the listing
    script. *)
Definition fetchImmobili (fetch : FetchOutcome) : Promise (list Immobile) :=
  catch_
    (then_
       (then_ fetch
          (fun response =>
             if negb (ok response)
             then Rejected ("Risposta non ok: " ++ Number_toString (status response))
             else json response))
       (fun data => Fulfilled (array_or_empty data)))
    (fun _ => []).

(** The load failed: transport failure, non-success status, body that is
    not JSON, or JSON that is not an array. *)
Definition load_failed (fetch : FetchOutcome) : Prop :=
  match fetch with
  | Rejected _ => True
  | Fulfilled response =>
      ok response = false \/
      match json response with
      | Rejected _ => True
      | Fulfilled (DataArray _) => False
      | Fulfilled _ => True
      end
  end.

(** ** Facets of the filter controls *)

(** The [forEach] loop of [populateFilterOptions] for one property: each
    truthy value not yet in the array is pushed. *)
Definition push_unique (field : Immobile -> option string)
  (acc : list string) (item : Immobile) : list string :=
  match field item with
  | Some v =>
      if truthy_str v && negb (existsb (String.eqb v) acc)
      then (acc ++ [v])%list else acc
  | None => acc
  end.

Definition collect_unique (field : Immobile -> option string)
  (immobili : list Immobile) : list string :=
  fold_left (push_unique field) immobili [].

(** The comparison of [sort()] without a comparison function: by code
    units. *)
Definition cmp_default (x y : string) : num :=
  Fin (sign_of_comparison (String.compare x y)).

(** [escapeHtml]: empty for [null]/[undefined], else the host's
    serialisation of the text. *)
Definition escapeHtml `{Host} (o : option string) : string :=
  match o with
  | None => ""
  | Some s => innerHTML_of_text s
  end.

(** The arrays [citta] and [tipi] of [populateFilterOptions] after the two
    [sort()] calls. *)
Definition facet_citta (immobili : list Immobile) : list string :=
  Array_sort cmp_default (collect_unique citta immobili).

Definition facet_tipi (immobili : list Immobile) : list string :=
  Array_sort cmp_default (collect_unique tipoImmobile immobili).

(** [populateFilterOptions] up to the markup of the two selects: the arrays
    [citta] and [tipi] from which the options are written. *)
Definition populateFilterOptions (immobili : list Immobile)
  : list string * list string :=
  (facet_citta immobili, facet_tipi immobili).

(** A facet value occurs in the snapshot. *)
Definition occurs (field : Immobile -> option string)
  (immobili : list Immobile) (v : string) : Prop :=
  exists e, In e immobili /\ field e = Some v.

(** Order of strings by code units. *)
Definition str_le (x y : string) : Prop := String.compare x y <> Gt.

(** ** Detail page *)

(** [getQueryParam('id')] from what [URLSearchParams.get] returns. *)
Definition getQueryParam (params_get : option string) : option string :=
  match params_get with
  | Some (String c r) => Some (String c r)
  | _ => None
  end.

(** The [for] loop of [findImmobileById]. *)
Fixpoint findImmobileById_loop (immobili : list Immobile) (id_req : JsVal)
  : option Immobile :=
  match immobili with
  | [] => None
  | item :: rest =>
      if String.eqb (ToString (id item)) (ToString id_req) then Some item
      else findImmobileById_loop rest id_req
  end.

Definition findImmobileById (immobili : list Immobile) (id_req : JsVal)
  : option Immobile :=
  if negb (ToBoolean id_req) || (List.length immobili =? 0)%nat then None
  else findImmobileById_loop immobili id_req.

(** The value serialised into a JSON-LD block. *)
#[warnings="-register-all"]
Inductive Json : Type :=
| JsonString : string -> Json
| JsonNumber : Z -> Json
| JsonObject : list (string * Json) -> Json.

(** A [script] element of the document head; [script_text] is the value
    given to [JSON.stringify]. *)
Record Script : Type := {
  script_id : string;
  script_type : string;
  script_text : Json
}.

Record Location : Type := {
  href : string;
  origin : string;
  pathname : string
}.

(** The image shown by the gallery and the thumbnails with a click
    handler. *)
Record Gallery : Type := {
  gallery_main : Immagine;
  gallery_thumbs : list Immagine
}.

(** [#immobile-detail]: its display style, the entry written into its text
    slots (breadcrumb, header, description, details, call to action), and its
    gallery slot ([None]: no [#immobile-gallery] element). *)
Record DetailEl : Type := {
  detail_display : string;
  detail_entry : option Immobile;
  detail_gallery : option (option Gallery)
}.

Record Document : Type := {
  doc_title : string;
  meta_description : option string;      (* None: no such element *)
  og_title : option string;
  og_description : option string;
  head_scripts : list Script;
  immobile_detail : option DetailEl;     (* None: no such element *)
  immobile_not_found : option string     (* display style; None: no element *)
}.

Definition sup2 : string := String (ascii_of_nat 178) EmptyString.
Definition middot : string := String (ascii_of_nat 183) EmptyString.
Definition dq : string := String (ascii_of_nat 34) EmptyString.

(** [updateMetaTags]. *)
Definition meta_title `{Host} (immobile : Immobile) : string :=
  escapeHtml (titolo immobile) ++ " | Immobili | Agenzia Immobiliare".

Definition meta_desc (immobile : Immobile) : string :=
  substring 0 160
    (if truthy_text (descrizione immobile)
     then text_or_empty (descrizione immobile)
     else ToString_text (titolo immobile) ++ ", "
          ++ ToString (superficie immobile) ++ " m" ++ sup2 ++ ", "
          ++ ToString (locali immobile) ++ " locali, "
          ++ ToString_text (citta immobile) ++ ". "
          ++ (if truthy_text (prezzoDisplay immobile)
              then text_or_empty (prezzoDisplay immobile) else "")).

Definition updateMetaTags `{Host} (immobile : Immobile) (d : Document)
  : Document :=
  let title := meta_title immobile in
  let desc := meta_desc immobile in
  {| doc_title := title;
     meta_description := option_map (fun _ => desc) (meta_description d);
     og_title := option_map (fun _ => title) (og_title d);
     og_description := option_map (fun _ => desc) (og_description d);
     head_scripts := head_scripts d;
     immobile_detail := immobile_detail d;
     immobile_not_found := immobile_not_found d |}.

Definition with_head_scripts (l : list Script) (d : Document) : Document :=
  {| doc_title := doc_title d;
     meta_description := meta_description d;
     og_title := og_title d;
     og_description := og_description d;
     head_scripts := l;
     immobile_detail := immobile_detail d;
     immobile_not_found := immobile_not_found d |}.

(** [document.getElementById(i)] among the scripts: the first one. *)
Definition getElementById (i : string) (l : list Script) : option Script :=
  find (fun s => String.eqb (script_id s) i) l.

(** [existing.remove()] for the element found by [getElementById]. *)
Fixpoint remove_first (i : string) (l : list Script) : list Script :=
  match l with
  | [] => []
  | s :: r => if String.eqb (script_id s) i then r else s :: remove_first i r
  end.

Definition offer_json (loc : Location) (immobile : Immobile) : Json :=
  JsonObject
    [ ("@context", JsonString "https://schema.org");
      ("@type", JsonString "Offer");
      ("name", JsonString (if truthy_text (titolo immobile)
                           then text_or_empty (titolo immobile) else ""));
      ("description", JsonString (if truthy_text (descrizione immobile)
                                  then text_or_empty (descrizione immobile)
                                  else ""));
      ("url", JsonString (href loc));
      ("price", JsonNumber (if typeof_number (prezzo immobile)
                            then match prezzo immobile with
                                 | JNum z => z | _ => 0 end
                            else 0));
      ("priceCurrency", JsonString "EUR");
      ("availability", JsonString "https://schema.org/InStock");
      ("seller", JsonObject [ ("@type", JsonString "Organization");
                              ("name", JsonString "Agenzia Immobiliare") ]) ].

Definition offer_script (loc : Location) (immobile : Immobile) : Script :=
  {| script_id := "jsonld-offer";
     script_type := "application/ld+json";
     script_text := offer_json loc immobile |}.

Definition injectJsonLdOffer (loc : Location) (immobile : Immobile)
  (d : Document) : Document :=
  let scripts :=
    match getElementById "jsonld-offer" (head_scripts d) with
    | Some _ => remove_first "jsonld-offer" (head_scripts d)
    | None => head_scripts d
    end in
  with_head_scripts (scripts ++ [offer_script loc immobile])%list d.

Definition JSONLD_AGENT_ID : string := "jsonld-real-estate-agent".

Fixpoint contains_slash (s : string) : bool :=
  match s with
  | EmptyString => false
  | String c r => Ascii.eqb c "/" || contains_slash r
  end.

(** [path.replace(/\/[^/]*$/, '/')]: what follows the last slash is
    dropped. *)
Fixpoint replace_last_segment (s : string) : string :=
  match s with
  | EmptyString => EmptyString
  | String c r =>
      if contains_slash r then String c (replace_last_segment r)
      else if Ascii.eqb c "/" then "/" else s
  end.

Definition agent_base (loc : Location) : string :=
  let path := if truthy_str (pathname loc) then pathname loc else "/" in
  let base := origin loc ++ replace_last_segment path in
  if negb (prefix "http" base) then "https://example.com/" else base.

Definition agent_json (loc : Location) : Json :=
  let base := agent_base loc in
  JsonObject
    [ ("@context", JsonString "https://schema.org");
      ("@type", JsonString "RealEstateAgent");
      ("@id", JsonString (base ++ "#agency"));
      ("name", JsonString "Agenzia Immobiliare");
      ("description",
       JsonString "Vendita e affitto di immobili. Consulenza professionale e trasparente.");
      ("url", JsonString (base ++ "index.html"));
      ("telephone", JsonString "+39-02-1234567");
      ("address", JsonObject [ ("@type", JsonString "PostalAddress");
                               ("streetAddress", JsonString "Via Example 1");
                               ("addressLocality", JsonString "Milano");
                               ("postalCode", JsonString "20100");
                               ("addressCountry", JsonString "IT") ]);
      ("areaServed", JsonObject [ ("@type", JsonString "Country");
                                  ("name", JsonString "Italia") ]) ].

Definition agent_script (loc : Location) : Script :=
  {| script_id := JSONLD_AGENT_ID;
     script_type := "application/ld+json";
     script_text := agent_json loc |}.

Definition injectRealEstateAgentSchema (loc : Location) (d : Document)
  : Document :=
  match getElementById JSONLD_AGENT_ID (head_scripts d) with
  | Some _ => d
  | None => with_head_scripts (head_scripts d ++ [agent_script loc])%list d
  end.

(** [getPrimaImmagine]. *)
Definition getPrimaImmagine (immobile : Immobile) : Immagine :=
  match immagini immobile with
  | Some (first :: _) =>
      if truthy_text (src first)
      then {| src := src first;
              alt := if truthy_text (alt first) then alt first
                     else titolo immobile |}
      else {| src := Some "assets/img/placeholders/placeholder.jpg";
              alt := Some (if truthy_text (titolo immobile)
                           then text_or_empty (titolo immobile)
                           else "Immobile") |}
  | _ => {| src := Some "assets/img/placeholders/placeholder.jpg";
            alt := Some (if truthy_text (titolo immobile)
                         then text_or_empty (titolo immobile)
                         else "Immobile") |}
  end.

(** [renderGallery]: the main image and, with more than one image, one
    thumbnail button per image. *)
Definition renderGallery (immobile : Immobile) : Gallery :=
  match immagini immobile with
  | None | Some [] =>
      {| gallery_main := getPrimaImmagine immobile; gallery_thumbs := [] |}
  | Some (main :: others) =>
      {| gallery_main := main;
         gallery_thumbs := match others with
                           | [] => []
                           | _ => main :: others
                           end |}
  end.

Definition renderImmobileDetail (immobile : Immobile) (d : Document)
  : Document :=
  match immobile_detail d with
  | None => d
  | Some wrap =>
      {| doc_title := doc_title d;
         meta_description := meta_description d;
         og_title := og_title d;
         og_description := og_description d;
         head_scripts := head_scripts d;
         immobile_detail :=
           Some {| detail_display := "";
                   detail_entry := Some immobile;
                   detail_gallery :=
                     option_map (fun _ => Some (renderGallery immobile))
                                (detail_gallery wrap) |};
         immobile_not_found :=
           option_map (fun _ => "none") (immobile_not_found d) |}
  end.

Definition showImmobileFallback (d : Document) : Document :=
  {| doc_title := doc_title d;
     meta_description := meta_description d;
     og_title := og_title d;
     og_description := og_description d;
     head_scripts := head_scripts d;
     immobile_detail :=
       option_map (fun wrap => {| detail_display := "none";
                                  detail_entry := detail_entry wrap;
                                  detail_gallery := detail_gallery wrap |})
                  (immobile_detail d);
     immobile_not_found :=
       option_map (fun _ => "block") (immobile_not_found d) |}.

(** [initImmobileDetail]: [params_get] is what the query string gives for
    [id], [fetch] the outcome of the request made when an id is present. *)
Definition initImmobileDetail `{Host} (params_get : option string)
  (fetch : FetchOutcome) (loc : Location) (d : Document) : Document :=
  match immobile_detail d with
  | None => d
  | Some _ =>
      match getQueryParam params_get with
      | None => showImmobileFallback d
      | Some id_req =>
          match fetchImmobili fetch with
          | Fulfilled immobili =>
              match findImmobileById immobili (JStr id_req) with
              | None => showImmobileFallback d
              | Some immobile =>
                  renderImmobileDetail immobile
                    (injectJsonLdOffer loc immobile
                       (updateMetaTags immobile d))
              end
          | Rejected _ => showImmobileFallback d
          end
      end
  end.

(** Number of head scripts carrying an id. *)
Definition count_id (i : string) (l : list Script) : nat :=
  List.length (filter (fun s => String.eqb (script_id s) i) l).

(** The metadata surface of a page: title, descriptions and head scripts. *)
Definition metadata_of (d : Document)
  : string * option string * option string * option string * list Script :=
  (doc_title d, meta_description d, og_title d, og_description d,
   head_scripts d).

Definition gallery_of (d : Document) : option (option (option Gallery)) :=
  option_map detail_gallery (immobile_detail d).

(** One call of either injection. *)
Inductive Injection : Type :=
| InjectOffer : Immobile -> Injection
| InjectAgent : Injection.

Definition run_injection (loc : Location) (d : Document) (i : Injection)
  : Document :=
  match i with
  | InjectOffer immobile => injectJsonLdOffer loc immobile d
  | InjectAgent => injectRealEstateAgentSchema loc d
  end.

Definition run_injections (loc : Location) (calls : list Injection)
  (d : Document) : Document :=
  fold_left (run_injection loc) calls d.

Definition is_offer_call (i : Injection) : bool :=
  match i with InjectOffer _ => true | InjectAgent => false end.

Definition is_agent_call (i : Injection) : bool :=
  match i with InjectOffer _ => false | InjectAgent => true end.

(** ** Home page *)

Definition MAX_CARD_HOME : nat := 6.

Definition getBadgeClass (tipologia : option string) : string :=
  if strict_eq_text tipologia "affitto"
  then "badge badge--affitto" else "badge badge--vendita".

Definition getBadgeText (tipologia : option string) : string :=
  if strict_eq_text tipologia "affitto" then "Affitto" else "Vendita".

(** A double-quoted attribute value. *)
Definition q (s : string) : string := dq ++ s ++ dq.

(** [buildCardHtml] of the home page. *)
Definition buildCardHtml `{Host} (immobile : Immobile) : string :=
  let img := getPrimaImmagine immobile in
  let badgeClass := getBadgeClass (tipologia immobile) in
  let badgeText := getBadgeText (tipologia immobile) in
  let meta := ToString (superficie immobile) ++ " m" ++ sup2 ++ " " ++ middot
              ++ " " ++ ToString (locali immobile) ++ " locali " ++ middot
              ++ " " ++ ToString_text (citta immobile) in
  let linkDettaglio :=
    "immobile.html?id=" ++ encodeURIComponent (ToString (id immobile)) in
  "<article class=" ++ q "card-immobile" ++ ">"
  ++ "<div class=" ++ q "card-immobile__media" ++ ">"
  ++ "<img src=" ++ q (escapeHtml (src img))
  ++ " width=" ++ q "400" ++ " height=" ++ q "300"
  ++ " alt=" ++ q (escapeHtml (alt img))
  ++ " loading=" ++ q "lazy" ++ " decoding=" ++ q "async" ++ ">"
  ++ "<div class=" ++ q "card-immobile__badge-wrap" ++ ">"
  ++ "<span class=" ++ q (innerHTML_of_text badgeClass) ++ ">"
  ++ innerHTML_of_text badgeText ++ "</span>"
  ++ "</div>"
  ++ "</div>"
  ++ "<div class=" ++ q "card-immobile__body" ++ ">"
  ++ "<h3 class=" ++ q "card-immobile__title" ++ ">"
  ++ escapeHtml (titolo immobile) ++ "</h3>"
  ++ "<div class=" ++ q "card-immobile__meta" ++ ">"
  ++ innerHTML_of_text meta ++ "</div>"
  ++ "<p class=" ++ q "card-immobile__price" ++ ">"
  ++ innerHTML_of_text (if truthy_text (prezzoDisplay immobile)
                        then text_or_empty (prezzoDisplay immobile) else "")
  ++ "</p>"
  ++ "<a href=" ++ q (innerHTML_of_text linkDettaglio)
  ++ " class=" ++ q "btn btn--primary btn--sm" ++ ">Dettagli</a>"
  ++ "</div>"
  ++ "</article>".

(** [#home-immobili-grid]: its display style and the cards it holds, whose
    markup joined is its [innerHTML]. *)
Record GridEl : Type := {
  grid_display : string;
  grid_cards : list string
}.

Definition grid_innerHTML (g : GridEl) : string :=
  String.concat "" (grid_cards g).

Record HomeDocument : Type := {
  home_grid : option GridEl;           (* None: no such element *)
  home_fallback : option string        (* display style; None: no element *)
}.

(** [immobili.slice(0, n)]. *)
Definition slice_to (n : nat) (immobili : list Immobile) : list Immobile :=
  firstn n immobili.

Definition showFallback (d : HomeDocument) : HomeDocument :=
  {| home_grid := option_map (fun g => {| grid_display := "none";
                                          grid_cards := grid_cards g |})
                             (home_grid d);
     home_fallback := option_map (fun _ => "block") (home_fallback d) |}.

Definition hideFallback (d : HomeDocument) : HomeDocument :=
  {| home_grid := option_map (fun g => {| grid_display := "";
                                          grid_cards := grid_cards g |})
                             (home_grid d);
     home_fallback := option_map (fun _ => "none") (home_fallback d) |}.

(** The [then] handler of [initHomeImmobili]. *)
Definition renderHome `{Host} (immobili : list Immobile) (d : HomeDocument)
  : HomeDocument :=
  let slice := slice_to MAX_CARD_HOME immobili in
  if (List.length slice =? 0)%nat then showFallback d
  else
    let d' := hideFallback d in
    {| home_grid := option_map (fun g => {| grid_display := grid_display g;
                                            grid_cards := map buildCardHtml slice |})
                               (home_grid d');
       home_fallback := home_fallback d' |}.

Definition initHomeImmobili `{Host} (fetch : FetchOutcome) (d : HomeDocument)
  : HomeDocument :=
  match home_grid d with
  | None => d
  | Some _ =>
      match fetchImmobili fetch with
      | Fulfilled immobili => renderHome immobili d
      | Rejected _ => showFallback d
      end
  end.

(** The cards shown in the grid, if the page has one. *)
Definition cards_of (d : HomeDocument) : option (list string) :=
  option_map grid_cards (home_grid d).

(** ** Reading of the statement about unusable prices and bounds *)

Definition without_price_bounds (f : Filters) : Filters :=
  with_prezzoMin None (with_prezzoMax None f).

(** The price constraints of [f] do not exclude [e] from the result on
    [immobili]: [e] is in the result as soon as it is in the result obtained
    with both bounds absent. *)
Definition price_bounds_do_not_exclude (immobili : list Immobile)
  (f : Filters) (e : Immobile) : Prop :=
  In e (filterImmobili immobili (without_price_bounds f)) ->
  In e (filterImmobili immobili f).

(** An entry whose price is a text, the criteria read from a form whose
    lower bound says 50000, and a form whose bounds are not numbers. *)
Definition immobile_riservato : Immobile :=
  with_prezzo (JStr "Trattativa riservata") immobile1.

Definition form_min_50000 : FormControls :=
  {| c_contratto := Some ""; c_prezzo_min := Some "50000";
     c_prezzo_max := Some ""; c_localita := Some "";
     c_tipo_immobile := Some ""; c_ordine := Some "recente" |}.

Definition form_abc : FormControls :=
  {| c_contratto := Some ""; c_prezzo_min := Some "abc";
     c_prezzo_max := Some "n/d"; c_localita := Some "";
     c_tipo_immobile := Some ""; c_ordine := Some "recente" |}.

Definition filters_NaN : Filters :=
  with_prezzoMin (Some NaN) (with_prezzoMax (Some NaN) noFilters).

(** ** Reading of the statements about sorting *)

(** The three modes of [sortImmobili]. *)
Inductive Mode : Type := PrezzoCrescente | PrezzoDecrescente | Recente.

Definition sort_mode (ordine : string) : Mode :=
  if String.eqb ordine "prezzo-crescente" then PrezzoCrescente
  else if String.eqb ordine "prezzo-decrescente" then PrezzoDecrescente
  else Recente.

(** Two entries have the same value under the comparison function of the
    mode: the same converted price, [ToNumber(prezzo || 0)], in the price
    modes, the same date text (absent read as empty) otherwise. *)
Definition same_sort_value `{Host} (ordine : string) (a b : Immobile) : bool :=
  match sort_mode ordine with
  | PrezzoCrescente | PrezzoDecrescente => num_eqb (prezzoKey a) (prezzoKey b)
  | Recente => String.eqb (dataKey a) (dataKey b)
  end.

(** The order each mode asks of two entries, the first placed before the
    second. *)
Definition in_order `{Host} (m : Mode) (a b : Immobile) : Prop :=
  match m with
  | PrezzoCrescente => normalizedPrice a <= normalizedPrice b
  | PrezzoDecrescente => normalizedPrice b <= normalizedPrice a
  | Recente => localeCompare (dataKey b) (dataKey a) <= 0
  end.

(** ** Reading of the statement about mutation *)

(** Every array of [h] is in [h'] at the same address with the same
    contents. *)
Definition heap_preserved (h h' : Heap) : Prop :=
  forall r x, nth_error h r = Some x -> nth_error h' r = Some x.

(** No array of [h] has address [r]. *)
Definition fresh_in (h : Heap) (r : ref) : Prop := nth_error h r = None.

(** A heap holding Scenario A at address 0. *)
Definition heapA : Heap := [scenarioA].

(** ** Reading of the statement about the detail lookup *)

(** The entry the detail page resolves, if any: the id of the query string
    looked up in the loaded snapshot. *)
Definition resolved_entry (params_get : option string) (fetch : FetchOutcome)
  : option Immobile :=
  match getQueryParam params_get with
  | None => None
  | Some id_req =>
      match fetchImmobili fetch with
      | Fulfilled immobili => findImmobileById immobili (JStr id_req)
      | Rejected _ => None
      end
  end.

Definition with_id (i : JsVal) (e : Immobile) : Immobile :=
  {| id := i; titolo := titolo e; descrizione := descrizione e;
     prezzo := prezzo e; prezzoDisplay := prezzoDisplay e;
     tipologia := tipologia e; superficie := superficie e;
     locali := locali e; citta := citta e; tipoImmobile := tipoImmobile e;
     immagini := immagini e; dataInserimento := dataInserimento e |}.

(** A successful load of Scenario A and a detail page without metadata. *)
Definition fetchA : FetchOutcome :=
  Fulfilled {| ok := true; status := 200;
               json := Fulfilled (DataArray scenarioA) |}.

Definition location0 : Location :=
  {| href := "https://example.org/sito/immobile.html?id=2";
     origin := "https://example.org";
     pathname := "/sito/immobile.html" |}.

Definition detailPage : Document :=
  {| doc_title := "Immobile";
     meta_description := Some "";
     og_title := Some "";
     og_description := Some "";
     head_scripts := [];
     immobile_detail := Some {| detail_display := "none";
                                detail_entry := None;
                                detail_gallery := Some None |};
     immobile_not_found := Some "none" |}.

(** ** Reading of the statement about repeated injection *)

(** The head holds at most one block for each of the two markers. *)
Definition markers_unique (d : Document) : Prop :=
  (count_id "jsonld-offer" (head_scripts d) <= 1)%nat /\
  (count_id JSONLD_AGENT_ID (head_scripts d) <= 1)%nat.

(** Offer and agency injection, each called twice for the same entry. *)
Definition inject_twice (e : Immobile) : list Injection :=
  [InjectAgent; InjectOffer e; InjectAgent; InjectOffer e].

(** ** Reading of the statements about loading, facets and the home page *)

(** A load that succeeds with an empty array. *)
Definition fetchEmpty : FetchOutcome :=
  Fulfilled {| ok := true; status := 200; json := Fulfilled (DataArray []) |}.

(** [l] is the facet of [field] on [immobili]: the distinct non-empty values
    that occur, each once, in the order of strings. *)
Definition is_facet_of (field : Immobile -> option string)
  (immobili : list Immobile) (l : list string) : Prop :=
  NoDup l /\
  (forall v, In v l <-> v <> "" /\ occurs field immobili v) /\
  StronglySorted str_le l.

(** A home page with an empty grid. *)
Definition homePage : HomeDocument :=
  {| home_grid := Some {| grid_display := ""; grid_cards := [] |};
     home_fallback := Some "none" |}.

(** [a] comes before [b] somewhere in [l]. *)
Definition precedes {A : Type} (a b : A) (l : list A) : Prop :=
  exists l1 l2 l3, l = (l1 ++ a :: l2 ++ b :: l3)%list.

(** Scenario A followed by a third entry with the price of the first. *)
Definition immobile3 : Immobile := with_id (JNum 3) immobile1.
Definition scenarioA3 : list Immobile := [immobile1; immobile2; immobile3].

(** An entry whose price is a numeric text. *)
Definition immobile_testo : Immobile := with_prezzo (JStr "250000") immobile2.

(** ** Vocabulary of the further properties *)

(** A text control that sets no criterion: absent or empty. *)
Definition control_empty (control : option string) : Prop :=
  text_or_empty control = "".

(** A bound control that sets no criterion: absent, blank, or holding a text
    that [parseInt] cannot read. *)
Definition control_no_bound (control : option string) : Prop :=
  match control with
  | None => True
  | Some s => trim s = "" \/ parseInt10 (trim s) = NaN
  end.

(** A form none of whose controls sets a criterion. *)
Definition form_unconstrained (form : FormControls) : Prop :=
  control_empty (c_contratto form) /\
  control_no_bound (c_prezzo_min form) /\
  control_no_bound (c_prezzo_max form) /\
  control_empty (c_localita form) /\
  control_empty (c_tipo_immobile form).

(** Inputs on which the comparison function of the mode is consistent and,
    in the price modes, compares the normalized prices: every input in the
    default mode, the inputs whose prices are numbers or missing in the price
    modes. *)
Definition consistent_input (ordine : string) (immobili : list Immobile)
  : Prop :=
  sort_mode ordine = Recente \/ Forall prezzo_numeric_or_missing immobili.

(** A form whose only criterion is the text typed as lower or upper bound. *)
Definition form_with_bounds (lo hi : string) : FormControls :=
  {| c_contratto := Some ""; c_prezzo_min := Some lo;
     c_prezzo_max := Some hi; c_localita := Some "";
     c_tipo_immobile := Some ""; c_ordine := Some "" |}.

Definition form_blank : FormControls :=
  {| c_contratto := Some ""; c_prezzo_min := Some "  ";
     c_prezzo_max := None; c_localita := None;
     c_tipo_immobile := Some ""; c_ordine := None |}.

(** No character of the string is white space. *)
Fixpoint no_whitespace (s : string) : bool :=
  match s with
  | EmptyString => true
  | String c r => negb (is_whitespace c) && no_whitespace r
  end.

(** The first character is a decimal digit. *)
Definition starts_with_digit (s : string) : bool :=
  match s with
  | EmptyString => false
  | String c _ => match digit_of c with Some _ => true | None => false end
  end.

(** The id of the entry is the number [z]. *)
Definition has_numeric_id (z : Z) (e : Immobile) : bool :=
  match id e with JNum k => k =? z | _ => false end.

Definition id_is_number (e : Immobile) : Prop :=
  exists k, id e = JNum k.

(** ** Listing page *)

(** [getBadge]: class and text of the badge. *)
Definition getBadge (tipologia : option string) : string * string :=
  let isAffitto := strict_eq_text tipologia "affitto" in
  (if isAffitto then "badge badge--affitto" else "badge badge--vendita",
   if isAffitto then "Affitto" else "Vendita").

(** [buildCardHtml] of the listing page (the title is an [h2]). *)
Definition buildCardHtml_listing `{Host} (immobile : Immobile) : string :=
  let img := getPrimaImmagine immobile in
  let badge := getBadge (tipologia immobile) in
  let meta := ToString (superficie immobile) ++ " m" ++ sup2 ++ " " ++ middot
              ++ " " ++ ToString (locali immobile) ++ " locali " ++ middot
              ++ " " ++ ToString_text (citta immobile) in
  let linkDettaglio :=
    "immobile.html?id=" ++ encodeURIComponent (ToString (id immobile)) in
  "<article class=" ++ q "card-immobile" ++ ">"
  ++ "<div class=" ++ q "card-immobile__media" ++ ">"
  ++ "<img src=" ++ q (escapeHtml (src img))
  ++ " width=" ++ q "400" ++ " height=" ++ q "300"
  ++ " alt=" ++ q (escapeHtml (alt img))
  ++ " loading=" ++ q "lazy" ++ " decoding=" ++ q "async" ++ ">"
  ++ "<div class=" ++ q "card-immobile__badge-wrap" ++ ">"
  ++ "<span class=" ++ q (innerHTML_of_text (fst badge)) ++ ">"
  ++ innerHTML_of_text (snd badge) ++ "</span>"
  ++ "</div>"
  ++ "</div>"
  ++ "<div class=" ++ q "card-immobile__body" ++ ">"
  ++ "<h2 class=" ++ q "card-immobile__title" ++ ">"
  ++ escapeHtml (titolo immobile) ++ "</h2>"
  ++ "<div class=" ++ q "card-immobile__meta" ++ ">"
  ++ innerHTML_of_text meta ++ "</div>"
  ++ "<p class=" ++ q "card-immobile__price" ++ ">"
  ++ innerHTML_of_text (if truthy_text (prezzoDisplay immobile)
                        then text_or_empty (prezzoDisplay immobile) else "")
  ++ "</p>"
  ++ "<a href=" ++ q (innerHTML_of_text linkDettaglio)
  ++ " class=" ++ q "btn btn--primary btn--sm" ++ ">Dettagli</a>"
  ++ "</div>"
  ++ "</article>".

(** The elements of the listing page: the grid, the fallback block (display
    style) and the result count (text); [None]: no such element. *)
Record ListingDocument : Type := {
  listing_grid : option GridEl;
  listing_fallback : option string;
  listing_resultCount : option string
}.

(** The text written by [updateResultCount]. *)
Definition result_message (count : nat) : string :=
  if (count =? 0)%nat then
    "Nessun immobile trovato. Prova a modificare i filtri."
  else if (count =? 1)%nat then "1 immobile trovato"
  else Number_toString (Z.of_nat count) ++ " immobili trovati".

Definition updateResultCount (count : nat) (d : ListingDocument)
  : ListingDocument :=
  {| listing_grid := listing_grid d;
     listing_fallback := listing_fallback d;
     listing_resultCount :=
       option_map (fun _ => result_message count) (listing_resultCount d) |}.

(** [renderGrid]. *)
Definition renderGrid `{Host} (filtered : list Immobile) (d : ListingDocument)
  : ListingDocument :=
  match listing_grid d with
  | None => d
  | Some _ =>
      if (List.length filtered =? 0)%nat then
        updateResultCount 0
          {| listing_grid := Some {| grid_display := "none";
                                     grid_cards := [] |};
             listing_fallback :=
               option_map (fun _ => "block") (listing_fallback d);
             listing_resultCount := listing_resultCount d |}
      else
        updateResultCount (List.length filtered)
          {| listing_grid :=
               Some {| grid_display := "";
                       grid_cards := map buildCardHtml_listing filtered |};
             listing_fallback :=
               option_map (fun _ => "none") (listing_fallback d);
             listing_resultCount := listing_resultCount d |}
  end.

(** [applyFiltersAndRender]: [form] holds the controls as they stand when
    the function runs, [allImmobili] the cached snapshot. *)
Definition applyFiltersAndRender `{Host} (form : option FormControls)
  (allImmobili : list Immobile) (d : ListingDocument) : ListingDocument :=
  let filters := getFiltersFromForm form in
  let filtered := filterImmobili allImmobili filters in
  let sorted := sortImmobili filtered (ordine filters) in
  renderGrid sorted d.

(** What the listing script acts on besides the three elements above: its
    variable [allImmobili], the two selects that [populateFilterOptions]
    looks up in the document (their [innerHTML]; [None]: no such element)
    and the listeners it has bound on the form. *)
Inductive FormListener : Type :=
| OnChange : FormListener
| OnInput : FormListener.

Record ListingPage : Type := {
  page_allImmobili : list Immobile;
  page_elements : ListingDocument;
  select_localita : option string;
  select_tipo : option string;
  form_listeners : list FormListener
}.

Definition with_elements (d : ListingDocument) (p : ListingPage)
  : ListingPage :=
  {| page_allImmobili := page_allImmobili p;
     page_elements := d;
     select_localita := select_localita p;
     select_tipo := select_tipo p;
     form_listeners := form_listeners p |}.

Definition agrave : string := String (ascii_of_nat 224) EmptyString.

(** The markup [populateFilterOptions] writes into a select: the option
    without value, then one option per value. *)
Definition option_html `{Host} (c : string) : string :=
  "<option value=" ++ q (escapeHtml (Some c)) ++ ">"
  ++ escapeHtml (Some c) ++ "</option>".

Definition select_html `{Host} (placeholder : string) (values : list string)
  : string :=
  "<option value=" ++ q "" ++ ">" ++ placeholder ++ "</option>"
  ++ String.concat "" (map option_html values).

(** [populateFilterOptions] on the page: each of the two selects that
    exists gets its options rewritten.  The value a select shows afterwards
    (the one it had, when it is still among the options) is not part of the
    page state: it is read from the controls when the criteria are read. *)
Definition populateFilterOptions_page `{Host} (immobili : list Immobile)
  (p : ListingPage) : ListingPage :=
  let '(citta, tipi) := populateFilterOptions immobili in
  {| page_allImmobili := page_allImmobili p;
     page_elements := page_elements p;
     select_localita :=
       option_map (fun _ => select_html ("Tutte le localit" ++ agrave) citta)
                  (select_localita p);
     select_tipo :=
       option_map (fun _ => select_html "Tutte le tipologie" tipi)
                  (select_tipo p);
     form_listeners := form_listeners p |}.

(** [applyFiltersAndRender] as the script calls it, on its own variable
    [allImmobili]; [form] holds the controls as they stand at the call. *)
Definition applyFiltersAndRender_page `{Host} (form : option FormControls)
  (p : ListingPage) : ListingPage :=
  with_elements
    (applyFiltersAndRender form (page_allImmobili p) (page_elements p)) p.

(** [init] of the listing script: nothing happens on a page with neither
    the form nor the grid; otherwise the loaded data are kept in
    [allImmobili], the options are written, the grid is rendered and, when
    the form exists, the two listeners are bound on it.  [form] holds the
    controls as they stand once the options have been written. *)
Definition init_listing `{Host} (form : option FormControls)
  (fetch : FetchOutcome) (p : ListingPage) : ListingPage :=
  match form, listing_grid (page_elements p) with
  | None, None => p
  | _, _ =>
      match fetchImmobili fetch with
      | Fulfilled data =>
          let p1 :=
            {| page_allImmobili := data;
               page_elements := page_elements p;
               select_localita := select_localita p;
               select_tipo := select_tipo p;
               form_listeners := form_listeners p |} in
          let p2 := populateFilterOptions_page data p1 in
          let p3 := applyFiltersAndRender_page form p2 in
          match form with
          | Some _ =>
              {| page_allImmobili := page_allImmobili p3;
                 page_elements := page_elements p3;
                 select_localita := select_localita p3;
                 select_tipo := select_tipo p3;
                 form_listeners :=
                   (form_listeners p3 ++ [OnChange; OnInput])%list |}
          | None => p3
          end
      | Rejected _ => with_elements (renderGrid [] (page_elements p)) p
      end
  end.

(** An event on the form: [change], or [input] with the name of its target
    ([None]: no target, or a target without name). *)
Inductive FormEvent : Type :=
| Change : FormEvent
| Input : option string -> FormEvent.

(** Whether a listener, called for the event, calls
    [applyFiltersAndRender]: the [change] listener always, the [input]
    listener when the target is one of the two price controls. *)
Definition listener_renders (l : FormListener) (ev : FormEvent) : bool :=
  match l, ev with
  | OnChange, Change => true
  | OnInput, Input (Some name) =>
      String.eqb name "prezzo-min" || String.eqb name "prezzo-max"
  | _, _ => false
  end.

(** Dispatch of an event to the listeners bound on the form, in the order
    they were bound; [form] holds the controls as they stand then. *)
Definition form_event `{Host} (ev : FormEvent) (form : FormControls)
  (p : ListingPage) : ListingPage :=
  fold_left
    (fun p l => if listener_renders l ev
                then applyFiltersAndRender_page (Some form) p else p)
    (form_listeners p) p.

(** Exactly one of the grid and the fallback block is displayed. *)
Definition one_visible (grid_style fallback_style : string) : Prop :=
  (grid_style = "" /\ fallback_style = "none") \/
  (grid_style = "none" /\ fallback_style = "block").

Definition listingPage : ListingDocument :=
  {| listing_grid := Some {| grid_display := ""; grid_cards := [] |};
     listing_fallback := Some "none";
     listing_resultCount := Some "" |}.

(** The listing page as the script finds it: nothing loaded, the two
    selects holding their first option only, no listener bound. *)
Definition listingPage0 : ListingPage :=
  {| page_allImmobili := [];
     page_elements := listingPage;
     select_localita := Some "<option>Tutte</option>";
     select_tipo := Some "<option>Tutte</option>";
     form_listeners := [] |}.

(** ** Gallery and menu handlers *)

(** The click handler of thumbnail [idx]: the main image takes the source
    of image [idx] and its alternative text, or the empty text. *)
Definition thumb_click (idx : nat) (g : Gallery) : Gallery :=
  match nth_error (gallery_thumbs g) idx with
  | Some im =>
      {| gallery_main :=
           {| src := Some (ToString_text (src im));
              alt := Some (if truthy_text (alt im)
                           then text_or_empty (alt im) else "") |};
         gallery_thumbs := gallery_thumbs g |}
  | None => g
  end.

Definition thumb_clicks (clicks : list nat) (g : Gallery) : Gallery :=
  fold_left (fun g idx => thumb_click idx g) clicks g.

(** What the handlers bound by [initHeaderMobile] act on: the class
    [layout-header--nav-open] of the header, the two attributes of the
    hamburger button, and the number of [btn.focus()] calls. *)
Record MenuState : Type := {
  nav_open : bool;
  aria_expanded : string;
  aria_label : string;
  focus_calls : nat
}.

(** The button as [initHeaderMobile] creates it, on a header whose class is
    [open]. *)
Definition menu_initial (open : bool) : MenuState :=
  {| nav_open := open; aria_expanded := "false"; aria_label := "Apri menu";
     focus_calls := 0 |}.

Inductive MenuEvent : Type :=
| HamburgerClick : MenuEvent
| NavLinkClick : MenuEvent
| KeyDown : string -> MenuEvent.

Definition menu_step (s : MenuState) (e : MenuEvent) : MenuState :=
  match e with
  | HamburgerClick =>
      let open := negb (nav_open s) in
      {| nav_open := open;
         aria_expanded := if open then "true" else "false";
         aria_label := if open then "Chiudi menu" else "Apri menu";
         focus_calls := focus_calls s |}
  | NavLinkClick =>
      {| nav_open := false; aria_expanded := "false";
         aria_label := "Apri menu"; focus_calls := focus_calls s |}
  | KeyDown key =>
      if String.eqb key "Escape" && nav_open s then
        {| nav_open := false; aria_expanded := "false";
           aria_label := "Apri menu"; focus_calls := S (focus_calls s) |}
      else s
  end.

Definition menu_run (events : list MenuEvent) (s : MenuState) : MenuState :=
  fold_left menu_step events s.

(** The attributes of the button say what the class of the header says. *)
Definition aria_consistent (s : MenuState) : Prop :=
  aria_expanded s = (if nav_open s then "true" else "false") /\
  aria_label s = (if nav_open s then "Chiudi menu" else "Apri menu").

(** ** Further vocabulary *)

Fixpoint ends_with_slash (s : string) : bool :=
  match s with
  | EmptyString => false
  | String c EmptyString => Ascii.eqb c "/"
  | String _ r => ends_with_slash r
  end.

Definition placeholder_src : string := "assets/img/placeholders/placeholder.jpg".

(** The entry has a first image with a truthy source. *)
Definition has_first_image (e : Immobile) : bool :=
  match immagini e with
  | Some (first :: _) => truthy_text (src first)
  | _ => false
  end.

(** An entry with a title, a short description and two images. *)
Definition immobile_descritto : Immobile :=
  {| id := JNum 5; titolo := Some "Trilocale in centro";
     descrizione := Some "Trilocale luminoso con balcone.";
     prezzo := JNum 250000; prezzoDisplay := None;
     tipologia := Some "vendita"; superficie := JNum 85; locali := JNum 3;
     citta := Some "Milano"; tipoImmobile := Some "Appartamento";
     immagini := Some [ {| src := Some "assets/img/a.jpg"; alt := Some "Soggiorno" |};
                        {| src := Some "assets/img/b.jpg"; alt := None |} ];
     dataInserimento := Some "2024-05-01" |}.

Definition with_localita (c : string) (f : Filters) : Filters :=
  {| contratto := contratto f; prezzoMin := prezzoMin f;
     prezzoMax := prezzoMax f; localita := c;
     f_tipoImmobile := f_tipoImmobile f; ordine := ordine f |}.


(** A head script that carries neither of the two markers. *)
Definition foreign_script (s : Script) : bool :=
  negb (String.eqb (script_id s) "jsonld-offer")
  && negb (String.eqb (script_id s) JSONLD_AGENT_ID).

(** Everything of a document but its head scripts. *)
Definition outside_head (d : Document)
  : string * option string * option string * option string
    * option DetailEl * option string :=
  (doc_title d, meta_description d, og_title d, og_description d,
   immobile_detail d, immobile_not_found d).

(** ** Vocabulary of the statements about the order of a sorted sequence *)

(** The price converts to a number: the value the comparison functions of
    the price modes look at is not [NaN]. *)
Definition price_converts `{Host} (e : Immobile) : Prop := prezzoKey e <> NaN.

(** The inputs on which the comparison function of the mode returns a number
    for every pair: the default mode always, the price modes when every
    price converts. *)
Definition comparable_input `{Host} (ordine : string)
  (immobili : list Immobile) : Prop :=
  sort_mode ordine = Recente \/ Forall price_converts immobili.

(** Two entries have the same normalized price in the price modes, the same
    date text (absent read as empty) otherwise. *)
Definition same_normalized_value (ordine : string) (a b : Immobile) : bool :=
  match sort_mode ordine with
  | PrezzoCrescente | PrezzoDecrescente =>
      normalizedPrice a =? normalizedPrice b
  | Recente => String.eqb (dataKey a) (dataKey b)
  end.




(** An entry whose price is the number 0. *)
Definition immobile_zero : Immobile := with_prezzo (JNum 0) immobile1.







(** ** The sort of the V8 engine

    Where the comparison function is not consistent the order of the result
    is the engine's choice.  This is the algorithm of V8 (Chrome, Node.js;
    [third_party/v8/builtins/array-sort.tq]) on an array of fewer than 64
    elements: the run at the start of the array is found, and reversed when
    it descends; each further element is then placed among the elements
    before it by binary search. *)

(** The loop of CountAndMakeRun: the number of elements after
    [previousElement] that continue the run. *)
Fixpoint v8_run_extent {A : Type} (comparefn : A -> A -> num)
  (isDescending : bool) (previousElement : A) (rest : list A) : nat :=
  match rest with
  | [] => 0%nat
  | currentElement :: rest' =>
      let order := SortCompare comparefn currentElement previousElement in
      if (if isDescending then order >=? 0 else order <? 0) then 0%nat
      else S (v8_run_extent comparefn isDescending currentElement rest')
  end.

(** CountAndMakeRun from index 0: the length of the run and the array with
    the run made ascending. *)
Definition v8_CountAndMakeRun {A : Type} (comparefn : A -> A -> num)
  (work : list A) : nat * list A :=
  match work with
  | elementHigh :: elementLow :: rest =>
      let isDescending :=
        SortCompare comparefn elementLow elementHigh <? 0 in
      let runLength :=
        (2 + v8_run_extent comparefn isDescending elementLow rest)%nat in
      (runLength,
       if isDescending
       then (rev (firstn runLength work) ++ skipn runLength work)%list
       else work)
  | _ => (List.length work, work)
  end.

(** The binary search of BinaryInsertionSort: the index where [pivot]
    belongs among [work[left .. right)]. *)
Fixpoint v8_search {A : Type} (fuel : nat) (comparefn : A -> A -> num)
  (pivot : A) (work : list A) (left right : nat) : nat :=
  match fuel with
  | O => left
  | S fuel' =>
      if (left <? right)%nat then
        let mid := (left + Nat.div2 (right - left))%nat in
        match nth_error work mid with
        | Some element =>
            if SortCompare comparefn pivot element <? 0
            then v8_search fuel' comparefn pivot work left mid
            else v8_search fuel' comparefn pivot work (S mid) right
        | None => left
        end
      else left
  end.

(** One round of BinaryInsertionSort: [work[start]] is moved to its place
    among the elements before it. *)
Definition v8_place {A : Type} (comparefn : A -> A -> num) (work : list A)
  (start : nat) : list A :=
  match nth_error work start with
  | Some pivot =>
      let left := v8_search (S start) comparefn pivot work 0 start in
      (firstn left work
       ++ pivot :: firstn (start - left) (skipn left work)
       ++ skipn (S start) work)%list
  | None => work
  end.

Definition v8_BinaryInsertionSort {A : Type} (comparefn : A -> A -> num)
  (work : list A) (start high : nat) : list A :=
  fold_left (v8_place comparefn) (seq start (high - start)) work.

Definition v8_sort {A : Type} (comparefn : A -> A -> num) (l : list A)
  : list A :=
  if (List.length l <? 2)%nat then l
  else
    let '(runLength, work) := v8_CountAndMakeRun comparefn l in
    v8_BinaryInsertionSort comparefn work runLength (List.length l).

(** Seven entries with the ids 1 to 7 and the prices 1, 2, 7, "abc", 5, 0
    and 5. *)
Definition prezzi_misti : list Immobile :=
  [ mkImmobile (JNum 1) (JNum 1) "vendita" "Milano";
    mkImmobile (JNum 2) (JNum 2) "vendita" "Milano";
    mkImmobile (JNum 3) (JNum 7) "vendita" "Milano";
    mkImmobile (JNum 4) (JStr "abc") "vendita" "Milano";
    mkImmobile (JNum 5) (JNum 5) "vendita" "Milano";
    mkImmobile (JNum 6) (JNum 0) "vendita" "Milano";
    mkImmobile (JNum 7) (JNum 5) "vendita" "Milano" ].

(** ** Safe integers *)

(** The integers a Number holds exactly ([Number.isSafeInteger]). *)
Definition MAX_SAFE_INTEGER : Z := 2 ^ 53 - 1.

Definition safe_integer (z : Z) : Prop :=
  - MAX_SAFE_INTEGER <= z <= MAX_SAFE_INTEGER.

(** The id of the entry is a safe integer. *)
Definition id_is_safe_number (e : Immobile) : Prop :=
  exists k, id e = JNum k /\ safe_integer k.

(** ** Further examples *)

(** An entry whose price is the number 250000, and a snapshot in which it
    follows the entry whose price is the text "250000". *)
Definition immobile_250000 : Immobile := with_prezzo (JNum 250000) immobile3.

Definition scenario_testo : list Immobile :=
  [immobile_testo; immobile1; immobile_250000].

(** A listing page that has the form controls but no grid. *)
Definition listingPage_senza_griglia : ListingPage :=
  {| page_allImmobili := [];
     page_elements := {| listing_grid := None;
                         listing_fallback := Some "none";
                         listing_resultCount := Some "" |};
     select_localita := Some "<option>Tutte</option>";
     select_tipo := None;
     form_listeners := [] |}.

(** * Properties *)

(** ** Filtering *)

Lemma truthy_str_false (s : string) : truthy_str s = false <-> s = "".
Proof. destruct s; simpl; split; congruence. Qed.

Lemma text_criterion_iff (c : string) (o : option string) :
  truthy_str c && strict_neq_text o c = false <-> (c = "" \/ o = Some c).
Proof.
  rewrite andb_false_iff, truthy_str_false.
  unfold strict_neq_text, strict_eq_text.
  split; intros [Hc | Ho]; auto.
  - right. destruct o as [t |]; simpl in Ho; try discriminate.
    apply negb_false_iff, String.eqb_eq in Ho. now subst.
  - right. subst o. now rewrite String.eqb_refl.
Qed.

Lemma tipo_criterion_iff (c : string) (o : option string) :
  truthy_str c && negb (String.eqb (text_or_empty o) c) = false
  <-> (c = "" \/ o = Some c).
Proof.
  rewrite andb_false_iff, truthy_str_false, negb_false_iff, String.eqb_eq.
  split; intros [Hc | Ho]; auto.
  - destruct o as [t |]; simpl in Ho; subst; auto.
  - subst o. now right.
Qed.

Lemma min_criterion_iff (b : option num) (p : Z) :
  bound_active b
  && match b with Some m => num_lt (Fin p) m | None => false end = false
  <-> (forall m, b = Some (Fin m) -> m <= p).
Proof.
  destruct b as [[| m] |]; simpl.
  - split; [intros _ m Hm; discriminate | reflexivity].
  - rewrite Z.ltb_ge. split.
    + intros Hle m' Hm'. injection Hm' as <-. exact Hle.
    + intros Hall. now apply Hall.
  - split; [intros _ m Hm; discriminate | reflexivity].
Qed.

Lemma max_criterion_iff (b : option num) (p : Z) :
  bound_active b
  && match b with Some m => num_lt m (Fin p) | None => false end = false
  <-> (forall m, b = Some (Fin m) -> p <= m).
Proof.
  destruct b as [[| m] |]; simpl.
  - split; [intros _ m Hm; discriminate | reflexivity].
  - rewrite Z.ltb_ge. split.
    + intros Hle m' Hm'. injection Hm' as <-. exact Hle.
    + intros Hall. now apply Hall.
  - split; [intros _ m Hm; discriminate | reflexivity].
Qed.

Lemma callback_price (e : Immobile) :
  (if typeof_number (prezzo e)
   then match prezzo e with JNum z => z | _ => 0 end
   else 0) = normalizedPrice e.
Proof. unfold normalizedPrice. now destruct (prezzo e). Qed.

Lemma if_false_else (c r : bool) :
  (if c then false else r) = true <-> c = false /\ r = true.
Proof. destruct c; intuition congruence. Qed.

(** The callback accepts an entry exactly when every active criterion
    holds. *)
Lemma filterImmobili_cb_Satisfies (f : Filters) (e : Immobile) :
  filterImmobili_cb f e = true <-> Satisfies f e.
Proof.
  unfold filterImmobili_cb, Satisfies.
  rewrite callback_price.
  rewrite !if_false_else.
  rewrite text_criterion_iff, min_criterion_iff, max_criterion_iff,
    text_criterion_iff, tipo_criterion_iff.
  intuition.
Qed.

Lemma filter_Kept {A : Type} (P : A -> Prop) (p : A -> bool) :
  (forall x, p x = true <-> P x) ->
  forall l, Kept P l (filter p l).
Proof.
  intros Hp l. induction l as [| x l IH]; simpl.
  - constructor.
  - destruct (p x) eqn:Hx.
    + apply Kept_keep; [now apply Hp | exact IH].
    + apply Kept_drop; [| exact IH].
      intros HP. apply Hp in HP. congruence.
Qed.

(** C1. For every snapshot and criteria record, [filterImmobili] keeps
    exactly the entries for which all active criteria hold together (contract
    type, city and category by exact match with the empty string meaning no
    constraint, price bounds on the normalized price), in their order; on
    Scenario A with contract type "rent" the result is the entry with id 2. *)
Theorem C1_filter_keeps_exactly_the_matching_entries :
  (forall (immobili : list Immobile) (f : Filters),
      Kept (Satisfies f) immobili (filterImmobili immobili f) /\
      (forall e, In e (filterImmobili immobili f)
                 <-> In e immobili /\ Satisfies f e)) /\
  filterImmobili scenarioA (with_contratto "rent" noFilters) = [immobile2].
Proof.
  split; [| reflexivity].
  intros immobili f. split.
  - apply filter_Kept, filterImmobili_cb_Satisfies.
  - intros e. unfold filterImmobili.
    rewrite filter_In, filterImmobili_cb_Satisfies. reflexivity.
Qed.

(** ** Unusable prices and bounds *)

Lemma filterImmobili_cb_min_NaN (f : Filters) (e : Immobile) :
  filterImmobili_cb (with_prezzoMin (Some NaN) f) e
  = filterImmobili_cb (with_prezzoMin None f) e.
Proof. reflexivity. Qed.

Lemma filterImmobili_cb_max_NaN (f : Filters) (e : Immobile) :
  filterImmobili_cb (with_prezzoMax (Some NaN) f) e
  = filterImmobili_cb (with_prezzoMax None f) e.
Proof. reflexivity. Qed.

Lemma with_prezzoMin_same (f : Filters) :
  with_prezzoMin (prezzoMin f) f = f.
Proof. now destruct f. Qed.

Lemma with_prezzoMax_same (f : Filters) :
  with_prezzoMax (prezzoMax f) f = f.
Proof. now destruct f. Qed.

Lemma filterImmobili_cb_non_numeric (f : Filters) (e : Immobile) :
  typeof_number (prezzo e) = false ->
  filterImmobili_cb f e = filterImmobili_cb f (with_prezzo (JNum 0) e).
Proof.
  intros Hp. unfold filterImmobili_cb. simpl. now rewrite Hp.
Qed.

Lemma read_bound_unparsed (s : string) :
  parseInt10 (trim s) = NaN ->
  read_bound (Some s) = None \/ read_bound (Some s) = Some NaN.
Proof.
  intros Hs. unfold read_bound. simpl.
  destruct (trim s); [now left | right; now rewrite Hs].
Qed.

(** C2, as stated, fails: an entry whose price is not a number is compared
    as price 0, so a lower bound of 50000 read from the form excludes it,
    although it is in the result when both bounds are absent. *)
Lemma C2_non_numeric_price_is_excluded :
  typeof_number (prezzo immobile_riservato) = false /\
  In immobile_riservato [immobile_riservato] /\
  ~ price_bounds_do_not_exclude [immobile_riservato]
      (getFiltersFromForm (Some form_min_50000)) immobile_riservato.
Proof.
  split; [reflexivity |]. split; [now left |].
  unfold price_bounds_do_not_exclude.
  intros Himp.
  assert (Hin : In immobile_riservato
                   (filterImmobili [immobile_riservato]
                      (getFiltersFromForm (Some form_min_50000)))).
  { apply Himp. vm_compute. now left. }
  vm_compute in Hin. exact Hin.
Qed.

(** C2, amended. A lower or upper bound that fails to parse as a number
    ([NaN]) behaves as an absent bound on every snapshot, also when it comes
    from a form text that [parseInt] cannot read; an entry whose price is not
    a number is filtered as an entry of price 0. *)
Theorem C2_unparsed_bound_is_absent_and_bad_price_is_zero :
  forall (immobili : list Immobile) (f : Filters),
    (prezzoMin f = Some NaN ->
     filterImmobili immobili f
     = filterImmobili immobili (with_prezzoMin None f)) /\
    (prezzoMax f = Some NaN ->
     filterImmobili immobili f
     = filterImmobili immobili (with_prezzoMax None f)) /\
    (forall (form : FormControls) (s : string),
        c_prezzo_min form = Some s ->
        parseInt10 (trim s) = NaN ->
        filterImmobili immobili (getFiltersFromForm (Some form))
        = filterImmobili immobili
            (with_prezzoMin None (getFiltersFromForm (Some form)))) /\
    (forall (form : FormControls) (s : string),
        c_prezzo_max form = Some s ->
        parseInt10 (trim s) = NaN ->
        filterImmobili immobili (getFiltersFromForm (Some form))
        = filterImmobili immobili
            (with_prezzoMax None (getFiltersFromForm (Some form)))) /\
    (forall e, typeof_number (prezzo e) = false ->
               filterImmobili_cb f e
               = filterImmobili_cb f (with_prezzo (JNum 0) e)).
Proof.
  intros immobili f. repeat split.
  - intros Hmin. unfold filterImmobili. apply filter_ext. intros e.
    rewrite <- (with_prezzoMin_same f) at 1. rewrite Hmin.
    apply filterImmobili_cb_min_NaN.
  - intros Hmax. unfold filterImmobili. apply filter_ext. intros e.
    rewrite <- (with_prezzoMax_same f) at 1. rewrite Hmax.
    apply filterImmobili_cb_max_NaN.
  - intros form s Hs Hnan. unfold filterImmobili. apply filter_ext. intros e.
    set (g := getFiltersFromForm (Some form)).
    assert (Hg : prezzoMin g = read_bound (Some s))
      by (subst g; simpl; now rewrite Hs).
    rewrite <- (with_prezzoMin_same g) at 1. rewrite Hg.
    destruct (read_bound_unparsed s Hnan) as [-> | ->];
      [reflexivity | apply filterImmobili_cb_min_NaN].
  - intros form s Hs Hnan. unfold filterImmobili. apply filter_ext. intros e.
    set (g := getFiltersFromForm (Some form)).
    assert (Hg : prezzoMax g = read_bound (Some s))
      by (subst g; simpl; now rewrite Hs).
    rewrite <- (with_prezzoMax_same g) at 1. rewrite Hg.
    destruct (read_bound_unparsed s Hnan) as [-> | ->];
      [reflexivity | apply filterImmobili_cb_max_NaN].
  - apply filterImmobili_cb_non_numeric.
Qed.

Lemma C2_unparsed_bound_witness :
  filterImmobili scenarioA filters_NaN
  = filterImmobili scenarioA (with_prezzoMin None filters_NaN) /\
  filterImmobili scenarioA filters_NaN
  = filterImmobili scenarioA (with_prezzoMax None filters_NaN) /\
  filterImmobili scenarioA (getFiltersFromForm (Some form_abc))
  = filterImmobili scenarioA
      (with_prezzoMin None (getFiltersFromForm (Some form_abc))) /\
  filterImmobili scenarioA (getFiltersFromForm (Some form_abc))
  = filterImmobili scenarioA
      (with_prezzoMax None (getFiltersFromForm (Some form_abc))) /\
  filterImmobili_cb filters_NaN immobile_riservato
  = filterImmobili_cb filters_NaN (with_prezzo (JNum 0) immobile_riservato).
Proof.
  destruct (C2_unparsed_bound_is_absent_and_bad_price_is_zero
              scenarioA filters_NaN) as (H1 & H2 & H3 & H4 & H5).
  split; [apply H1; reflexivity |].
  split; [apply H2; reflexivity |].
  split; [apply (H3 form_abc "abc"); reflexivity |].
  split; [apply (H4 form_abc "n/d"); reflexivity |].
  apply H5; reflexivity.
Defined.

(** ** Sorting *)

Section ArraySort.
Context {A : Type}.
Variable comparefn : A -> A -> num.

Lemma sort_insert_perm (x : A) (l : list A) :
  Permutation (x :: l) (sort_insert comparefn x l).
Proof.
  induction l as [| y l IH]; simpl.
  - apply Permutation_refl.
  - destruct (SortCompare comparefn x y >? 0).
    + eapply perm_trans; [apply perm_swap |].
      now apply perm_skip.
    + apply Permutation_refl.
Qed.

Lemma Array_sort_perm (l : list A) : Permutation l (Array_sort comparefn l).
Proof.
  induction l as [| x l IH]; simpl.
  - constructor.
  - eapply perm_trans; [apply perm_skip, IH |].
    apply sort_insert_perm.
Qed.

(** Stability: a class of elements none of which compares strictly
    greater than another keeps its order. *)
Section Stable.
Variable same : A -> bool.
Hypothesis same_not_greater :
  forall x y, same x = true -> same y = true ->
              SortCompare comparefn x y <= 0.

Lemma sort_insert_filter_in (x : A) (l : list A) :
  same x = true ->
  filter same (sort_insert comparefn x l) = x :: filter same l.
Proof.
  intros Hx. induction l as [| y l IH]; simpl.
  - now rewrite Hx.
  - destruct (SortCompare comparefn x y >? 0) eqn:Hc; simpl.
    + destruct (same y) eqn:Hy.
      * apply Z.gtb_lt in Hc.
        specialize (same_not_greater x y Hx Hy). lia.
      * exact IH.
    + now rewrite Hx.
Qed.

Lemma sort_insert_filter_out (x : A) (l : list A) :
  same x = false ->
  filter same (sort_insert comparefn x l) = filter same l.
Proof.
  intros Hx. induction l as [| y l IH]; simpl.
  - now rewrite Hx.
  - destruct (SortCompare comparefn x y >? 0); simpl.
    + now rewrite IH.
    + now rewrite Hx.
Qed.

Lemma Array_sort_stable (l : list A) :
  filter same (Array_sort comparefn l) = filter same l.
Proof.
  induction l as [| x l IH]; simpl; [reflexivity |].
  destruct (same x) eqn:Hx.
  - rewrite sort_insert_filter_in by assumption. now rewrite IH.
  - rewrite sort_insert_filter_out by assumption. exact IH.
Qed.
End Stable.

(** Order: when the comparison function agrees with a transitive order
    [le] on the elements satisfying [P], sorting such elements gives a list
    ordered by [le]. *)
Section Ordered.
Variable P : A -> Prop.
Variable le : A -> A -> Prop.
Hypothesis greater_le :
  forall x y, P x -> P y -> SortCompare comparefn x y > 0 -> le y x.
Hypothesis not_greater_le :
  forall x y, P x -> P y -> SortCompare comparefn x y <= 0 -> le x y.
Hypothesis le_trans : forall x y z, le x y -> le y z -> le x z.

Lemma sort_insert_Forall (Q : A -> Prop) (x : A) (l : list A) :
  Q x -> Forall Q l -> Forall Q (sort_insert comparefn x l).
Proof.
  intros Hx Hl.
  eapply Permutation_Forall; [apply sort_insert_perm |].
  now constructor.
Qed.

Lemma sort_insert_sorted (x : A) (l : list A) :
  P x -> Forall P l -> StronglySorted le l ->
  StronglySorted le (sort_insert comparefn x l).
Proof.
  intros Hx HP Hs. induction Hs as [| y l Hs IH Hy]; simpl.
  - constructor; [constructor | constructor].
  - inversion HP as [| ? ? HPy HPl]; subst.
    destruct (SortCompare comparefn x y >? 0) eqn:Hc.
    + apply Z.gtb_lt in Hc.
      constructor; [now apply IH |].
      apply sort_insert_Forall; [| exact Hy].
      apply greater_le; auto; lia.
    + assert (Hle : le x y).
      { apply not_greater_le; auto.
        destruct (Z.gtb_spec (SortCompare comparefn x y) 0);
          [discriminate | lia]. }
      constructor; [now constructor |].
      constructor; [exact Hle |].
      eapply Forall_impl; [| exact Hy].
      intros z Hz. now apply le_trans with y.
Qed.

Lemma Array_sort_sorted (l : list A) :
  Forall P l -> StronglySorted le (Array_sort comparefn l).
Proof.
  induction l as [| x l IH]; simpl; intros HP.
  - constructor.
  - inversion HP as [| ? ? Hx Hl]; subst.
    apply sort_insert_sorted; auto.
    eapply Permutation_Forall; [apply Array_sort_perm | exact Hl].
Qed.
End Ordered.

(** With a consistent comparison function (one that induces a total
    preorder) the stable sorted arrangement of a list is unique, so it is the
    one computed here. *)
Section Determined.
Local Abbreviation le := (sort_le comparefn).
Local Abbreviation equiv := (sort_equiv comparefn).
Hypothesis le_total : forall x y, le x y \/ le y x.
Hypothesis le_trans : forall x y z, le x y -> le y z -> le x z.

Lemma equiv_iff (x y : A) : equiv x y = true <-> le x y /\ le y x.
Proof.
  unfold sort_equiv, sort_le. now rewrite andb_true_iff, !Z.leb_le.
Qed.

Lemma stable_sorted_unique (l1 l2 : list A) :
  Permutation l1 l2 ->
  StronglySorted le l1 -> StronglySorted le l2 ->
  (forall x, filter (equiv x) l1 = filter (equiv x) l2) ->
  l1 = l2.
Proof.
  revert l2. induction l1 as [| a t1 IH]; intros l2 Hperm Hs1 Hs2 Hst.
  - now apply Permutation_nil in Hperm.
  - destruct l2 as [| b t2];
      [apply Permutation_sym, Permutation_nil in Hperm; discriminate |].
    inversion Hs1 as [| ? ? Hs1' Ha]; subst.
    inversion Hs2 as [| ? ? Hs2' Hb]; subst.
    assert (Haa : equiv a a = true).
    { apply equiv_iff. destruct (le_total a a); auto. }
    assert (Hab : le a b).
    { assert (Hin : In b (a :: t1))
        by (apply (Permutation_in b (Permutation_sym Hperm)); now left).
      destruct Hin as [-> | Hin]; [now apply equiv_iff in Haa |].
      rewrite Forall_forall in Ha. now apply Ha. }
    assert (Hba : le b a).
    { assert (Hin : In a (b :: t2))
        by (apply (Permutation_in a Hperm); now left).
      destruct Hin as [-> | Hin]; [now apply equiv_iff in Haa |].
      rewrite Forall_forall in Hb. now apply Hb. }
    assert (Heq : a = b).
    { specialize (Hst a). simpl in Hst. rewrite Haa in Hst.
      assert (Hb' : equiv a b = true) by (apply equiv_iff; auto).
      rewrite Hb' in Hst. congruence. }
    subst b. f_equal. apply IH; auto.
    + now apply Permutation_cons_inv in Hperm.
    + intros x. specialize (Hst x). simpl in Hst.
      destruct (equiv x a); congruence.
Qed.

Lemma Array_sort_determined (l l' : list A) :
  Permutation l l' ->
  StronglySorted le l' ->
  (forall x, filter (equiv x) l' = filter (equiv x) l) ->
  l' = Array_sort comparefn l.
Proof.
  intros Hperm Hs Hst. apply stable_sorted_unique; auto.
  - eapply perm_trans; [apply Permutation_sym, Hperm | apply Array_sort_perm].
  - apply Array_sort_sorted with (P := fun _ => True).
    + intros x y _ _ Hgt. destruct (le_total x y) as [Hle | Hle];
        [unfold sort_le in Hle; lia | exact Hle].
    + intros x y _ _ Hle. exact Hle.
    + exact le_trans.
    + now apply Forall_forall.
  - intros x. rewrite Hst. symmetry. apply Array_sort_stable.
    intros y z Hy Hz. apply equiv_iff in Hy, Hz.
    apply le_trans with x; tauto.
Qed.
End Determined.
End ArraySort.

(** ** The order of strings by code units *)

Lemma ascii_compare_refl (c : ascii) : Ascii.compare c c = Eq.
Proof. apply N.compare_refl. Qed.

Lemma string_compare_refl (s : string) : String.compare s s = Eq.
Proof.
  induction s as [| c s IH]; simpl; [reflexivity |].
  now rewrite ascii_compare_refl.
Qed.

Lemma ascii_compare_Lt_trans (x y z : ascii) :
  Ascii.compare x y = Lt -> Ascii.compare y z = Lt -> Ascii.compare x z = Lt.
Proof.
  unfold Ascii.compare. rewrite !N.compare_lt_iff. apply N.lt_trans.
Qed.

Lemma str_le_trans (a b c : string) : str_le a b -> str_le b c -> str_le a c.
Proof.
  unfold str_le. revert b c.
  induction a as [| x a IH]; intros b c Hab Hbc.
  - destruct c; simpl; discriminate.
  - destruct b as [| y b]; simpl in Hab; [congruence |].
    destruct c as [| z c]; simpl in Hbc; [congruence |].
    simpl.
    destruct (Ascii.compare x y) eqn:Hxy; try congruence.
    + apply Ascii.compare_eq_iff in Hxy. subst y.
      destruct (Ascii.compare x z) eqn:Hxz; try congruence.
      now apply IH with b.
    + destruct (Ascii.compare y z) eqn:Hyz; try congruence.
      * apply Ascii.compare_eq_iff in Hyz. subst z.
        rewrite Hxy. discriminate.
      * rewrite (ascii_compare_Lt_trans x y z Hxy Hyz). discriminate.
Qed.

Lemma str_le_of_greater (x y : string) :
  String.compare x y = Gt -> str_le y x.
Proof.
  intros Hgt. unfold str_le. rewrite String.compare_antisym, Hgt.
  discriminate.
Qed.

Lemma sign_of_comparison_pos (c : comparison) :
  sign_of_comparison c > 0 <-> c = Gt.
Proof. destruct c; simpl; split; intros; try lia; congruence. Qed.

Lemma sign_of_comparison_nonpos (c : comparison) :
  sign_of_comparison c <= 0 <-> c <> Gt.
Proof. destruct c; simpl; split; intros; try lia; congruence. Qed.

Lemma localeCompare_le `{Host} (s t : string) :
  localeCompare s t <= 0 <-> str_le (collationKey s) (collationKey t).
Proof. unfold localeCompare. apply sign_of_comparison_nonpos. Qed.

Lemma localeCompare_refl `{Host} (s : string) : localeCompare s s = 0.
Proof. unfold localeCompare. now rewrite string_compare_refl. Qed.

(** ** [sortImmobili] *)

Lemma sortImmobili_mode `{Host} (immobili : list Immobile) (ordine : string) :
  sortImmobili immobili ordine
  = match sort_mode ordine with
    | PrezzoCrescente => Array_sort cmp_prezzo_crescente immobili
    | PrezzoDecrescente => Array_sort cmp_prezzo_decrescente immobili
    | Recente => Array_sort cmp_recente immobili
    end.
Proof.
  unfold sortImmobili, sort_mode.
  destruct (String.eqb ordine "prezzo-crescente"); [reflexivity |].
  destruct (String.eqb ordine "prezzo-decrescente"); reflexivity.
Qed.

Lemma num_eqb_eq (a b : num) : num_eqb a b = true -> a = b.
Proof.
  destruct a, b; simpl; try discriminate; auto.
  intros Hz. apply Z.eqb_eq in Hz. now subst.
Qed.

Lemma num_sub_same (k : num) : match num_sub k k with NaN => 0 | Fin v => v end = 0.
Proof. destruct k; simpl; lia. Qed.

Lemma sortImmobili_perm `{Host} (immobili : list Immobile) (ordine : string) :
  Permutation immobili (sortImmobili immobili ordine).
Proof.
  rewrite sortImmobili_mode.
  destruct (sort_mode ordine); apply Array_sort_perm.
Qed.

Lemma same_sort_value_refl `{Host} (ordine : string) (a : Immobile) :
  same_sort_value ordine a a = true.
Proof.
  unfold same_sort_value. destruct (sort_mode ordine).
  - destruct (prezzoKey a); simpl; [reflexivity | apply Z.eqb_refl].
  - destruct (prezzoKey a); simpl; [reflexivity | apply Z.eqb_refl].
  - apply String.eqb_refl.
Qed.

Lemma same_normalized_value_refl (ordine : string) (a : Immobile) :
  same_normalized_value ordine a a = true.
Proof.
  unfold same_normalized_value. destruct (sort_mode ordine);
    [apply Z.eqb_refl | apply Z.eqb_refl | apply String.eqb_refl].
Qed.

(** Stability on the elements satisfying [P]: a class of such elements none
    of which compares strictly greater than another keeps its order. *)
Section StableOn.
Context {A : Type}.
Variable comparefn : A -> A -> num.
Variable P : A -> Prop.
Variable same : A -> bool.
Hypothesis same_not_greater :
  forall x y, P x -> P y -> same x = true -> same y = true ->
              SortCompare comparefn x y <= 0.

Lemma sort_insert_filter_in_on (x : A) (l : list A) :
  P x -> Forall P l -> same x = true ->
  filter same (sort_insert comparefn x l) = x :: filter same l.
Proof.
  intros HPx HP Hx. induction HP as [| y l HPy HPl IH]; simpl.
  - now rewrite Hx.
  - destruct (SortCompare comparefn x y >? 0) eqn:Hc; simpl.
    + destruct (same y) eqn:Hy.
      * apply Z.gtb_lt in Hc.
        specialize (same_not_greater x y HPx HPy Hx Hy). lia.
      * exact IH.
    + now rewrite Hx.
Qed.

Lemma Array_sort_stable_on (l : list A) :
  Forall P l -> filter same (Array_sort comparefn l) = filter same l.
Proof.
  induction 1 as [| x l HPx HPl IH]; simpl; [reflexivity |].
  destruct (same x) eqn:Hx.
  - rewrite sort_insert_filter_in_on; auto.
    + now rewrite IH.
    + eapply Permutation_Forall; [apply Array_sort_perm | exact HPl].
  - rewrite sort_insert_filter_out by assumption. exact IH.
Qed.
End StableOn.

Lemma prezzoKey_numeric_or_missing `{Host} (e : Immobile) :
  prezzo_numeric_or_missing e -> prezzoKey e = Fin (normalizedPrice e).
Proof.
  unfold prezzo_numeric_or_missing, prezzoKey, normalizedPrice, js_or.
  destruct (prezzo e) as [| | b | z | s]; simpl; try tauto; intros _.
  destruct (Z.eqb_spec z 0); simpl; congruence.
Qed.

(** A price that is a non-empty text is not read as 0 by the comparison
    functions, unlike in [filterImmobili]: it goes through ToNumber. *)
Lemma prezzoKey_text `{Host} (e : Immobile) (c : ascii) (r : string) :
  prezzoKey (with_prezzo (JStr (String c r)) e) = StringToNumber (String c r).
Proof. reflexivity. Qed.

Lemma SortCompare_crescente `{Host} (a b : Immobile) :
  prezzo_numeric_or_missing a -> prezzo_numeric_or_missing b ->
  SortCompare cmp_prezzo_crescente a b = normalizedPrice a - normalizedPrice b.
Proof.
  intros Ha Hb. unfold SortCompare, cmp_prezzo_crescente.
  fold (prezzoKey a) (prezzoKey b).
  now rewrite !prezzoKey_numeric_or_missing by assumption.
Qed.

Lemma SortCompare_decrescente `{Host} (a b : Immobile) :
  prezzo_numeric_or_missing a -> prezzo_numeric_or_missing b ->
  SortCompare cmp_prezzo_decrescente a b = normalizedPrice b - normalizedPrice a.
Proof.
  intros Ha Hb. unfold SortCompare, cmp_prezzo_decrescente.
  fold (prezzoKey a) (prezzoKey b).
  now rewrite !prezzoKey_numeric_or_missing by assumption.
Qed.

Lemma price_converts_numeric_or_missing `{Host} (e : Immobile) :
  prezzo_numeric_or_missing e -> price_converts e.
Proof.
  intros He. unfold price_converts.
  rewrite prezzoKey_numeric_or_missing by assumption. discriminate.
Qed.

Lemma consistent_comparable `{Host} (ordine : string)
  (immobili : list Immobile) :
  consistent_input ordine immobili -> comparable_input ordine immobili.
Proof.
  intros [Hr | Hall]; [now left | right].
  eapply Forall_impl; [| exact Hall].
  intros e. apply price_converts_numeric_or_missing.
Qed.

(** On prices that are numbers or missing, entries with the same normalized
    price keep their order; so do entries with the same date text in the
    default mode. *)
Lemma sortImmobili_stable_normalized `{Host} (immobili : list Immobile)
  (ordine : string) (x : Immobile) :
  consistent_input ordine immobili ->
  filter (same_normalized_value ordine x) (sortImmobili immobili ordine)
  = filter (same_normalized_value ordine x) immobili.
Proof.
  intros Hcons. rewrite sortImmobili_mode. unfold same_normalized_value.
  destruct (sort_mode ordine) eqn:Hm.
  - destruct Hcons as [Hr | Hall]; [congruence |].
    apply Array_sort_stable_on with (P := prezzo_numeric_or_missing);
      [| exact Hall].
    intros a b Ha Hb Hxa Hxb. rewrite SortCompare_crescente by assumption.
    apply Z.eqb_eq in Hxa, Hxb. lia.
  - destruct Hcons as [Hr | Hall]; [congruence |].
    apply Array_sort_stable_on with (P := prezzo_numeric_or_missing);
      [| exact Hall].
    intros a b Ha Hb Hxa Hxb. rewrite SortCompare_decrescente by assumption.
    apply Z.eqb_eq in Hxa, Hxb. lia.
  - apply Array_sort_stable. intros a b Ha Hb.
    apply String.eqb_eq in Ha, Hb.
    unfold SortCompare, cmp_recente.
    fold (dataKey a) (dataKey b). rewrite <- Ha, <- Hb.
    rewrite localeCompare_refl. lia.
Qed.

(** On prices that all convert to numbers, entries with the same converted
    price keep their order. *)
Lemma sortImmobili_stable_converted `{Host} (immobili : list Immobile)
  (ordine : string) (x : Immobile) :
  comparable_input ordine immobili ->
  filter (same_sort_value ordine x) (sortImmobili immobili ordine)
  = filter (same_sort_value ordine x) immobili.
Proof.
  intros Hcomp. rewrite sortImmobili_mode. unfold same_sort_value.
  destruct (sort_mode ordine) eqn:Hm.
  - destruct Hcomp as [Hr | Hall]; [congruence |].
    apply Array_sort_stable_on with (P := price_converts); [| exact Hall].
    intros a b _ _ Ha Hb. apply num_eqb_eq in Ha, Hb.
    unfold SortCompare, cmp_prezzo_crescente.
    fold (prezzoKey a) (prezzoKey b). rewrite <- Ha, <- Hb.
    rewrite num_sub_same. lia.
  - destruct Hcomp as [Hr | Hall]; [congruence |].
    apply Array_sort_stable_on with (P := price_converts); [| exact Hall].
    intros a b _ _ Ha Hb. apply num_eqb_eq in Ha, Hb.
    unfold SortCompare, cmp_prezzo_decrescente.
    fold (prezzoKey a) (prezzoKey b). rewrite <- Ha, <- Hb.
    rewrite num_sub_same. lia.
  - apply Array_sort_stable. intros a b Ha Hb.
    apply String.eqb_eq in Ha, Hb.
    unfold SortCompare, cmp_recente.
    fold (dataKey a) (dataKey b). rewrite <- Ha, <- Hb.
    rewrite localeCompare_refl. lia.
Qed.

Lemma precedes_filter {A : Type} (p : A -> bool) (a b : A) (l : list A) :
  p a = true -> p b = true -> precedes a b l -> precedes a b (filter p l).
Proof.
  intros Ha Hb (l1 & l2 & l3 & ->).
  exists (filter p l1), (filter p l2), (filter p l3).
  rewrite filter_app. simpl. rewrite Ha, filter_app. simpl. now rewrite Hb.
Qed.

Lemma precedes_cons {A : Type} (x a b : A) (l : list A) :
  precedes a b l -> precedes a b (x :: l).
Proof.
  intros (l1 & l2 & l3 & ->). now exists (x :: l1), l2, l3.
Qed.

Lemma precedes_of_filter {A : Type} (p : A -> bool) (a b : A) (l : list A) :
  precedes a b (filter p l) -> precedes a b l.
Proof.
  induction l as [| x l IH]; simpl; intros (l1 & l2 & l3 & Heq).
  - destruct l1; discriminate.
  - destruct (p x).
    + destruct l1 as [| y l1]; simpl in Heq.
      * injection Heq as -> Hrest.
        assert (Hb : In b (filter p l))
          by (rewrite Hrest; apply in_or_app; right; now left).
        apply filter_In in Hb. destruct Hb as [Hb _].
        apply in_split in Hb. destruct Hb as (m1 & m2 & ->).
        now exists [], m1, m2.
      * injection Heq as -> Hrest.
        apply precedes_cons, IH. now exists l1, l2, l3.
    + apply precedes_cons, IH. now exists l1, l2, l3.
Qed.

(** In a two-element sequence the second element does not come before the
    first, unless they are the same. *)
Lemma not_precedes_pair {A : Type} (a b : A) :
  a <> b -> ~ precedes a b [b; a].
Proof.
  intros Hne (l1 & l2 & l3 & Heq).
  destruct l1 as [| x [| y l1]]; simpl in Heq.
  - injection Heq as Hba _. congruence.
  - apply (f_equal (@List.length A)) in Heq. simpl in Heq.
    rewrite length_app in Heq. simpl in Heq. lia.
  - apply (f_equal (@List.length A)) in Heq. simpl in Heq.
    rewrite !length_app in Heq. simpl in Heq. lia.
Qed.

(** C3, as stated, fails.  An entry whose price is the text "250000" and an
    entry whose price is the number 0 have the same normalized price, 0, and
    the first comes before the second in the input; price-ascending places
    the second before the first, because the comparison function converts
    the text to 250000. *)
Lemma C3_numeric_text_price_is_reordered :
  normalizedPrice immobile_testo = 0 /\
  normalizedPrice immobile_zero = 0 /\
  same_normalized_value "prezzo-crescente" immobile_testo immobile_zero
  = true /\
  precedes immobile_testo immobile_zero [immobile_testo; immobile_zero] /\
  @sortImmobili literalHost [immobile_testo; immobile_zero] "prezzo-crescente"
  = [immobile_zero; immobile_testo] /\
  ~ precedes immobile_testo immobile_zero
      (@sortImmobili literalHost [immobile_testo; immobile_zero]
         "prezzo-crescente").
Proof.
  split; [reflexivity |]. split; [reflexivity |]. split; [reflexivity |].
  split; [now exists [], [], [] |]. split; [reflexivity |].
  change (@sortImmobili literalHost [immobile_testo; immobile_zero]
            "prezzo-crescente")
    with [immobile_zero; immobile_testo].
  apply not_precedes_pair. discriminate.
Qed.

(** The restriction to inputs without a price that fails to convert cannot
    be dropped, also for two entries whose prices are numbers: with the
    prices 1, 2, 7, "abc", 5, 0, 5 the comparison function returns [NaN] on
    the text, and V8 places the entry with id 7 before the entry with id 5
    although both cost 5 and id 5 came first. *)
Lemma v8_sort_reorders_equal_prices :
  map id (v8_sort (@cmp_prezzo_crescente literalHost) prezzi_misti)
  = map JNum [6; 1; 2; 7; 3; 4; 5] /\
  map normalizedPrice (v8_sort (@cmp_prezzo_crescente literalHost) prezzi_misti)
  = [0; 1; 2; 5; 7; 0; 5] /\
  v8_sort (@cmp_prezzo_crescente literalHost) scenarioA3
  = Array_sort (@cmp_prezzo_crescente literalHost) scenarioA3.
Proof. repeat split; reflexivity. Qed.

(** C3 (amended). On every input on which the comparison is made between
    numbers the sort is stable.  When the prices are numbers or missing (and
    always in the default mode), for every entry [x] the entries whose
    normalized price equals that of [x] (whose date text, absent counting as
    empty, equals that of [x] in the default mode) come out in the order they
    came in; in particular, of two such entries the one that came first in
    the input comes first in the output.  When every price converts to a
    number the same holds of the entries with equal converted prices. *)
Theorem C3_sort_is_stable :
  forall (host : Host) (immobili : list Immobile) (ordine : string),
    (consistent_input ordine immobili ->
     (forall x : Immobile,
         filter (same_normalized_value ordine x)
                (sortImmobili immobili ordine)
         = filter (same_normalized_value ordine x) immobili) /\
     (forall a b : Immobile,
         same_normalized_value ordine a b = true ->
         precedes a b immobili ->
         precedes a b (sortImmobili immobili ordine))) /\
    (comparable_input ordine immobili ->
     (forall x : Immobile,
         filter (same_sort_value ordine x) (sortImmobili immobili ordine)
         = filter (same_sort_value ordine x) immobili) /\
     (forall a b : Immobile,
         same_sort_value ordine a b = true ->
         precedes a b immobili ->
         precedes a b (sortImmobili immobili ordine))).
Proof.
  intros host immobili ordine. split.
  - intros Hcons. split.
    + intros x. now apply sortImmobili_stable_normalized.
    + intros a b Hab Hprec.
      apply (precedes_of_filter (same_normalized_value ordine a)).
      rewrite sortImmobili_stable_normalized by assumption.
      apply precedes_filter; auto using same_normalized_value_refl.
  - intros Hcomp. split.
    + intros x. now apply sortImmobili_stable_converted.
    + intros a b Hab Hprec.
      apply (precedes_of_filter (same_sort_value ordine a)).
      rewrite sortImmobili_stable_converted by assumption.
      apply precedes_filter; auto using same_sort_value_refl.
Qed.

Lemma C3_sort_is_stable_witness :
  precedes immobile1 immobile3
    (@sortImmobili literalHost scenarioA3 "prezzo-crescente") /\
  precedes immobile_testo immobile_250000
    (@sortImmobili literalHost scenario_testo "prezzo-decrescente").
Proof.
  split.
  - assert (Hcons : consistent_input "prezzo-crescente" scenarioA3)
      by (right; repeat constructor).
    apply (proj2 (proj1 (C3_sort_is_stable literalHost scenarioA3
                           "prezzo-crescente") Hcons)).
    + reflexivity.
    + now exists [], [immobile2], [].
  - assert (Hcomp : @comparable_input literalHost "prezzo-decrescente"
                      scenario_testo)
      by (right; repeat constructor; discriminate).
    apply (proj2 (proj2 (C3_sort_is_stable literalHost scenario_testo
                           "prezzo-decrescente") Hcomp)).
    + reflexivity.
    + now exists [], [immobile1], [].
Defined.

(** ** The order of the sorted sequence *)













(** ** Arrays are not mutated *)

Lemma heap_preserved_trans (h1 h2 h3 : Heap) :
  heap_preserved h1 h2 -> heap_preserved h2 h3 -> heap_preserved h1 h3.
Proof. intros H12 H23 r x Hr. auto. Qed.

Lemma heap_preserved_app (h : Heap) (l : list Immobile) :
  heap_preserved h (h ++ [l])%list.
Proof.
  intros r x Hr. rewrite nth_error_app1; [exact Hr |].
  apply nth_error_Some. congruence.
Qed.

Lemma nth_error_app_last (h : Heap) (l : list Immobile) :
  nth_error (h ++ [l])%list (List.length h) = Some l.
Proof.
  rewrite nth_error_app2 by lia. now rewrite Nat.sub_diag.
Qed.

Lemma fresh_in_length (h : Heap) : fresh_in h (List.length h).
Proof. apply nth_error_None. lia. Qed.

Lemma heap_update_app_last (h : Heap) (l l' : list Immobile) :
  heap_update (List.length h) l' (h ++ [l])%list = (h ++ [l'])%list.
Proof.
  induction h as [| x h IH]; simpl; [reflexivity | now rewrite IH].
Qed.

Lemma filterImmobili_heap_run (h : Heap) (immobili : ref)
  (l : list Immobile) (f : Filters) :
  nth_error h immobili = Some l ->
  filterImmobili_heap immobili f h
  = Some (List.length h, (h ++ [filterImmobili l f])%list).
Proof.
  intros Hl.
  unfold filterImmobili_heap, Array_prototype_filter, bind, Array_read.
  now rewrite Hl.
Qed.

Lemma Array_prototype_sort_last (h : Heap) (l : list Immobile)
  (comparefn : Immobile -> Immobile -> num) :
  Array_prototype_sort comparefn (List.length h) (h ++ [l])%list
  = Some (List.length h, (h ++ [Array_sort comparefn l])%list).
Proof.
  unfold Array_prototype_sort, bind, Array_read, Array_write, ret.
  rewrite nth_error_app_last, nth_error_app_last.
  now rewrite heap_update_app_last.
Qed.

Lemma sortImmobili_heap_run `{Host} (h : Heap) (immobili : ref)
  (l : list Immobile) (o : string) :
  nth_error h immobili = Some l ->
  sortImmobili_heap immobili o h
  = Some (List.length h, (h ++ [sortImmobili l o])%list).
Proof.
  intros Hl.
  unfold sortImmobili_heap, Array_prototype_slice, Array_alloc, sortImmobili.
  unfold bind, Array_read. rewrite Hl.
  destruct (String.eqb o "prezzo-crescente");
    [| destruct (String.eqb o "prezzo-decrescente")];
    now rewrite Array_prototype_sort_last.
Qed.

(** C5. On array objects: [filterImmobili] returns a new array holding the
    filtered contents and leaves every existing array, the snapshot included,
    as it was; calling it again gives an array with the same contents;
    [sortImmobili] returns a new array, different from its argument, holding
    the sorted contents, and leaves its argument as it was; the same holds
    for a filter followed by a sort. *)
Theorem C5_filter_and_sort_do_not_mutate :
  forall (host : Host) (h : Heap) (immobili : ref) (l : list Immobile)
         (f : Filters) (o : string),
    nth_error h immobili = Some l ->
    (exists filtered h1,
        filterImmobili_heap immobili f h = Some (filtered, h1) /\
        fresh_in h filtered /\
        nth_error h1 filtered = Some (filterImmobili l f) /\
        heap_preserved h h1 /\
        exists filtered2 h2,
          filterImmobili_heap immobili f h1 = Some (filtered2, h2) /\
          nth_error h2 filtered2 = Some (filterImmobili l f) /\
          heap_preserved h1 h2) /\
    (exists sorted h3,
        sortImmobili_heap immobili o h = Some (sorted, h3) /\
        fresh_in h sorted /\ sorted <> immobili /\
        nth_error h3 sorted = Some (sortImmobili l o) /\
        heap_preserved h h3) /\
    (exists sorted h4,
        applyFilters_heap immobili f h = Some (sorted, h4) /\
        nth_error h4 sorted
        = Some (sortImmobili (filterImmobili l f) (ordine f)) /\
        heap_preserved h h4).
Proof.
  intros host h immobili l f o Hl.
  assert (Hfresh : forall r, fresh_in h r -> r <> immobili).
  { intros r Hr ->. unfold fresh_in in Hr. congruence. }
  split; [| split].
  - exists (List.length h), (h ++ [filterImmobili l f])%list.
    split; [now apply filterImmobili_heap_run |].
    split; [apply fresh_in_length |].
    split; [apply nth_error_app_last |].
    split; [apply heap_preserved_app |].
    set (h1 := (h ++ [filterImmobili l f])%list).
    exists (List.length h1), (h1 ++ [filterImmobili l f])%list.
    split; [apply filterImmobili_heap_run; now apply heap_preserved_app |].
    split; [apply nth_error_app_last | apply heap_preserved_app].
  - exists (List.length h), (h ++ [sortImmobili l o])%list.
    split; [now apply sortImmobili_heap_run |].
    split; [apply fresh_in_length |].
    split; [apply Hfresh, fresh_in_length |].
    split; [apply nth_error_app_last | apply heap_preserved_app].
  - set (h1 := (h ++ [filterImmobili l f])%list).
    exists (List.length h1),
      (h1 ++ [sortImmobili (filterImmobili l f) (ordine f)])%list.
    split.
    + unfold applyFilters_heap, bind.
      rewrite (filterImmobili_heap_run h immobili l f Hl).
      apply sortImmobili_heap_run. apply nth_error_app_last.
    + split; [apply nth_error_app_last |].
      eapply heap_preserved_trans; apply heap_preserved_app.
Qed.

Lemma C5_filter_and_sort_witness :
  exists sorted h3,
    @sortImmobili_heap literalHost 0%nat "prezzo-crescente" heapA
    = Some (sorted, h3) /\
    fresh_in heapA sorted /\ sorted <> 0%nat /\
    nth_error h3 sorted
    = Some (@sortImmobili literalHost scenarioA "prezzo-crescente") /\
    heap_preserved heapA h3.
Proof.
  apply (C5_filter_and_sort_do_not_mutate literalHost heapA 0%nat scenarioA
           noFilters "prezzo-crescente").
  reflexivity.
Defined.

(** ** Detail lookup *)

Lemma findImmobileById_loop_find (immobili : list Immobile) (req : JsVal) :
  findImmobileById_loop immobili req
  = find (fun item => String.eqb (ToString (id item)) (ToString req)) immobili.
Proof.
  induction immobili as [| item rest IH]; simpl; [reflexivity |].
  now rewrite IH.
Qed.

Lemma findImmobileById_truthy (immobili : list Immobile) (req : JsVal) :
  ToBoolean req = true ->
  findImmobileById immobili req
  = find (fun item => String.eqb (ToString (id item)) (ToString req)) immobili.
Proof.
  intros Hreq. unfold findImmobileById. rewrite Hreq. simpl.
  destruct immobili as [| item rest]; [reflexivity |].
  apply findImmobileById_loop_find.
Qed.

Lemma findImmobileById_unmatched (immobili : list Immobile) (req : JsVal) :
  (forall item, In item immobili -> ToString (id item) <> ToString req) ->
  findImmobileById immobili req = None.
Proof.
  intros Hno. unfold findImmobileById.
  destruct (negb (ToBoolean req) || (List.length immobili =? 0)%nat);
    [reflexivity |].
  rewrite findImmobileById_loop_find.
  destruct (find _ immobili) as [item |] eqn:Hf; [| reflexivity].
  apply find_some in Hf. destruct Hf as [Hin Heq].
  apply String.eqb_eq in Heq. now apply Hno in Heq.
Qed.

Lemma initImmobileDetail_not_found `{Host} (params_get : option string)
  (fetch : FetchOutcome) (loc : Location) (d : Document) :
  resolved_entry params_get fetch = None ->
  initImmobileDetail params_get fetch loc d = d \/
  initImmobileDetail params_get fetch loc d = showImmobileFallback d.
Proof.
  unfold resolved_entry, initImmobileDetail. intros Hr.
  destruct (immobile_detail d); [| now left].
  destruct (getQueryParam params_get); [| now right].
  destruct (fetchImmobili fetch); [| now right].
  rewrite Hr. now right.
Qed.

Lemma initImmobileDetail_found `{Host} (params_get : option string)
  (fetch : FetchOutcome) (loc : Location) (d : Document) (e : Immobile) :
  resolved_entry params_get fetch = Some e ->
  immobile_detail d <> None ->
  initImmobileDetail params_get fetch loc d
  = renderImmobileDetail e (injectJsonLdOffer loc e (updateMetaTags e d)).
Proof.
  unfold resolved_entry, initImmobileDetail. intros Hr Hd.
  destruct (immobile_detail d); [| congruence].
  destruct (getQueryParam params_get); [| discriminate].
  destruct (fetchImmobili fetch); [| discriminate].
  now rewrite Hr.
Qed.

(** C6. The lookup compares the string form of each stored id with the
    string form of the requested identifier: an entry with id 7 is found by
    the request "7" and an entry with id "7" by the request 7.  An absent,
    empty or unmatched identifier gives not-found, and then the page keeps its
    title, descriptions, head scripts and gallery: no metadata is injected
    and no gallery is set up, whereas a resolved entry gets all of them. *)
Theorem C6_detail_lookup_by_string_form :
  forall (host : Host) (immobili : list Immobile),
    (forall req, ToBoolean req = true ->
       findImmobileById immobili req
       = find (fun item => String.eqb (ToString (id item)) (ToString req))
              immobili) /\
    (forall e rest,
        findImmobileById (with_id (JNum 7) e :: rest) (JStr "7")
        = Some (with_id (JNum 7) e) /\
        findImmobileById (with_id (JStr "7") e :: rest) (JNum 7)
        = Some (with_id (JStr "7") e)) /\
    findImmobileById immobili JUndefined = None /\
    findImmobileById immobili JNull = None /\
    findImmobileById immobili (JStr "") = None /\
    (forall req,
        (forall item, In item immobili -> ToString (id item) <> ToString req) ->
        findImmobileById immobili req = None) /\
    (forall params_get fetch loc d,
        resolved_entry params_get fetch = None ->
        metadata_of (initImmobileDetail params_get fetch loc d) = metadata_of d /\
        gallery_of (initImmobileDetail params_get fetch loc d) = gallery_of d) /\
    (forall params_get fetch loc d e,
        resolved_entry params_get fetch = Some e ->
        immobile_detail d <> None ->
        initImmobileDetail params_get fetch loc d
        = renderImmobileDetail e (injectJsonLdOffer loc e (updateMetaTags e d)) /\
        doc_title (initImmobileDetail params_get fetch loc d) = meta_title e /\
        In (offer_script loc e)
           (head_scripts (initImmobileDetail params_get fetch loc d))).
Proof.
  intros host immobili.
  split; [intros req; apply findImmobileById_truthy |].
  split; [intros e rest; split; reflexivity |].
  split; [reflexivity |]. split; [reflexivity |]. split; [reflexivity |].
  split; [intros req; apply findImmobileById_unmatched |].
  split.
  - intros params_get fetch loc d Hr.
    destruct (initImmobileDetail_not_found params_get fetch loc d Hr)
      as [-> | ->]; [split; reflexivity |].
    split; [reflexivity |].
    unfold gallery_of, showImmobileFallback. simpl.
    now destruct (immobile_detail d).
  - intros params_get fetch loc d e Hr Hd.
    rewrite (initImmobileDetail_found params_get fetch loc d e Hr Hd).
    split; [reflexivity |].
    unfold renderImmobileDetail. simpl.
    destruct (immobile_detail d); [| congruence]. simpl.
    split; [reflexivity |].
    apply in_or_app. right. now left.
Qed.

Lemma C6_detail_lookup_witness :
  (findImmobileById scenarioA (JStr "99") = None) /\
  (metadata_of (@initImmobileDetail literalHost (Some "99") fetchA location0
                  detailPage)
   = metadata_of detailPage /\
   gallery_of (@initImmobileDetail literalHost (Some "99") fetchA location0
                 detailPage)
   = gallery_of detailPage) /\
  In (offer_script location0 immobile2)
     (head_scripts (@initImmobileDetail literalHost (Some "2") fetchA
                      location0 detailPage)).
Proof.
  destruct (C6_detail_lookup_by_string_form literalHost scenarioA)
    as (Hfind & _ & _ & _ & _ & Hun & Hnot & Hfound).
  split; [| split].
  - apply Hun. intros item [<- | [<- | []]]; discriminate.
  - apply Hnot. reflexivity.
  - apply (Hfound (Some "2") fetchA location0 detailPage immobile2).
    + reflexivity.
    + discriminate.
Defined.

(** ** JSON-LD injection *)

Section HeadScripts.
Variable i : string.

Lemma count_id_app (l : list Script) (s : Script) :
  count_id i (l ++ [s])
  = (count_id i l + if String.eqb (script_id s) i then 1 else 0)%nat.
Proof.
  unfold count_id. rewrite filter_app, length_app. simpl.
  now destruct (String.eqb (script_id s) i).
Qed.

Lemma count_id_remove_first (l : list Script) :
  count_id i (remove_first i l) = Nat.pred (count_id i l).
Proof.
  unfold count_id. induction l as [| s l IH]; simpl; [reflexivity |].
  destruct (String.eqb (script_id s) i) eqn:Hs; simpl; [reflexivity |].
  now rewrite Hs.
Qed.

Lemma getElementById_None (l : list Script) :
  getElementById i l = None <-> count_id i l = 0%nat.
Proof.
  unfold getElementById, count_id.
  induction l as [| s l IH]; simpl; [tauto |].
  destruct (String.eqb (script_id s) i); simpl; [| exact IH].
  split; discriminate.
Qed.

Lemma getElementById_app_new (l : list Script) (s : Script) :
  count_id i l = 0%nat -> script_id s = i ->
  getElementById i (l ++ [s]) = Some s.
Proof.
  unfold getElementById, count_id.
  induction l as [| t l IH]; simpl; intros Hc Hs.
  - now rewrite Hs, String.eqb_refl.
  - destruct (String.eqb (script_id t) i); simpl in *; [discriminate |].
    now apply IH.
Qed.

Lemma remove_first_app_new (l : list Script) (s : Script) :
  count_id i l = 0%nat -> script_id s = i ->
  remove_first i (l ++ [s]) = l.
Proof.
  unfold count_id.
  induction l as [| t l IH]; simpl; intros Hc Hs.
  - now rewrite Hs, String.eqb_refl.
  - destruct (String.eqb (script_id t) i); simpl in *; [discriminate |].
    now rewrite IH.
Qed.

(** What happens to the blocks of another marker [j]. *)
Variable j : string.
Hypothesis j_other : j <> i.

Lemma count_id_remove_other (l : list Script) :
  count_id j (remove_first i l) = count_id j l.
Proof.
  unfold count_id. induction l as [| s l IH]; simpl; [reflexivity |].
  destruct (String.eqb_spec (script_id s) i) as [Hs | Hs].
  - destruct (String.eqb_spec (script_id s) j); [congruence | reflexivity].
  - simpl. destruct (String.eqb (script_id s) j); simpl; now rewrite IH.
Qed.

Lemma getElementById_remove_other (l : list Script) :
  getElementById j (remove_first i l) = getElementById j l.
Proof.
  unfold getElementById. induction l as [| s l IH]; simpl; [reflexivity |].
  destruct (String.eqb_spec (script_id s) i) as [Hs | Hs].
  - destruct (String.eqb_spec (script_id s) j); [congruence | reflexivity].
  - simpl. destruct (String.eqb (script_id s) j); [reflexivity | exact IH].
Qed.

Lemma getElementById_app_other (l : list Script) (s : Script) :
  script_id s = i ->
  getElementById j (l ++ [s]) = getElementById j l.
Proof.
  intros Hs. unfold getElementById.
  induction l as [| t l IH]; simpl.
  - destruct (String.eqb_spec (script_id s) j); [congruence | reflexivity].
  - destruct (String.eqb (script_id t) j); [reflexivity | exact IH].
Qed.
End HeadScripts.

Lemma offer_scripts_removed (l : list Script) :
  (count_id "jsonld-offer" l <= 1)%nat ->
  count_id "jsonld-offer"
    (match getElementById "jsonld-offer" l with
     | Some _ => remove_first "jsonld-offer" l
     | None => l
     end) = 0%nat.
Proof.
  intros Hc.
  destruct (getElementById "jsonld-offer" l) eqn:Hg.
  - rewrite count_id_remove_first. lia.
  - now apply getElementById_None.
Qed.

Lemma agent_id_not_offer : JSONLD_AGENT_ID <> "jsonld-offer".
Proof. discriminate. Qed.

Lemma offer_id_not_agent : "jsonld-offer" <> JSONLD_AGENT_ID.
Proof. discriminate. Qed.

Lemma injectJsonLdOffer_offer (loc : Location) (e : Immobile) (d : Document) :
  (count_id "jsonld-offer" (head_scripts d) <= 1)%nat ->
  count_id "jsonld-offer" (head_scripts (injectJsonLdOffer loc e d)) = 1%nat /\
  getElementById "jsonld-offer" (head_scripts (injectJsonLdOffer loc e d))
  = Some (offer_script loc e).
Proof.
  intros Hc. pose proof (offer_scripts_removed _ Hc) as H0.
  unfold injectJsonLdOffer. simpl. split.
  - rewrite count_id_app, H0. reflexivity.
  - now apply getElementById_app_new.
Qed.

Lemma injectJsonLdOffer_agent (loc : Location) (e : Immobile) (d : Document) :
  count_id JSONLD_AGENT_ID (head_scripts (injectJsonLdOffer loc e d))
  = count_id JSONLD_AGENT_ID (head_scripts d) /\
  getElementById JSONLD_AGENT_ID (head_scripts (injectJsonLdOffer loc e d))
  = getElementById JSONLD_AGENT_ID (head_scripts d).
Proof.
  unfold injectJsonLdOffer. simpl. split.
  - rewrite count_id_app. simpl. rewrite Nat.add_0_r.
    destruct (getElementById "jsonld-offer" (head_scripts d)); [| reflexivity].
    apply count_id_remove_other, agent_id_not_offer.
  - rewrite (getElementById_app_other "jsonld-offer")
      by (auto using agent_id_not_offer).
    destruct (getElementById "jsonld-offer" (head_scripts d)); [| reflexivity].
    apply getElementById_remove_other, agent_id_not_offer.
Qed.

Lemma injectRealEstateAgentSchema_agent (loc : Location) (d : Document) :
  (count_id JSONLD_AGENT_ID (head_scripts d) <= 1)%nat ->
  count_id JSONLD_AGENT_ID (head_scripts (injectRealEstateAgentSchema loc d))
  = 1%nat /\
  getElementById JSONLD_AGENT_ID
    (head_scripts (injectRealEstateAgentSchema loc d))
  = match getElementById JSONLD_AGENT_ID (head_scripts d) with
    | Some s => Some s
    | None => Some (agent_script loc)
    end.
Proof.
  intros Hc. unfold injectRealEstateAgentSchema.
  destruct (getElementById JSONLD_AGENT_ID (head_scripts d)) as [s |] eqn:Hg.
  - split; [| exact Hg].
    assert (count_id JSONLD_AGENT_ID (head_scripts d) <> 0%nat).
    { intros H0. apply getElementById_None in H0. congruence. }
    lia.
  - apply getElementById_None in Hg. simpl. split.
    + rewrite count_id_app, Hg. reflexivity.
    + now apply getElementById_app_new.
Qed.

Lemma injectRealEstateAgentSchema_offer (loc : Location) (d : Document) :
  count_id "jsonld-offer" (head_scripts (injectRealEstateAgentSchema loc d))
  = count_id "jsonld-offer" (head_scripts d) /\
  getElementById "jsonld-offer"
    (head_scripts (injectRealEstateAgentSchema loc d))
  = getElementById "jsonld-offer" (head_scripts d).
Proof.
  unfold injectRealEstateAgentSchema.
  destruct (getElementById JSONLD_AGENT_ID (head_scripts d));
    [split; reflexivity |].
  simpl. split.
  - rewrite count_id_app. simpl. lia.
  - apply (getElementById_app_other JSONLD_AGENT_ID);
      auto using offer_id_not_agent.
Qed.

Lemma injectJsonLdOffer_idempotent (loc : Location) (e : Immobile)
  (d : Document) :
  (count_id "jsonld-offer" (head_scripts d) <= 1)%nat ->
  injectJsonLdOffer loc e (injectJsonLdOffer loc e d)
  = injectJsonLdOffer loc e d.
Proof.
  intros Hc. pose proof (offer_scripts_removed _ Hc) as H0.
  unfold injectJsonLdOffer at 1. simpl.
  rewrite (getElementById_app_new "jsonld-offer") by auto.
  rewrite (remove_first_app_new "jsonld-offer") by auto.
  reflexivity.
Qed.

Lemma injectRealEstateAgentSchema_idempotent (loc : Location) (d : Document) :
  injectRealEstateAgentSchema loc (injectRealEstateAgentSchema loc d)
  = injectRealEstateAgentSchema loc d.
Proof.
  destruct (getElementById JSONLD_AGENT_ID (head_scripts d)) eqn:Hg.
  - assert (Hd : injectRealEstateAgentSchema loc d = d)
      by (unfold injectRealEstateAgentSchema; now rewrite Hg).
    now rewrite !Hd.
  - assert (Hd : injectRealEstateAgentSchema loc d
                 = with_head_scripts (head_scripts d ++ [agent_script loc])%list d)
      by (unfold injectRealEstateAgentSchema; now rewrite Hg).
    rewrite Hd. unfold injectRealEstateAgentSchema. simpl.
    apply getElementById_None in Hg.
    now rewrite (getElementById_app_new JSONLD_AGENT_ID).
Qed.

Lemma run_injection_unique (loc : Location) (d : Document) (x : Injection) :
  markers_unique d -> markers_unique (run_injection loc d x).
Proof.
  intros [Ho Ha]. unfold markers_unique.
  destruct x as [e |]; unfold run_injection.
  - destruct (injectJsonLdOffer_offer loc e d Ho) as [-> _].
    destruct (injectJsonLdOffer_agent loc e d) as [-> _]. split; lia.
  - destruct (injectRealEstateAgentSchema_agent loc d Ha) as [-> _].
    destruct (injectRealEstateAgentSchema_offer loc d) as [-> _]. split; lia.
Qed.

Lemma run_injections_counts (loc : Location) (calls : list Injection) :
  forall d, markers_unique d ->
    (count_id "jsonld-offer" (head_scripts d) = 1%nat \/
     existsb is_offer_call calls = true ->
     count_id "jsonld-offer" (head_scripts (run_injections loc calls d))
     = 1%nat) /\
    (count_id JSONLD_AGENT_ID (head_scripts d) = 1%nat \/
     existsb is_agent_call calls = true ->
     count_id JSONLD_AGENT_ID (head_scripts (run_injections loc calls d))
     = 1%nat).
Proof.
  induction calls as [| x calls IH]; intros d Hu.
  - simpl. split; intros [H1 | Hf]; auto; discriminate.
  - pose proof (run_injection_unique loc d x Hu) as Hu1.
    destruct (IH _ Hu1) as [IHo IHa]. destruct Hu as [Ho Ha].
    change (run_injections loc (x :: calls) d)
      with (run_injections loc calls (run_injection loc d x)).
    destruct x as [e |];
      cbn [run_injection existsb is_offer_call is_agent_call orb] in *.
    + split.
      * intros _. apply IHo. left.
        apply (injectJsonLdOffer_offer loc e d Ho).
      * intros Hcase. apply IHa.
        destruct (injectJsonLdOffer_agent loc e d) as [-> _]. exact Hcase.
    + split.
      * intros Hcase. apply IHo.
        destruct (injectRealEstateAgentSchema_offer loc d) as [-> _].
        exact Hcase.
      * intros _. apply IHa. left.
        apply (injectRealEstateAgentSchema_agent loc d Ha).
Qed.

Lemma inject_twice_once (loc : Location) (e : Immobile) (d : Document) :
  markers_unique d ->
  run_injections loc (inject_twice e) d
  = run_injections loc [InjectAgent; InjectOffer e] d.
Proof.
  intros Hu. unfold inject_twice, run_injections.
  cbn [fold_left run_injection].
  set (d1 := injectRealEstateAgentSchema loc d).
  assert (Hu1 : markers_unique d1)
    by apply (run_injection_unique loc d InjectAgent Hu).
  set (d2 := injectJsonLdOffer loc e d1).
  assert (Hd3 : injectRealEstateAgentSchema loc d2 = d2).
  { unfold injectRealEstateAgentSchema.
    destruct (getElementById JSONLD_AGENT_ID (head_scripts d2)) eqn:Hg;
      [reflexivity |].
    apply getElementById_None in Hg. subst d2.
    destruct (injectJsonLdOffer_agent loc e d1) as [Hc _].
    rewrite Hc in Hg. subst d1.
    destruct Hu as [_ Ha].
    destruct (injectRealEstateAgentSchema_agent loc d Ha) as [Hone _].
    congruence. }
  rewrite Hd3. subst d2.
  apply injectJsonLdOffer_idempotent. apply Hu1.
Qed.

(** C7. Starting from a head with at most one block per marker, any
    sequence of injections that calls the offer injection at least once
    leaves exactly one block with the marker [jsonld-offer], and any sequence
    that calls the agency injection at least once leaves exactly one block
    with the marker [jsonld-real-estate-agent].  Calling both twice for an
    entry gives the same document as calling both once, with the offer block
    of that entry and the agency block of the page; a second call of either
    injection changes nothing: the offer injection removes the previous block
    before appending, the agency injection finds its block and stops. *)
Theorem C7_injection_is_idempotent :
  forall (loc : Location) (d : Document),
    markers_unique d ->
    (forall calls,
        (existsb is_offer_call calls = true ->
         count_id "jsonld-offer" (head_scripts (run_injections loc calls d))
         = 1%nat) /\
        (existsb is_agent_call calls = true ->
         count_id JSONLD_AGENT_ID (head_scripts (run_injections loc calls d))
         = 1%nat)) /\
    (forall e,
        run_injections loc (inject_twice e) d
        = run_injections loc [InjectAgent; InjectOffer e] d /\
        count_id "jsonld-offer"
          (head_scripts (run_injections loc (inject_twice e) d)) = 1%nat /\
        count_id JSONLD_AGENT_ID
          (head_scripts (run_injections loc (inject_twice e) d)) = 1%nat /\
        getElementById "jsonld-offer"
          (head_scripts (run_injections loc (inject_twice e) d))
        = Some (offer_script loc e) /\
        getElementById JSONLD_AGENT_ID
          (head_scripts (run_injections loc (inject_twice e) d))
        = match getElementById JSONLD_AGENT_ID (head_scripts d) with
          | Some s => Some s
          | None => Some (agent_script loc)
          end /\
        injectJsonLdOffer loc e (injectJsonLdOffer loc e d)
        = injectJsonLdOffer loc e d) /\
    injectRealEstateAgentSchema loc (injectRealEstateAgentSchema loc d)
    = injectRealEstateAgentSchema loc d.
Proof.
  intros loc d Hu. split; [| split].
  - intros calls.
    destruct (run_injections_counts loc calls d Hu) as [Ho Ha].
    split; intros Hcall; [apply Ho | apply Ha]; now right.
  - intros e.
    destruct (run_injections_counts loc (inject_twice e) d Hu) as [Ho Ha].
    split; [now apply inject_twice_once |].
    split; [apply Ho; now right |].
    split; [apply Ha; now right |].
    rewrite inject_twice_once by assumption.
    unfold run_injections. cbn [fold_left run_injection].
    split; [| split; [| apply injectJsonLdOffer_idempotent, Hu]].
    + apply injectJsonLdOffer_offer.
      apply (run_injection_unique loc d InjectAgent Hu).
    + destruct (injectJsonLdOffer_agent loc e
                  (injectRealEstateAgentSchema loc d)) as [_ ->].
      apply injectRealEstateAgentSchema_agent, Hu.
  - apply injectRealEstateAgentSchema_idempotent.
Qed.

Lemma C7_injection_witness :
  count_id "jsonld-offer"
    (head_scripts (run_injections location0 (inject_twice immobile2)
                     detailPage)) = 1%nat /\
  count_id JSONLD_AGENT_ID
    (head_scripts (run_injections location0 (inject_twice immobile2)
                     detailPage)) = 1%nat.
Proof.
  assert (Hu : markers_unique detailPage) by (split; vm_compute; lia).
  destruct (C7_injection_is_idempotent location0 detailPage Hu)
    as (_ & Htwice & _).
  destruct (Htwice immobile2) as (_ & Ho & Ha & _).
  split; [exact Ho | exact Ha].
Defined.

(** ** Loading *)

Lemma fetchImmobili_failed (fetch : FetchOutcome) :
  load_failed fetch -> fetchImmobili fetch = Fulfilled [].
Proof.
  unfold load_failed, fetchImmobili.
  destruct fetch as [response | reason]; simpl; [| reflexivity].
  intros [Hok | Hjson].
  - now rewrite Hok.
  - destruct (ok response); simpl; [| reflexivity].
    destruct (json response) as [[l | | v] | reason]; simpl;
      try reflexivity; contradiction.
Qed.

(** C8. Whatever the outcome of the request, [fetchImmobili] fulfils with an
    array: the empty array after a transport failure, a non-success status, a
    body that is not JSON or a payload that is not an array (the same value
    as after loading an empty array), and the payload itself when it is an
    array. *)
Theorem C8_load_always_resolves_to_a_sequence :
  forall fetch : FetchOutcome,
    (exists immobili, fetchImmobili fetch = Fulfilled immobili) /\
    (load_failed fetch -> fetchImmobili fetch = Fulfilled []) /\
    (load_failed fetch -> fetchImmobili fetch = fetchImmobili fetchEmpty) /\
    (forall response immobili,
        fetch = Fulfilled response -> ok response = true ->
        json response = Fulfilled (DataArray immobili) ->
        fetchImmobili fetch = Fulfilled immobili).
Proof.
  intros fetch. split; [| split; [| split]].
  - unfold fetchImmobili.
    destruct fetch as [response | reason]; simpl; [| eauto].
    destruct (ok response); simpl; [| eauto].
    destruct (json response) as [data | reason]; simpl; eauto.
  - apply fetchImmobili_failed.
  - intros Hf. now rewrite fetchImmobili_failed.
  - intros response immobili -> Hok Hjson.
    unfold fetchImmobili. simpl. now rewrite Hok, Hjson.
Qed.

Lemma C8_load_witness :
  fetchImmobili (Rejected "Failed to fetch") = Fulfilled [] /\
  fetchImmobili fetchA = Fulfilled scenarioA.
Proof.
  split.
  - apply (proj1 (proj2 (C8_load_always_resolves_to_a_sequence
                           (Rejected "Failed to fetch")))).
    exact I.
  - apply (proj2 (proj2 (proj2 (C8_load_always_resolves_to_a_sequence fetchA)))
             {| ok := true; status := 200;
                json := Fulfilled (DataArray scenarioA) |});
      reflexivity.
Defined.

(** ** Facets *)

Lemma existsb_eqb_In (v : string) (l : list string) :
  existsb (String.eqb v) l = true <-> In v l.
Proof.
  rewrite existsb_exists. split.
  - intros [x [Hin Heq]]. apply String.eqb_eq in Heq. now subst.
  - intros Hin. exists v. split; [exact Hin | apply String.eqb_refl].
Qed.

Lemma truthy_str_true (s : string) : truthy_str s = true <-> s <> "".
Proof. destruct s; simpl; split; congruence. Qed.

Lemma push_unique_In (field : Immobile -> option string) (acc : list string)
  (item : Immobile) (v : string) :
  In v (push_unique field acc item)
  <-> In v acc \/ (v <> "" /\ field item = Some v).
Proof.
  unfold push_unique. destruct (field item) as [w |].
  - destruct (truthy_str w) eqn:Hw; simpl.
    + apply truthy_str_true in Hw.
      destruct (existsb (String.eqb w) acc) eqn:Hex; simpl.
      * apply existsb_eqb_In in Hex. split; [now left |].
        intros [Hacc | [_ Heq]]; [exact Hacc |].
        injection Heq as <-. exact Hex.
      * rewrite in_app_iff. simpl. split.
        -- intros [Hacc | [<- | []]]; [now left | now right].
        -- intros [Hacc | [_ Heq]]; [now left |].
           injection Heq as <-. right. now left.
    + apply truthy_str_false in Hw. subst w. split; [now left |].
      intros [Hacc | [Hv Heq]]; [exact Hacc |].
      injection Heq as <-. contradiction.
  - split; [now left |]. intros [Hacc | [_ Heq]]; [exact Hacc | discriminate].
Qed.

Lemma push_unique_NoDup (field : Immobile -> option string)
  (acc : list string) (item : Immobile) :
  NoDup acc -> NoDup (push_unique field acc item).
Proof.
  intros Hnd. unfold push_unique. destruct (field item) as [w |]; [| exact Hnd].
  destruct (truthy_str w && negb (existsb (String.eqb w) acc)) eqn:Hc;
    [| exact Hnd].
  apply andb_true_iff in Hc. destruct Hc as [_ Hnew].
  apply negb_true_iff in Hnew.
  apply NoDup_app; [exact Hnd | repeat constructor; auto |].
  intros a Ha [Haw | []]. subst a.
  apply existsb_eqb_In in Ha. congruence.
Qed.

Lemma occurs_cons (field : Immobile -> option string) (item : Immobile)
  (rest : list Immobile) (v : string) :
  occurs field (item :: rest) v <-> field item = Some v \/ occurs field rest v.
Proof.
  unfold occurs. split.
  - intros [e [[<- | He] Hf]]; [now left | right; now exists e].
  - intros [Hf | [e [He Hf]]]; [exists item | exists e]; simpl; auto.
Qed.

Lemma collect_fold (field : Immobile -> option string)
  (immobili : list Immobile) :
  forall acc, NoDup acc ->
    NoDup (fold_left (push_unique field) immobili acc) /\
    (forall v, In v (fold_left (push_unique field) immobili acc)
               <-> In v acc \/ (v <> "" /\ occurs field immobili v)).
Proof.
  induction immobili as [| item rest IH]; intros acc Hnd; simpl.
  - split; [exact Hnd |]. intros v. split; [now left |].
    intros [Hin | [_ [e [[] _]]]]. exact Hin.
  - destruct (IH _ (push_unique_NoDup field acc item Hnd)) as [IHnd IHin].
    split; [exact IHnd |].
    intros v. rewrite IHin, push_unique_In, occurs_cons. tauto.
Qed.

Lemma Array_sort_default_sorted (l : list string) :
  StronglySorted str_le (Array_sort cmp_default l).
Proof.
  apply Array_sort_sorted with (P := fun _ => True).
  - intros x y _ _. unfold SortCompare, cmp_default. intros Hgt.
    apply (proj1 (sign_of_comparison_pos _)) in Hgt.
    now apply str_le_of_greater.
  - intros x y _ _. unfold SortCompare, cmp_default. intros Hle.
    now apply (proj1 (sign_of_comparison_nonpos _)) in Hle.
  - apply str_le_trans.
  - now apply Forall_forall.
Qed.

Lemma facet_is_facet (field : Immobile -> option string)
  (immobili : list Immobile) :
  is_facet_of field immobili
    (Array_sort cmp_default (collect_unique field immobili)).
Proof.
  destruct (collect_fold field immobili [] (NoDup_nil _)) as [Hnd Hin].
  pose proof (Array_sort_perm cmp_default (collect_unique field immobili))
    as Hperm.
  split; [| split].
  - eapply Permutation_NoDup; [exact Hperm | exact Hnd].
  - intros v. split.
    + intros Hv. apply (Permutation_in _ (Permutation_sym Hperm)) in Hv.
      apply Hin in Hv. destruct Hv as [[] | Hv]. exact Hv.
    + intros Hv. apply (Permutation_in _ Hperm). apply Hin. now right.
  - apply Array_sort_default_sorted.
Qed.

(** C9. For every snapshot, the options derived for the cities and for the
    property types are exactly the distinct non-empty values that occur in
    the snapshot, without duplicates, in the alphabetical order given by the
    code units of the strings. *)
Theorem C9_facets_are_distinct_and_ordered :
  forall immobili : list Immobile,
    is_facet_of citta immobili (fst (populateFilterOptions immobili)) /\
    is_facet_of tipoImmobile immobili (snd (populateFilterOptions immobili)).
Proof.
  intros immobili. split; apply facet_is_facet.
Qed.

(** ** Home page *)

Lemma slice_to_nonempty (n : nat) (immobili : list Immobile) :
  immobili <> [] -> (List.length (slice_to (S n) immobili) =? 0)%nat = false.
Proof.
  destruct immobili as [| e rest]; [congruence | reflexivity].
Qed.

(** C10. When the snapshot loaded on the home page is not empty, the grid
    holds the cards of the first 6 entries at most, built from the entries in
    snapshot order after the cut: their number is the smaller of 6 and the
    size of the snapshot, and a snapshot of at most 6 entries is rendered in
    full. *)
Theorem C10_home_renders_first_six :
  forall (host : Host) (fetch : FetchOutcome) (d : HomeDocument)
         (g : GridEl) (immobili : list Immobile),
    home_grid d = Some g ->
    fetchImmobili fetch = Fulfilled immobili ->
    immobili <> [] ->
    cards_of (initHomeImmobili fetch d)
    = Some (map buildCardHtml (firstn 6 immobili)) /\
    option_map (@List.length string) (cards_of (initHomeImmobili fetch d))
    = Some (Nat.min 6 (List.length immobili)) /\
    ((List.length immobili <= 6)%nat ->
     cards_of (initHomeImmobili fetch d) = Some (map buildCardHtml immobili)) /\
    option_map grid_innerHTML (home_grid (initHomeImmobili fetch d))
    = Some (String.concat "" (map buildCardHtml (firstn 6 immobili))) /\
    MAX_CARD_HOME = 6%nat.
Proof.
  intros host fetch d g immobili Hg Hfetch Hne.
  assert (Hcards : cards_of (initHomeImmobili fetch d)
                   = Some (map buildCardHtml (firstn 6 immobili))).
  { unfold initHomeImmobili, renderHome. rewrite Hg, Hfetch.
    unfold MAX_CARD_HOME. rewrite slice_to_nonempty by assumption.
    unfold cards_of, hideFallback. simpl. now rewrite Hg. }
  rewrite Hcards.
  split; [reflexivity |]. split; [| split; [| split; [| reflexivity]]].
  - cbn [option_map]. now rewrite length_map, length_firstn.
  - intros Hlen. now rewrite firstn_all2.
  - unfold cards_of in Hcards.
    destruct (home_grid (initHomeImmobili fetch d)) as [g' |];
      [| discriminate].
    simpl in Hcards. injection Hcards as Hc.
    simpl. unfold grid_innerHTML. now rewrite Hc.
Qed.

Lemma C10_home_witness :
  cards_of (@initHomeImmobili literalHost fetchA homePage)
  = Some (map (@buildCardHtml literalHost) (firstn 6 scenarioA)).
Proof.
  apply (proj1 (C10_home_renders_first_six literalHost fetchA homePage
                  {| grid_display := ""; grid_cards := [] |} scenarioA
                  eq_refl eq_refl
                  (fun H : scenarioA = [] => @nil_cons _ immobile1 [immobile2]
                                               (eq_sym H)))).
Defined.

(** * Further properties *)

(** ** Criteria read from the form *)

Lemma filter_all_true {A : Type} (p : A -> bool) (l : list A) :
  (forall x, In x l -> p x = true) -> filter p l = l.
Proof.
  induction l as [| x l IH]; intros Hall; simpl; [reflexivity |].
  rewrite (Hall x) by now left.
  f_equal. apply IH. intros y Hy. apply Hall. now right.
Qed.

Lemma read_bound_no_bound (control : option string) :
  control_no_bound control ->
  read_bound control = None \/ read_bound control = Some NaN.
Proof.
  destruct control as [s |]; simpl.
  - intros [Hblank | Hnan].
    + left. unfold read_bound. simpl. now rewrite Hblank.
    + now apply read_bound_unparsed.
  - intros _. right. reflexivity.
Qed.

Lemma no_bound_Satisfies (b : option num) :
  b = None \/ b = Some NaN -> forall m, b <> Some (Fin m).
Proof. intros [-> | ->] m; discriminate. Qed.

(** X1. Without the form, or with a form none of whose controls sets a
    criterion (text controls absent or empty, bound controls absent, blank
    or unreadable), filtering returns the whole snapshot. *)
Theorem X1_unconstrained_form_keeps_everything :
  forall (immobili : list Immobile),
    filterImmobili immobili (getFiltersFromForm None) = immobili /\
    (forall form, form_unconstrained form ->
       filterImmobili immobili (getFiltersFromForm (Some form)) = immobili).
Proof.
  intros immobili. split.
  - apply filter_all_true. intros e _. reflexivity.
  - intros form (Hc & Hmin & Hmax & Hl & Ht).
    apply filter_all_true. intros e _.
    apply filterImmobili_cb_Satisfies. unfold Satisfies. simpl.
    unfold control_empty in Hc, Hl, Ht.
    apply read_bound_no_bound in Hmin, Hmax.
    repeat split; auto.
    + intros m Hm. now apply (no_bound_Satisfies _ Hmin m) in Hm.
    + intros m Hm. now apply (no_bound_Satisfies _ Hmax m) in Hm.
Qed.

Lemma X1_unconstrained_form_witness :
  filterImmobili scenarioA (getFiltersFromForm (Some form_blank)) = scenarioA.
Proof.
  apply (proj2 (X1_unconstrained_form_keeps_everything scenarioA) form_blank).
  repeat split; try reflexivity. now left.
Defined.

(** ** Filtering composes *)

Lemma filter_filter_comm {A : Type} (p r : A -> bool) (l : list A) :
  filter p (filter r l) = filter r (filter p l).
Proof.
  induction l as [| x l IH]; simpl; [reflexivity |].
  destruct (p x) eqn:Hp, (r x) eqn:Hr; simpl;
    rewrite ?Hp, ?Hr, IH; reflexivity.
Qed.

Lemma filter_idem {A : Type} (p : A -> bool) (l : list A) :
  filter p (filter p l) = filter p l.
Proof.
  apply filter_all_true. intros x Hx. now apply filter_In in Hx.
Qed.

Lemma filter_length_le {A : Type} (p : A -> bool) (l : list A) :
  (List.length (filter p l) <= List.length l)%nat.
Proof.
  induction l as [| x l IH]; simpl; [lia |].
  destruct (p x); simpl; lia.
Qed.

(** X2. Applying the same criteria to a filtered result changes nothing,
    two sets of criteria can be applied in either order, and a result is
    never longer than the snapshot it comes from. *)
Theorem X2_filter_idempotent_and_commutative :
  forall (immobili : list Immobile) (f g : Filters),
    filterImmobili (filterImmobili immobili f) f = filterImmobili immobili f /\
    filterImmobili (filterImmobili immobili f) g
    = filterImmobili (filterImmobili immobili g) f /\
    (List.length (filterImmobili immobili f) <= List.length immobili)%nat.
Proof.
  intros immobili f g. unfold filterImmobili.
  split; [apply filter_idem |].
  split; [apply filter_filter_comm | apply filter_length_le].
Qed.

(** X3. Tightening a price bound can only remove entries: every entry kept
    with a lower bound [m'] is kept with any lower bound [m <= m'], every
    entry kept with an upper bound [m] is kept with any upper bound
    [m' >= m], and every entry kept with a bound is kept without it. *)
Theorem X3_price_bounds_are_monotone :
  forall (immobili : list Immobile) (f : Filters) (m m' : Z),
    m <= m' ->
    incl (filterImmobili immobili (with_prezzoMin (Some (Fin m')) f))
         (filterImmobili immobili (with_prezzoMin (Some (Fin m)) f)) /\
    incl (filterImmobili immobili (with_prezzoMax (Some (Fin m)) f))
         (filterImmobili immobili (with_prezzoMax (Some (Fin m')) f)) /\
    incl (filterImmobili immobili f)
         (filterImmobili immobili (with_prezzoMin None f)) /\
    incl (filterImmobili immobili f)
         (filterImmobili immobili (with_prezzoMax None f)).
Proof.
  intros immobili f m m' Hle.
  assert (Hincl : forall f1 f2,
             (forall e, Satisfies f1 e -> Satisfies f2 e) ->
             incl (filterImmobili immobili f1) (filterImmobili immobili f2)).
  { intros f1 f2 Himp e He. unfold filterImmobili in *.
    apply filter_In in He. destruct He as [Hin Hcb].
    apply filter_In. split; [exact Hin |].
    apply filterImmobili_cb_Satisfies, Himp.
    now apply filterImmobili_cb_Satisfies. }
  repeat split; apply Hincl; unfold Satisfies; simpl;
    intros e (Hc & Hmin & Hmax & Hl & Ht); repeat split; auto.
  - intros k Hk. injection Hk as <-.
    specialize (Hmin m' eq_refl). lia.
  - intros k Hk. injection Hk as <-.
    specialize (Hmax m eq_refl). lia.
  - intros k Hk. discriminate.
  - intros k Hk. discriminate.
Qed.

Lemma X3_price_bounds_witness :
  incl (filterImmobili scenarioA (with_prezzoMin (Some (Fin 80000)) noFilters))
       (filterImmobili scenarioA (with_prezzoMin (Some (Fin 10)) noFilters)).
Proof.
  apply (proj1 (X3_price_bounds_are_monotone scenarioA noFilters 10 80000
                  ltac:(lia))).
Defined.

(** X4. A lower bound above the upper bound is not an error: it gives the
    empty result on every snapshot. *)
Theorem X4_crossed_bounds_give_nothing :
  forall (immobili : list Immobile) (f : Filters) (lo hi : Z),
    prezzoMin f = Some (Fin lo) -> prezzoMax f = Some (Fin hi) -> hi < lo ->
    filterImmobili immobili f = [].
Proof.
  intros immobili f lo hi Hlo Hhi Hcross.
  unfold filterImmobili.
  induction immobili as [| e rest IH]; simpl; [reflexivity |].
  destruct (filterImmobili_cb f e) eqn:Hcb; [| exact IH].
  apply filterImmobili_cb_Satisfies in Hcb.
  destruct Hcb as (_ & Hmin & Hmax & _).
  specialize (Hmin lo Hlo). specialize (Hmax hi Hhi). lia.
Qed.

Lemma X4_crossed_bounds_witness :
  filterImmobili scenarioA
    (with_prezzoMin (Some (Fin 90000)) (with_prezzoMax (Some (Fin 60000)) noFilters))
  = [].
Proof.
  apply (X4_crossed_bounds_give_nothing scenarioA _ 90000 60000);
    [reflexivity | reflexivity | lia].
Defined.

(** ** Sorting composes *)

Section SortCompose.
Context {A : Type}.
Variable comparefn : A -> A -> num.

Lemma sort_insert_first (x : A) (l : list A) :
  Forall (fun y => SortCompare comparefn x y <= 0) l ->
  sort_insert comparefn x l = x :: l.
Proof.
  intros Hall. destruct l as [| y l]; simpl; [reflexivity |].
  inversion Hall as [| ? ? Hy _]; subst.
  destruct (Z.gtb_spec (SortCompare comparefn x y) 0); [lia | reflexivity].
Qed.

(** A list already in order is left as it is. *)
Lemma Array_sort_of_sorted (l : list A) :
  StronglySorted (sort_le comparefn) l -> Array_sort comparefn l = l.
Proof.
  induction 1 as [| x l Hs IH Hx]; simpl; [reflexivity |].
  rewrite IH. now apply sort_insert_first.
Qed.

(** Consistency of the comparison function on the elements satisfying
    [P]. *)
Variable P : A -> Prop.
Hypothesis cmp_antisym :
  forall x y, P x -> P y ->
              SortCompare comparefn x y > 0 -> SortCompare comparefn y x <= 0.
Hypothesis cmp_trans :
  forall x y z, P x -> P y -> P z ->
                SortCompare comparefn x y <= 0 ->
                SortCompare comparefn y z <= 0 ->
                SortCompare comparefn x z <= 0.

Lemma Array_sort_sorted_on (l : list A) :
  Forall P l ->
  StronglySorted (fun x y => P x /\ P y /\ sort_le comparefn x y)
    (Array_sort comparefn l).
Proof.
  apply Array_sort_sorted.
  - intros x y Hx Hy Hgt. unfold sort_le. auto.
  - intros x y Hx Hy Hle. unfold sort_le. auto.
  - intros x y z (Hx & Hy & Hxy) (_ & Hz & Hyz). unfold sort_le in *.
    repeat split; auto. now apply cmp_trans with y.
Qed.

Lemma StronglySorted_weaken (R S : A -> A -> Prop) (l : list A) :
  (forall x y, R x y -> S x y) -> StronglySorted R l -> StronglySorted S l.
Proof.
  intros HRS. induction 1 as [| x l Hs IH Hx]; constructor; auto.
  eapply Forall_impl; [| exact Hx]. intros y. apply HRS.
Qed.

Lemma Array_sort_idempotent (l : list A) :
  Forall P l ->
  Array_sort comparefn (Array_sort comparefn l) = Array_sort comparefn l.
Proof.
  intros HP. apply Array_sort_of_sorted.
  eapply StronglySorted_weaken; [| apply Array_sort_sorted_on, HP].
  intros x y (_ & _ & Hle). exact Hle.
Qed.

Lemma filter_sort_insert (p : A -> bool) (x : A) (s : list A) :
  StronglySorted (fun x y => P x /\ P y /\ sort_le comparefn x y) s ->
  P x -> Forall P s -> p x = true ->
  filter p (sort_insert comparefn x s)
  = sort_insert comparefn x (filter p s).
Proof.
  intros Hs Hx HP Hpx. induction Hs as [| y s Hs IH Hy]; simpl.
  - now rewrite Hpx.
  - inversion HP as [| ? ? HPy HPs]; subst.
    destruct (SortCompare comparefn x y >? 0) eqn:Hc; simpl.
    + destruct (p y) eqn:Hpy; simpl.
      * rewrite Hc. f_equal. now apply IH.
      * now apply IH.
    + rewrite Hpx.
      assert (Hxy : SortCompare comparefn x y <= 0)
        by (destruct (Z.gtb_spec (SortCompare comparefn x y) 0);
            [discriminate | lia]).
      symmetry. apply sort_insert_first.
      assert (Hall : Forall (fun z => SortCompare comparefn x z <= 0)
                            (y :: s)).
      { constructor; [exact Hxy |].
        eapply Forall_impl; [| exact Hy].
        intros z (_ & Hz & Hyz). unfold sort_le in Hyz.
        now apply cmp_trans with y. }
      rewrite Forall_forall in Hall. apply Forall_forall.
      intros z Hz. apply Hall.
      change (In z (filter p (y :: s))) in Hz.
      now apply filter_In in Hz.
Qed.

Lemma Array_sort_filter (p : A -> bool) (l : list A) :
  Forall P l ->
  Array_sort comparefn (filter p l) = filter p (Array_sort comparefn l).
Proof.
  induction l as [| x l IH]; intros HP; simpl; [reflexivity |].
  inversion HP as [| ? ? Hx Hl]; subst.
  destruct (p x) eqn:Hpx; simpl.
  - rewrite IH by assumption. symmetry.
    apply filter_sort_insert; auto.
    + now apply Array_sort_sorted_on.
    + eapply Permutation_Forall; [apply Array_sort_perm | exact Hl].
  - rewrite IH by assumption. symmetry.
    now apply sort_insert_filter_out.
Qed.
End SortCompose.

Lemma cmp_recente_antisym `{Host} (a b : Immobile) :
  SortCompare cmp_recente a b > 0 -> SortCompare cmp_recente b a <= 0.
Proof.
  unfold SortCompare, cmp_recente, localeCompare. intros Hgt.
  apply (proj1 (sign_of_comparison_pos _)) in Hgt.
  apply (proj2 (sign_of_comparison_nonpos _)).
  rewrite String.compare_antisym, Hgt. discriminate.
Qed.

Lemma cmp_recente_trans `{Host} (a b c : Immobile) :
  SortCompare cmp_recente a b <= 0 -> SortCompare cmp_recente b c <= 0 ->
  SortCompare cmp_recente a c <= 0.
Proof.
  unfold SortCompare, cmp_recente. rewrite !localeCompare_le.
  intros Hab Hbc. eapply str_le_trans; eassumption.
Qed.

Lemma filter_Forall {A : Type} (P : A -> Prop) (p : A -> bool) (l : list A) :
  Forall P l -> Forall P (filter p l).
Proof.
  rewrite !Forall_forall. intros Hall x Hx.
  apply filter_In in Hx. now apply Hall.
Qed.

Lemma sortImmobili_filter `{Host} (immobili : list Immobile)
  (ordine : string) (p : Immobile -> bool) :
  consistent_input ordine immobili ->
  sortImmobili (filter p immobili) ordine
  = filter p (sortImmobili immobili ordine).
Proof.
  intros Hcons. rewrite !sortImmobili_mode.
  destruct (sort_mode ordine) eqn:Hm.
  - destruct Hcons as [Hr | Hall]; [congruence |].
    apply Array_sort_filter with (P := prezzo_numeric_or_missing); auto.
    + intros a b Ha Hb. rewrite !SortCompare_crescente by assumption. lia.
    + intros a b c Ha Hb Hc.
      rewrite !SortCompare_crescente by assumption. lia.
  - destruct Hcons as [Hr | Hall]; [congruence |].
    apply Array_sort_filter with (P := prezzo_numeric_or_missing); auto.
    + intros a b Ha Hb. rewrite !SortCompare_decrescente by assumption. lia.
    + intros a b c Ha Hb Hc.
      rewrite !SortCompare_decrescente by assumption. lia.
  - apply Array_sort_filter with (P := fun _ => True).
    + intros a b _ _. apply cmp_recente_antisym.
    + intros a b c _ _ _. apply cmp_recente_trans.
    + now apply Forall_forall.
Qed.

Lemma sortImmobili_idempotent `{Host} (immobili : list Immobile)
  (ordine : string) :
  consistent_input ordine immobili ->
  sortImmobili (sortImmobili immobili ordine) ordine
  = sortImmobili immobili ordine.
Proof.
  intros Hcons. rewrite !sortImmobili_mode.
  destruct (sort_mode ordine) eqn:Hm.
  - destruct Hcons as [Hr | Hall]; [congruence |].
    apply Array_sort_idempotent with (P := prezzo_numeric_or_missing); auto.
    + intros a b Ha Hb. rewrite !SortCompare_crescente by assumption. lia.
    + intros a b c Ha Hb Hc.
      rewrite !SortCompare_crescente by assumption. lia.
  - destruct Hcons as [Hr | Hall]; [congruence |].
    apply Array_sort_idempotent with (P := prezzo_numeric_or_missing); auto.
    + intros a b Ha Hb. rewrite !SortCompare_decrescente by assumption. lia.
    + intros a b c Ha Hb Hc.
      rewrite !SortCompare_decrescente by assumption. lia.
  - apply Array_sort_idempotent with (P := fun _ => True).
    + intros a b _ _. apply cmp_recente_antisym.
    + intros a b c _ _ _. apply cmp_recente_trans.
    + now apply Forall_forall.
Qed.

(** X5. Filtering and sorting can be done in either order: in the default
    mode always, and in the price modes when the prices are numbers or
    missing, sorting the filtered snapshot gives the same sequence as
    filtering the sorted snapshot. *)
Theorem X5_filter_and_sort_commute :
  forall (host : Host) (immobili : list Immobile) (f : Filters)
         (ordine : string),
    consistent_input ordine immobili ->
    sortImmobili (filterImmobili immobili f) ordine
    = filterImmobili (sortImmobili immobili ordine) f.
Proof.
  intros host immobili f ordine Hcons.
  unfold filterImmobili. now apply sortImmobili_filter.
Qed.

Lemma X5_filter_and_sort_witness :
  @sortImmobili literalHost
    (filterImmobili scenarioA3 (with_contratto "sale" noFilters))
    "prezzo-decrescente"
  = filterImmobili
      (@sortImmobili literalHost scenarioA3 "prezzo-decrescente")
      (with_contratto "sale" noFilters).
Proof.
  apply (X5_filter_and_sort_commute literalHost scenarioA3).
  right. repeat constructor.
Defined.

(** X6. Sorting twice in the same mode is sorting once, and a sequence that
    already is in the order of the mode comes back unchanged (default mode
    always; price modes with prices that are numbers or missing). *)
Theorem X6_sort_is_idempotent :
  forall (host : Host) (immobili : list Immobile) (ordine : string),
    consistent_input ordine immobili ->
    sortImmobili (sortImmobili immobili ordine) ordine
    = sortImmobili immobili ordine /\
    (StronglySorted (in_order (sort_mode ordine)) immobili ->
     sortImmobili immobili ordine = immobili).
Proof.
  intros host immobili ordine Hcons.
  split; [now apply sortImmobili_idempotent |].
  intros Hsorted. rewrite sortImmobili_mode.
  destruct (sort_mode ordine) eqn:Hm.
  - destruct Hcons as [Hr | Hall]; [congruence |].
    apply Array_sort_of_sorted.
    induction Hsorted as [| a l Hs IH Ha]; constructor.
    + apply IH. now inversion Hall.
    + inversion Hall as [| ? ? HPa HPl]; subst.
      rewrite Forall_forall in *. intros b Hb. unfold sort_le.
      rewrite SortCompare_crescente by auto.
      specialize (Ha b Hb). simpl in Ha. lia.
  - destruct Hcons as [Hr | Hall]; [congruence |].
    apply Array_sort_of_sorted.
    induction Hsorted as [| a l Hs IH Ha]; constructor.
    + apply IH. now inversion Hall.
    + inversion Hall as [| ? ? HPa HPl]; subst.
      rewrite Forall_forall in *. intros b Hb. unfold sort_le.
      rewrite SortCompare_decrescente by auto.
      specialize (Ha b Hb). simpl in Ha. lia.
  - apply Array_sort_of_sorted.
    eapply StronglySorted_weaken; [| exact Hsorted].
    intros a b Hab. exact Hab.
Qed.

Lemma X6_sort_is_idempotent_witness :
  @sortImmobili literalHost [immobile2; immobile1] "prezzo-crescente"
  = [immobile2; immobile1].
Proof.
  assert (Hcons : consistent_input "prezzo-crescente" [immobile2; immobile1])
    by (right; repeat constructor).
  apply (proj2 (X6_sort_is_idempotent literalHost [immobile2; immobile1]
                  "prezzo-crescente" Hcons)).
  change (StronglySorted (@in_order literalHost PrezzoCrescente)
            [immobile2; immobile1]).
  constructor; [constructor; constructor | constructor; [| constructor]].
  unfold in_order, normalizedPrice. simpl. lia.
Defined.

(** X7. Whatever the value of [ordine] and whatever the prices and dates,
    also those that do not convert to numbers, sorting neither loses nor
    duplicates an entry: the result is a rearrangement of the input of the
    same length, and an empty or one-entry sequence comes back as it is. *)
Theorem X7_sort_rearranges :
  forall (host : Host) (immobili : list Immobile) (ordine : string),
    Permutation immobili (sortImmobili immobili ordine) /\
    List.length (sortImmobili immobili ordine) = List.length immobili /\
    (forall e, In e (sortImmobili immobili ordine) <-> In e immobili) /\
    sortImmobili [] ordine = [] /\
    (forall e, sortImmobili [e] ordine = [e]).
Proof.
  intros host immobili ordine.
  pose proof (sortImmobili_perm immobili ordine) as Hperm.
  split; [exact Hperm |].
  split; [symmetry; now apply Permutation_length |].
  split.
  - intros e. split; intros He.
    + now apply (Permutation_in e (Permutation_sym Hperm)).
    + now apply (Permutation_in e Hperm).
  - split; [| intros e]; rewrite sortImmobili_mode;
      destruct (sort_mode ordine); reflexivity.
Qed.

(** ** Decimal texts *)

Lemma parse_digits_uint (d accd : Decimal.uint) :
  parse_digits (Some (Z.of_N (DecimalPos.Unsigned.of_lu accd)))
               (NilEmpty.string_of_uint d)
  = Some (Z.of_N (DecimalPos.Unsigned.of_lu (Decimal.revapp d accd))).
Proof.
  revert accd.
  induction d as [| d IH | d IH | d IH | d IH | d IH | d IH | d IH | d IH
                  | d IH | d IH]; intros accd;
    [reflexivity | ..];
    cbn [NilEmpty.string_of_uint parse_digits Decimal.revapp];
    (match goal with
     | |- context [digit_of ?c] =>
         let v := eval vm_compute in (digit_of c) in
         change (digit_of c) with v
     end);
    cbv iota; rewrite <- IH; f_equal; f_equal;
    cbn [DecimalPos.Unsigned.of_lu];
    rewrite ?N2Z.inj_add, ?N2Z.inj_mul; cbn [Z.of_N]; lia.
Qed.

Lemma parse_digits_None_uint (d : Decimal.uint) :
  d <> Decimal.Nil ->
  parse_digits None (NilEmpty.string_of_uint d) = Some (Z.of_N (Pos.of_uint d)).
Proof.
  intros Hd. rewrite DecimalPos.Unsigned.of_uint_alt. unfold Decimal.rev.
  destruct d as [| d | d | d | d | d | d | d | d | d | d];
    [congruence | ..];
    cbn [Decimal.revapp];
    match goal with
    | |- _ = Some (Z.of_N (DecimalPos.Unsigned.of_lu (Decimal.revapp _ ?a))) =>
        exact (parse_digits_uint d a)
    end.
Qed.

Lemma parseInt10_digit_first (c : ascii) (r : string) :
  starts_with_digit (String c r) = true ->
  parseInt10 (String c r)
  = match parse_digits None (String c r) with
    | Some n => Fin (1 * n)
    | None => NaN
    end.
Proof.
  destruct c as [[] [] [] [] [] [] [] []]; intros Hc;
    try discriminate Hc; reflexivity.
Qed.

Lemma string_of_uint_digit_first (d : Decimal.uint) :
  d <> Decimal.Nil ->
  exists c r, NilEmpty.string_of_uint d = String c r /\
              starts_with_digit (String c r) = true.
Proof.
  intros Hd.
  destruct d as [| d | d | d | d | d | d | d | d | d | d];
    [congruence | ..]; eexists; eexists; split; reflexivity.
Qed.

Lemma parseInt10_uint (d : Decimal.uint) :
  d <> Decimal.Nil ->
  parseInt10 (NilEmpty.string_of_uint d) = Fin (Z.of_N (Pos.of_uint d)).
Proof.
  intros Hd.
  destruct (string_of_uint_digit_first d Hd) as (c & r & Heq & Hc).
  pose proof (parse_digits_None_uint d Hd) as Hp.
  rewrite Heq in *. rewrite parseInt10_digit_first by assumption.
  rewrite Hp. now rewrite Z.mul_1_l.
Qed.

Lemma NilZero_string_of_uint_nonnil (d : Decimal.uint) :
  d <> Decimal.Nil ->
  NilZero.string_of_uint d = NilEmpty.string_of_uint d.
Proof. destruct d; [congruence | reflexivity ..]. Qed.

Lemma parseInt10_minus (s : string) :
  parseInt10 (String "-" s)
  = match parse_digits None s with
    | Some n => Fin (-1 * n)
    | None => NaN
    end.
Proof. reflexivity. Qed.

(** [parseInt] reads back the decimal text of every integer. *)
Lemma parseInt10_Number_toString (z : Z) :
  parseInt10 (Number_toString z) = Fin z.
Proof.
  unfold Number_toString. destruct z as [| p | p].
  - reflexivity.
  - cbn [Z.to_int NilZero.string_of_int].
    pose proof (DecimalPos.Unsigned.to_uint_nonnil p) as Hd.
    rewrite NilZero_string_of_uint_nonnil by assumption.
    rewrite parseInt10_uint by assumption.
    now rewrite DecimalPos.Unsigned.of_to.
  - cbn [Z.to_int NilZero.string_of_int].
    pose proof (DecimalPos.Unsigned.to_uint_nonnil p) as Hd.
    rewrite NilZero_string_of_uint_nonnil by assumption.
    rewrite parseInt10_minus, parse_digits_None_uint by assumption.
    now rewrite DecimalPos.Unsigned.of_to.
Qed.

Lemma Number_toString_inj (a b : Z) :
  Number_toString a = Number_toString b -> a = b.
Proof.
  intros Heq.
  pose proof (parseInt10_Number_toString a) as Ha.
  rewrite Heq, parseInt10_Number_toString in Ha. congruence.
Qed.

Lemma no_whitespace_uint (d : Decimal.uint) :
  no_whitespace (NilEmpty.string_of_uint d) = true.
Proof.
  induction d; simpl; auto.
Qed.

Lemma no_whitespace_Number_toString (z : Z) :
  no_whitespace (Number_toString z) = true.
Proof.
  unfold Number_toString.
  destruct z as [| p | p]; cbn [Z.to_int NilZero.string_of_int];
    [reflexivity | |];
    rewrite NilZero_string_of_uint_nonnil
      by apply DecimalPos.Unsigned.to_uint_nonnil.
  - apply no_whitespace_uint.
  - cbn [no_whitespace]. now rewrite no_whitespace_uint.
Qed.

Lemma Number_toString_nonempty (z : Z) : truthy_str (Number_toString z) = true.
Proof.
  unfold Number_toString.
  destruct z as [| p | p]; cbn [Z.to_int NilZero.string_of_int];
    [reflexivity | | reflexivity].
  pose proof (DecimalPos.Unsigned.to_uint_nonnil p) as Hd.
  rewrite NilZero_string_of_uint_nonnil by assumption.
  destruct (string_of_uint_digit_first _ Hd) as (c & r & -> & _). reflexivity.
Qed.

Lemma drop_trailing_no_whitespace (s : string) :
  no_whitespace s = true -> drop_trailing_whitespace s = s.
Proof.
  induction s as [| c r IH]; simpl; [reflexivity |].
  intros Hs. apply andb_true_iff in Hs. destruct Hs as [Hc Hr].
  apply negb_true_iff in Hc. rewrite Hc. simpl. now rewrite IH.
Qed.

Lemma trim_no_whitespace (s : string) :
  no_whitespace s = true -> trim s = s.
Proof.
  intros Hs. unfold trim.
  assert (Hskip : skip_whitespace s = s).
  { destruct s as [| c r]; simpl; [reflexivity |].
    simpl in Hs. apply andb_true_iff in Hs. destruct Hs as [Hc _].
    apply negb_true_iff in Hc. now rewrite Hc. }
  rewrite Hskip. now apply drop_trailing_no_whitespace.
Qed.

Lemma read_bound_Number_toString (z : Z) :
  read_bound (Some (Number_toString z)) = Some (Fin z).
Proof.
  unfold read_bound. simpl.
  rewrite trim_no_whitespace by apply no_whitespace_Number_toString.
  pose proof (Number_toString_nonempty z) as Hne.
  destruct (Number_toString z) eqn:Hs; [discriminate |].
  rewrite <- Hs. now rewrite parseInt10_Number_toString.
Qed.

(** X8. A bound typed into the form as the decimal text of a safe integer is
    read back as that integer: with the decimal texts of the safe integers
    [lo] and [hi] in the two price controls and nothing else set, the result
    holds exactly the entries of the snapshot whose normalized price lies
    between [lo] and [hi], bounds included. *)
Theorem X8_typed_bounds_select_the_price_range :
  forall (immobili : list Immobile) (lo hi : Z),
    safe_integer lo -> safe_integer hi ->
    getFiltersFromForm
      (Some (form_with_bounds (Number_toString lo) (Number_toString hi)))
    = with_prezzoMin (Some (Fin lo)) (with_prezzoMax (Some (Fin hi)) noFilters)
    /\
    (forall e,
        In e (filterImmobili immobili
                (getFiltersFromForm
                   (Some (form_with_bounds (Number_toString lo)
                                           (Number_toString hi)))))
        <-> In e immobili /\ lo <= normalizedPrice e <= hi).
Proof.
  intros immobili lo hi _ _.
  assert (Hf : getFiltersFromForm
                 (Some (form_with_bounds (Number_toString lo)
                                         (Number_toString hi)))
               = with_prezzoMin (Some (Fin lo))
                   (with_prezzoMax (Some (Fin hi)) noFilters)).
  { unfold getFiltersFromForm, form_with_bounds.
    cbn [c_contratto c_prezzo_min c_prezzo_max c_localita c_tipo_immobile
         c_ordine].
    now rewrite !read_bound_Number_toString. }
  split; [exact Hf |].
  intros e. rewrite Hf. unfold filterImmobili.
  rewrite filter_In, filterImmobili_cb_Satisfies.
  unfold Satisfies. simpl. split.
  - intros (Hin & _ & Hmin & Hmax & _).
    split; [exact Hin |]. split; [now apply Hmin | now apply Hmax].
  - intros (Hin & Hlo & Hhi). split; [exact Hin |].
    repeat split; auto.
    + intros m Hm. injection Hm as <-. exact Hlo.
    + intros m Hm. injection Hm as <-. exact Hhi.
Qed.

Lemma X8_typed_bounds_witness :
  getFiltersFromForm (Some (form_with_bounds "60000" "120000"))
  = with_prezzoMin (Some (Fin 60000))
      (with_prezzoMax (Some (Fin 120000)) noFilters).
Proof.
  refine (proj1 (X8_typed_bounds_select_the_price_range scenarioA
                   60000 120000 _ _));
    unfold safe_integer, MAX_SAFE_INTEGER; lia.
Defined.

(** ** Lookup among numeric ids *)

Lemma find_ext_in {A : Type} (p r : A -> bool) (l : list A) :
  (forall x, In x l -> p x = r x) -> find p l = find r l.
Proof.
  induction l as [| x l IH]; intros Hext; simpl; [reflexivity |].
  rewrite (Hext x) by now left.
  destruct (r x); [reflexivity |]. apply IH. intros y Hy. apply Hext. now right.
Qed.

Lemma findImmobileById_numeric (immobili : list Immobile) (z : Z) :
  Forall id_is_number immobili ->
  findImmobileById immobili (JStr (Number_toString z))
  = find (has_numeric_id z) immobili.
Proof.
  intros Hnum.
  rewrite findImmobileById_truthy by apply Number_toString_nonempty.
  apply find_ext_in. intros e He.
  rewrite Forall_forall in Hnum. destruct (Hnum e He) as [k Hk].
  unfold has_numeric_id. rewrite Hk. simpl.
  destruct (Z.eqb_spec k z) as [-> | Hne].
  - apply String.eqb_refl.
  - apply String.eqb_neq. intros Heq. now apply Number_toString_inj in Heq.
Qed.

Lemma id_is_safe_number_number (immobili : list Immobile) :
  Forall id_is_safe_number immobili -> Forall id_is_number immobili.
Proof.
  apply Forall_impl. intros e (k & Hk & _). now exists k.
Qed.

(** X9. In a snapshot whose ids are safe integers, the request text that is
    the decimal form of the safe integer [z] resolves to the first entry
    whose id is exactly [z], never to an entry with another id, and to
    not-found exactly when no entry has the id [z]: distinct ids never share
    a string form. *)
Theorem X9_numeric_ids_resolve_exactly :
  forall (immobili : list Immobile) (z : Z),
    Forall id_is_safe_number immobili ->
    safe_integer z ->
    findImmobileById immobili (JStr (Number_toString z))
    = find (has_numeric_id z) immobili /\
    (forall e, findImmobileById immobili (JStr (Number_toString z)) = Some e ->
               In e immobili /\ id e = JNum z) /\
    (findImmobileById immobili (JStr (Number_toString z)) = None
     <-> forall e, In e immobili -> id e <> JNum z).
Proof.
  intros immobili z Hsafe _.
  pose proof (id_is_safe_number_number immobili Hsafe) as Hnum.
  rewrite (findImmobileById_numeric immobili z Hnum).
  split; [reflexivity |]. split.
  - intros e He. apply find_some in He. destruct He as [Hin Hid].
    split; [exact Hin |]. unfold has_numeric_id in Hid.
    destruct (id e); try discriminate. apply Z.eqb_eq in Hid. now subst.
  - split.
    + intros Hnone e Hin Hid.
      pose proof (find_none _ _ Hnone e Hin) as Hf.
      unfold has_numeric_id in Hf. rewrite Hid, Z.eqb_refl in Hf. discriminate.
    + intros Hno. destruct (find (has_numeric_id z) immobili) as [e |] eqn:Hf;
        [| reflexivity].
      apply find_some in Hf. destruct Hf as [Hin Hid].
      unfold has_numeric_id in Hid.
      destruct (id e) eqn:Hide; try discriminate.
      apply Z.eqb_eq in Hid. subst. now apply Hno in Hin.
Qed.

Lemma X9_numeric_ids_witness :
  findImmobileById scenarioA3 (JStr (Number_toString 3))
  = find (has_numeric_id 3) scenarioA3.
Proof.
  assert (Hids : Forall id_is_safe_number scenarioA3)
    by (repeat constructor; eexists; (split; [reflexivity |]);
        unfold safe_integer, MAX_SAFE_INTEGER; lia).
  assert (Hz : safe_integer 3)
    by (unfold safe_integer, MAX_SAFE_INTEGER; lia).
  apply (proj1 (X9_numeric_ids_resolve_exactly scenarioA3 3 Hids Hz)).
Defined.

(** ** Listing page *)

Lemma option_map_const {A B C : Type} (b : B) (c : C) (o : option A) :
  option_map (fun _ => c) (option_map (fun _ => b) o)
  = option_map (fun _ => c) o.
Proof. now destruct o. Qed.


(** X11. On a page with the grid and the fallback block, after [renderGrid]
    exactly one of the two is displayed, the grid when the sequence is not
    empty and the fallback when it is; the grid holds one card per entry, and
    the text of the result count is the message for the number of cards in
    the grid. *)
Theorem X11_render_shows_grid_or_fallback :
  forall (host : Host) (filtered : list Immobile) (d : ListingDocument)
         (g : GridEl) (fb : string),
    listing_grid d = Some g -> listing_fallback d = Some fb ->
    exists g' fb',
      listing_grid (renderGrid filtered d) = Some g' /\
      listing_fallback (renderGrid filtered d) = Some fb' /\
      one_visible (grid_display g') fb' /\
      (grid_display g' = "" <-> filtered <> []) /\
      grid_cards g' = map buildCardHtml_listing filtered /\
      List.length (grid_cards g') = List.length filtered /\
      listing_resultCount (renderGrid filtered d)
      = option_map (fun _ => result_message (List.length (grid_cards g')))
                   (listing_resultCount d).
Proof.
  intros host filtered d g fb Hg Hfb.
  unfold renderGrid. rewrite Hg.
  destruct filtered as [| e rest]; simpl; rewrite Hfb; simpl.
  - eexists; eexists. split; [reflexivity |]. split; [reflexivity |].
    split; [right; split; reflexivity |].
    split; [split; [discriminate | congruence] |].
    repeat split.
  - eexists; eexists. split; [reflexivity |]. split; [reflexivity |].
    split; [left; split; reflexivity |].
    split; [split; [discriminate | reflexivity] |].
    split; [reflexivity |]. simpl. rewrite length_map.
    split; reflexivity.
Qed.

Lemma X11_render_witness :
  exists g' fb',
    listing_grid (@renderGrid literalHost scenarioA listingPage) = Some g' /\
    listing_fallback (@renderGrid literalHost scenarioA listingPage)
    = Some fb' /\
    one_visible (grid_display g') fb'.
Proof.
  destruct (X11_render_shows_grid_or_fallback literalHost scenarioA
              listingPage {| grid_display := ""; grid_cards := [] |} "none"
              eq_refl eq_refl) as (g' & fb' & H1 & H2 & H3 & _).
  now exists g', fb'.
Defined.

Lemma parse_digits_uint_app (d accd : Decimal.uint) (t : string) :
  parse_digits (Some (Z.of_N (DecimalPos.Unsigned.of_lu accd)))
               (NilEmpty.string_of_uint d ++ t)
  = parse_digits
      (Some (Z.of_N (DecimalPos.Unsigned.of_lu (Decimal.revapp d accd)))) t.
Proof.
  revert accd.
  induction d as [| d IH | d IH | d IH | d IH | d IH | d IH | d IH | d IH
                  | d IH | d IH]; intros accd;
    [reflexivity | ..];
    cbn [NilEmpty.string_of_uint parse_digits Decimal.revapp append];
    (match goal with
     | |- context [digit_of ?c] =>
         let v := eval vm_compute in (digit_of c) in
         change (digit_of c) with v
     end);
    cbv iota; rewrite <- IH; f_equal; f_equal;
    cbn [DecimalPos.Unsigned.of_lu];
    rewrite ?N2Z.inj_add, ?N2Z.inj_mul; cbn [Z.of_N]; lia.
Qed.

Lemma parseInt10_count_text (p : positive) (t : string) :
  starts_with_digit t = false ->
  parseInt10 (Number_toString (Z.pos p) ++ t) = Fin (Z.pos p).
Proof.
  intros Ht. unfold Number_toString.
  cbn [Z.to_int NilZero.string_of_int].
  pose proof (DecimalPos.Unsigned.to_uint_nonnil p) as Hd.
  rewrite NilZero_string_of_uint_nonnil by assumption.
  assert (Hparse : parse_digits None
                     (NilEmpty.string_of_uint (Pos.to_uint p) ++ t)
                   = Some (Z.pos p)).
  { assert (Hstop : forall v, parse_digits (Some v) t = Some v).
    { intros v. destruct t as [| c r]; [reflexivity |].
      simpl in Ht. simpl. now destruct (digit_of c). }
    change (Z.pos p) with (Z.of_N (N.pos p)).
    rewrite <- (DecimalPos.Unsigned.of_to p).
    rewrite DecimalPos.Unsigned.of_uint_alt. unfold Decimal.rev.
    destruct (Pos.to_uint p) as [| d | d | d | d | d | d | d | d | d | d];
      [congruence | ..];
      cbn [Decimal.revapp NilEmpty.string_of_uint append];
      match goal with
      | |- _ = Some (Z.of_N (DecimalPos.Unsigned.of_lu
                               (Decimal.revapp _ ?a))) =>
          rewrite <- (Hstop (Z.of_N (DecimalPos.Unsigned.of_lu
                                       (Decimal.revapp d a))));
          exact (parse_digits_uint_app d a t)
      end. }
  destruct (string_of_uint_digit_first _ Hd) as (c & r & Heq & Hc).
  rewrite Heq in *. cbn [append] in *.
  rewrite parseInt10_digit_first by exact Hc.
  rewrite Hparse. now rewrite Z.mul_1_l.
Qed.

(** X12. For a result that is not empty the announced text starts with the
    number of entries: read with [parseInt] it gives exactly that number,
    also for the singular wording; for an empty result the text holds no
    number. *)
Theorem X12_announced_number_is_the_count :
  forall count : nat,
    parseInt10 (result_message count)
    = if (count =? 0)%nat then NaN else Fin (Z.of_nat count).
Proof.
  intros count. unfold result_message.
  destruct count as [| [| n]]; [reflexivity | reflexivity |].
  cbn [Nat.eqb].
  replace (Z.of_nat (S (S n))) with (Z.pos (Pos.of_succ_nat (S n)))
    by (rewrite Zpos_P_of_succ_nat; lia).
  now apply parseInt10_count_text.
Qed.

(** X13. [applyFiltersAndRender] shows the entries of the snapshot that
    satisfy the criteria read from the form, each once: the grid holds one
    card per matching entry, the cards being those of the matching entries
    in some arrangement, and the count announced is their number.  When the
    comparison function of the chosen mode is consistent on the matching
    entries (default mode, or prices that are numbers or missing) the cards
    are in the order of the sorted sequence. *)
Theorem X13_listing_shows_the_matching_entries :
  forall (host : Host) (form : option FormControls)
         (allImmobili : list Immobile) (d : ListingDocument) (g : GridEl),
    listing_grid d = Some g ->
    let filters := getFiltersFromForm form in
    let matching := filterImmobili allImmobili filters in
    (exists cards,
        option_map grid_cards
          (listing_grid (applyFiltersAndRender form allImmobili d))
        = Some cards /\
        Permutation (map buildCardHtml_listing matching) cards /\
        List.length cards = List.length matching) /\
    (forall e, In e matching <-> In e allImmobili /\ Satisfies filters e) /\
    (consistent_input (ordine filters) matching ->
     option_map grid_cards
       (listing_grid (applyFiltersAndRender form allImmobili d))
     = Some (map buildCardHtml_listing
               (sortImmobili matching (ordine filters)))) /\
    listing_resultCount (applyFiltersAndRender form allImmobili d)
    = option_map (fun _ => result_message (List.length matching))
                 (listing_resultCount d).
Proof.
  intros host form allImmobili d g Hg filters matching.
  pose proof (sortImmobili_perm matching (ordine filters)) as Hperm.
  set (shown := sortImmobili matching (ordine filters)) in *.
  assert (Hlen : List.length shown = List.length matching)
    by (symmetry; now apply Permutation_length).
  assert (Hcards : option_map grid_cards
                     (listing_grid (applyFiltersAndRender form allImmobili d))
                   = Some (map buildCardHtml_listing shown)).
  { unfold applyFiltersAndRender. fold filters. fold matching. fold shown.
    unfold renderGrid. rewrite Hg. destruct shown; reflexivity. }
  split; [| split; [| split]].
  - exists (map buildCardHtml_listing shown).
    split; [exact Hcards |]. split.
    + now apply Permutation_map.
    + now rewrite length_map.
  - intros e. unfold matching, filterImmobili.
    now rewrite filter_In, filterImmobili_cb_Satisfies.
  - intros _. exact Hcards.
  - unfold applyFiltersAndRender. fold filters. fold matching. fold shown.
    unfold renderGrid. rewrite Hg. rewrite <- Hlen.
    destruct shown; reflexivity.
Qed.

Lemma X13_listing_witness :
  option_map grid_cards
    (listing_grid (@applyFiltersAndRender literalHost None scenarioA
                     listingPage))
  = Some (map (@buildCardHtml_listing literalHost)
            (@sortImmobili literalHost
               (filterImmobili scenarioA (getFiltersFromForm None))
               (ordine (getFiltersFromForm None)))).
Proof.
  apply (proj1 (proj2 (proj2 (X13_listing_shows_the_matching_entries
                                literalHost None scenarioA listingPage
                                {| grid_display := ""; grid_cards := [] |}
                                eq_refl)))).
  left. reflexivity.
Defined.

(** ** Start of the listing page *)

Lemma renderGrid_empty_twice `{Host} (d : ListingDocument) :
  renderGrid [] (renderGrid [] d) = renderGrid [] d.
Proof.
  unfold renderGrid at 2 3. destruct (listing_grid d) as [g |] eqn:Hg.
  - unfold renderGrid, updateResultCount. simpl.
    now rewrite !option_map_const.
  - unfold renderGrid. now rewrite Hg.
Qed.

Lemma applyFiltersAndRender_nothing `{Host} (form : option FormControls)
  (d : ListingDocument) :
  applyFiltersAndRender form [] d = renderGrid [] d.
Proof.
  unfold applyFiltersAndRender, filterImmobili. simpl.
  rewrite sortImmobili_mode. now destruct (sort_mode _).
Qed.

Lemma renderGrid_no_grid `{Host} (l : list Immobile) (d : ListingDocument) :
  listing_grid d = None -> renderGrid l d = d.
Proof. intros Hg. unfold renderGrid. now rewrite Hg. Qed.

(** What [init] leaves behind after a load that gave no entry. *)
Lemma init_listing_nothing `{Host} (form : option FormControls)
  (fetch : FetchOutcome) (p : ListingPage) :
  fetchImmobili fetch = Fulfilled [] ->
  (form <> None \/ listing_grid (page_elements p) <> None) ->
  init_listing form fetch p
  = {| page_allImmobili := [];
       page_elements := renderGrid [] (page_elements p);
       select_localita :=
         option_map (fun _ => select_html ("Tutte le localit" ++ agrave) [])
                    (select_localita p);
       select_tipo :=
         option_map (fun _ => select_html "Tutte le tipologie" [])
                    (select_tipo p);
       form_listeners :=
         match form with
         | Some _ => (form_listeners p ++ [OnChange; OnInput])%list
         | None => form_listeners p
         end |}.
Proof.
  intros Hf Hpage. unfold init_listing. rewrite Hf.
  unfold applyFiltersAndRender_page, populateFilterOptions_page, with_elements.
  cbn [populateFilterOptions facet_citta facet_tipi collect_unique fold_left
       Array_sort fold_right page_allImmobili page_elements select_localita
       select_tipo form_listeners].
  rewrite applyFiltersAndRender_nothing.
  destruct form as [f |]; [reflexivity |].
  destruct (listing_grid (page_elements p)) eqn:Hg; [reflexivity |].
  destruct Hpage as [Hform | Hgrid]; congruence.
Qed.

Lemma form_event_nothing `{Host} (ev : FormEvent) (form : FormControls)
  (listeners : list FormListener) (p : ListingPage) :
  page_allImmobili p = [] ->
  page_elements p = renderGrid [] (page_elements p) ->
  fold_left
    (fun p l => if listener_renders l ev
                then applyFiltersAndRender_page (Some form) p else p)
    listeners p = p.
Proof.
  intros Hall Hel.
  assert (Hsame : applyFiltersAndRender_page (Some form) p = p).
  { unfold applyFiltersAndRender_page, with_elements.
    rewrite Hall, applyFiltersAndRender_nothing, <- Hel.
    destruct p; simpl in *; now subst. }
  induction listeners as [| l listeners IH]; simpl; [reflexivity |].
  destruct (listener_renders l ev); [rewrite Hsame |]; exact IH.
Qed.

(** X14. On the listing page a failed load is shown exactly as an empty
    snapshot: the grid is hidden and emptied, the fallback block is
    displayed, the count says that nothing was found, each select holds its
    first option only, and no later event on the form brings anything back.
    Whatever is loaded, a page without the grid keeps its fallback block and
    its count as they are, and a page with neither the form nor the grid is
    left untouched. *)
Theorem X14_failed_load_shows_the_empty_state :
  forall (host : Host) (form : option FormControls) (fetch : FetchOutcome)
         (p : ListingPage),
    (load_failed fetch ->
     init_listing form fetch p = init_listing form fetchEmpty p /\
     (forall g, listing_grid (page_elements p) = Some g ->
        listing_grid (page_elements (init_listing form fetch p))
        = Some {| grid_display := "none"; grid_cards := [] |} /\
        listing_fallback (page_elements (init_listing form fetch p))
        = option_map (fun _ => "block") (listing_fallback (page_elements p)) /\
        listing_resultCount (page_elements (init_listing form fetch p))
        = option_map
            (fun _ => "Nessun immobile trovato. Prova a modificare i filtri.")
            (listing_resultCount (page_elements p)) /\
        select_localita (init_listing form fetch p)
        = option_map
            (fun _ => select_html ("Tutte le localit" ++ agrave) [])
            (select_localita p) /\
        select_tipo (init_listing form fetch p)
        = option_map (fun _ => select_html "Tutte le tipologie" [])
                     (select_tipo p) /\
        forall ev form',
          form_event ev form' (init_listing form fetch p)
          = init_listing form fetch p)) /\
    (listing_grid (page_elements p) = None ->
     page_elements (init_listing form fetch p) = page_elements p) /\
    (form = None -> listing_grid (page_elements p) = None ->
     init_listing form fetch p = p).
Proof.
  intros host form fetch p. split; [| split].
  - intros Hfail.
    pose proof (fetchImmobili_failed fetch Hfail) as Hf.
    split.
    + destruct form as [f |] eqn:Hform.
      * rewrite (init_listing_nothing (Some f) fetch p Hf)
          by (left; discriminate).
        now rewrite (init_listing_nothing (Some f) fetchEmpty p eq_refl)
          by (left; discriminate).
      * destruct (listing_grid (page_elements p)) as [g |] eqn:Hg.
        -- rewrite (init_listing_nothing None fetch p Hf)
             by (right; congruence).
           now rewrite (init_listing_nothing None fetchEmpty p eq_refl)
             by (right; congruence).
        -- unfold init_listing. now rewrite Hg.
    + intros g Hg.
      rewrite (init_listing_nothing form fetch p Hf) by (right; congruence).
      cbn [page_elements select_localita select_tipo].
      unfold renderGrid at 1 2 3. rewrite Hg. simpl.
      repeat (split; [reflexivity |]).
      intros ev form'. unfold form_event.
      apply form_event_nothing; [reflexivity |].
      cbn [page_elements]. symmetry. apply renderGrid_empty_twice.
  - intros Hg. unfold init_listing. rewrite Hg.
    destruct form as [f |]; [| reflexivity].
    destruct (fetchImmobili fetch) as [data | err].
    + unfold applyFiltersAndRender_page, populateFilterOptions_page,
        with_elements, applyFiltersAndRender.
      destruct (populateFilterOptions data) as [citta tipi].
      cbn [page_elements page_allImmobili].
      now apply renderGrid_no_grid.
    + unfold with_elements. cbn [page_elements].
      now apply renderGrid_no_grid.
  - intros -> Hg. unfold init_listing. now rewrite Hg.
Qed.

Lemma X14_failed_load_witness :
  @init_listing literalHost None (Rejected "Failed to fetch") listingPage0
  = @init_listing literalHost None fetchEmpty listingPage0 /\
  page_elements (@init_listing literalHost (Some form_blank) fetchA
                   listingPage_senza_griglia)
  = page_elements listingPage_senza_griglia /\
  @init_listing literalHost None fetchA listingPage_senza_griglia
  = listingPage_senza_griglia.
Proof.
  split; [| split].
  - apply (proj1 (proj1 (X14_failed_load_shows_the_empty_state literalHost
                           None (Rejected "Failed to fetch") listingPage0)
                        I)).
  - apply (proj1 (proj2 (X14_failed_load_shows_the_empty_state literalHost
                           (Some form_blank) fetchA
                           listingPage_senza_griglia))).
    reflexivity.
  - apply (proj2 (proj2 (X14_failed_load_shows_the_empty_state literalHost
                           None fetchA listingPage_senza_griglia)));
      reflexivity.
Defined.

(** ** Home and detail pages: which block is displayed *)

(** X15. On a home page with the grid and the fallback block, after
    [initHomeImmobili] exactly one of them is displayed: the fallback
    exactly when the load gives no entry, which is the case after every
    failed load; the cards the grid held are then left in the hidden grid.
    A page without the grid is left untouched. *)
Theorem X15_home_shows_grid_or_fallback :
  forall (host : Host) (fetch : FetchOutcome) (d : HomeDocument),
    (home_grid d = None -> initHomeImmobili fetch d = d) /\
    (forall g fb,
        home_grid d = Some g -> home_fallback d = Some fb ->
        exists g' fb',
          home_grid (initHomeImmobili fetch d) = Some g' /\
          home_fallback (initHomeImmobili fetch d) = Some fb' /\
          one_visible (grid_display g') fb' /\
          (grid_display g' = "none"
           <-> fetchImmobili fetch = Fulfilled []) /\
          (load_failed fetch ->
           grid_display g' = "none" /\ grid_cards g' = grid_cards g)).
Proof.
  intros host fetch d. split.
  - intros Hg. unfold initHomeImmobili. now rewrite Hg.
  - intros g fb Hg Hfb. unfold initHomeImmobili. rewrite Hg.
    destruct (fetchImmobili fetch) as [immobili | reason] eqn:Hf.
    + destruct immobili as [| e rest].
      * unfold renderHome, showFallback. simpl. rewrite Hg, Hfb. simpl.
        eexists; eexists. split; [reflexivity |]. split; [reflexivity |].
        split; [right; split; reflexivity |].
        split; [split; reflexivity |]. intros _. split; reflexivity.
      * unfold renderHome, hideFallback. simpl. rewrite Hg, Hfb. simpl.
        eexists; eexists. split; [reflexivity |]. split; [reflexivity |].
        split; [left; split; reflexivity |].
        split; [split; discriminate |].
        intros Hfail. apply fetchImmobili_failed in Hfail. congruence.
    + unfold fetchImmobili in Hf.
      destruct (then_ _ _) in Hf; discriminate.
Qed.

Lemma X15_home_witness :
  exists g' fb',
    home_grid (@initHomeImmobili literalHost (Rejected "Failed to fetch")
                 homePage) = Some g' /\
    home_fallback (@initHomeImmobili literalHost (Rejected "Failed to fetch")
                     homePage) = Some fb' /\
    grid_display g' = "none".
Proof.
  destruct (proj2 (X15_home_shows_grid_or_fallback literalHost
                     (Rejected "Failed to fetch") homePage)
                  {| grid_display := ""; grid_cards := [] |} "none"
                  eq_refl eq_refl)
    as (g' & fb' & H1 & H2 & _ & _ & H5).
  exists g', fb'. split; [exact H1 |]. split; [exact H2 |].
  now apply H5.
Defined.

(** X16. On a detail page with both blocks, after [initImmobileDetail]
    exactly one of them is displayed: the detail block, filled with the
    resolved entry and its gallery, when the request resolves, the
    not-found block otherwise, the detail block then keeping what it held.
    A page without the detail block is left untouched even when the
    request would resolve. *)
Theorem X16_detail_shows_entry_or_not_found :
  forall (host : Host) (params_get : option string) (fetch : FetchOutcome)
         (loc : Location) (d : Document),
    (immobile_detail d = None ->
     initImmobileDetail params_get fetch loc d = d) /\
    (forall wrap fb,
        immobile_detail d = Some wrap -> immobile_not_found d = Some fb ->
        exists wrap' fb',
          immobile_detail (initImmobileDetail params_get fetch loc d)
          = Some wrap' /\
          immobile_not_found (initImmobileDetail params_get fetch loc d)
          = Some fb' /\
          one_visible (detail_display wrap') fb' /\
          match resolved_entry params_get fetch with
          | Some e =>
              detail_display wrap' = "" /\
              detail_entry wrap' = Some e /\
              detail_gallery wrap'
              = option_map (fun _ => Some (renderGallery e))
                           (detail_gallery wrap)
          | None =>
              detail_display wrap' = "none" /\
              detail_entry wrap' = detail_entry wrap /\
              detail_gallery wrap' = detail_gallery wrap
          end).
Proof.
  intros host params_get fetch loc d. split.
  - intros Hd. unfold initImmobileDetail. now rewrite Hd.
  - intros wrap fb Hw Hfb.
    destruct (resolved_entry params_get fetch) as [e |] eqn:Hr.
    + rewrite (initImmobileDetail_found params_get fetch loc d e Hr)
        by congruence.
      unfold renderImmobileDetail. simpl. rewrite Hw. simpl. rewrite Hfb.
      eexists; eexists. split; [reflexivity |]. split; [reflexivity |].
      split; [left; split; reflexivity |]. repeat split.
    + assert (Hinit : initImmobileDetail params_get fetch loc d
                      = showImmobileFallback d).
      { unfold resolved_entry in Hr. unfold initImmobileDetail. rewrite Hw.
        destruct (getQueryParam params_get); [| reflexivity].
        destruct (fetchImmobili fetch); [| reflexivity].
        now rewrite Hr. }
      rewrite Hinit. unfold showImmobileFallback. simpl. rewrite Hw, Hfb.
      eexists; eexists. split; [reflexivity |]. split; [reflexivity |].
      split; [right; split; reflexivity |]. repeat split.
Qed.

Lemma X16_detail_witness :
  exists wrap' fb',
    immobile_detail (@initImmobileDetail literalHost (Some "2") fetchA
                       location0 detailPage) = Some wrap' /\
    immobile_not_found (@initImmobileDetail literalHost (Some "2") fetchA
                          location0 detailPage) = Some fb' /\
    one_visible (detail_display wrap') fb'.
Proof.
  destruct (proj2 (X16_detail_shows_entry_or_not_found literalHost (Some "2")
                     fetchA location0 detailPage)
                  {| detail_display := "none"; detail_entry := None;
                     detail_gallery := Some None |} "none" eq_refl eq_refl)
    as (wrap' & fb' & H1 & H2 & H3 & _).
  now exists wrap', fb'.
Defined.

(** ** Title and description *)





(** ** The address of the agency block *)

Lemma contains_slash_app_false (s t : string) :
  contains_slash (s ++ t) = contains_slash s || contains_slash t.
Proof.
  induction s as [| c r IH]; simpl; [reflexivity |].
  now rewrite IH, orb_assoc.
Qed.

Lemma replace_last_segment_no_slash (s : string) :
  contains_slash s = false -> replace_last_segment s = s.
Proof.
  destruct s as [| c r]; simpl; [reflexivity |].
  intros Hs. apply orb_false_iff in Hs. destruct Hs as [Hc Hr].
  now rewrite Hr, Hc.
Qed.

Lemma replace_last_segment_split (s : string) :
  contains_slash s = true ->
  exists tail,
    s = replace_last_segment s ++ tail /\
    contains_slash tail = false /\
    ends_with_slash (replace_last_segment s) = true.
Proof.
  induction s as [| c r IH]; [discriminate |].
  intros Hs. cbn [replace_last_segment contains_slash] in *.
  destruct (contains_slash r) eqn:Hr.
  - destruct (IH eq_refl) as (tail & Heq & Htail & Hend).
    exists tail. split; [cbn [append]; f_equal; exact Heq |].
    split; [exact Htail |].
    cbn [ends_with_slash].
    destruct (replace_last_segment r) eqn:Hrep; [discriminate |].
    exact Hend.
  - rewrite orb_false_r in Hs. rewrite Hs.
    exists r. split; [| split; [exact Hr | reflexivity]].
    apply Ascii.eqb_eq in Hs. now subst c.
Qed.

Lemma ends_with_slash_app (s t : string) :
  truthy_str t = true -> ends_with_slash (s ++ t) = ends_with_slash t.
Proof.
  intros Ht. induction s as [| c r IH]; simpl; [reflexivity |].
  destruct (r ++ t) eqn:Hrt; [| exact IH].
  destruct r; simpl in Hrt; [subst t |]; discriminate.
Qed.

Lemma ends_with_slash_truthy (s : string) :
  ends_with_slash s = true -> truthy_str s = true.
Proof. destruct s; [discriminate | reflexivity]. Qed.

Lemma prefix_app (p s t : string) :
  prefix p s = true -> prefix p (s ++ t) = true.
Proof.
  revert p. induction s as [| b s IH]; intros p Hp.
  - destruct p; [now destruct t | discriminate].
  - destruct p as [| a p]; [reflexivity |].
    simpl in *. destruct (ascii_dec a b); [now apply IH | discriminate].
Qed.

(** X18. The path used for the agency block is the path of the page cut
    after its last slash: the part removed holds no slash, the part kept
    ends with a slash, a path without any slash is kept whole, and cutting
    twice is cutting once. *)
Theorem X18_path_is_cut_after_last_slash :
  forall s : string,
    (contains_slash s = true ->
     exists tail,
       s = replace_last_segment s ++ tail /\
       contains_slash tail = false /\
       ends_with_slash (replace_last_segment s) = true) /\
    (contains_slash s = false -> replace_last_segment s = s) /\
    replace_last_segment (replace_last_segment s) = replace_last_segment s.
Proof.
  intros s.
  split; [apply replace_last_segment_split |].
  split; [apply replace_last_segment_no_slash |].
  destruct (contains_slash s) eqn:Hs.
  - destruct (replace_last_segment_split s Hs) as (tail & Heq & Htail & Hend).
    assert (Hdir : forall t, ends_with_slash t = true ->
                             replace_last_segment t = t).
    { induction t as [| c r IHt]; simpl; [reflexivity |].
      destruct r as [| c' r'].
      - intros Hc. simpl. now rewrite Hc, (proj1 (Ascii.eqb_eq _ _) Hc).
      - intros Hend'. specialize (IHt Hend').
        destruct (contains_slash (String c' r')) eqn:Hcs.
        + now rewrite IHt.
        + rewrite replace_last_segment_no_slash in IHt by assumption.
          clear IHt.
          assert (Hfalse : forall u, contains_slash u = false ->
                                     ends_with_slash u = false).
          { induction u as [| a u IHu]; simpl; [reflexivity |].
            intros Hu. apply orb_false_iff in Hu. destruct Hu as [Ha Hu'].
            destruct u; [exact Ha | now apply IHu]. }
          rewrite (Hfalse _ Hcs) in Hend'. discriminate. }
    now apply Hdir.
  - now rewrite !(replace_last_segment_no_slash s Hs).
Qed.

Lemma X18_path_witness :
  exists tail,
    "/sito/immobile.html" = replace_last_segment "/sito/immobile.html" ++ tail /\
    contains_slash tail = false /\
    ends_with_slash (replace_last_segment "/sito/immobile.html") = true.
Proof.
  apply (proj1 (X18_path_is_cut_after_last_slash "/sito/immobile.html")).
  reflexivity.
Defined.

(** X19. The base address of the agency block always starts with "http"
    (the fixed address https://example.com/ replaces any other), and it ends
    with a slash whenever the path of the page is empty or holds a slash, as
    the path of a page always does; the [@id] and [url] of the block are
    this base followed by "#agency" and "index.html". *)
Theorem X19_agency_base_is_an_http_directory :
  forall loc : Location,
    prefix "http" (agent_base loc) = true /\
    (pathname loc = "" \/ contains_slash (pathname loc) = true ->
     ends_with_slash (agent_base loc) = true) /\
    (prefix "http" (origin loc) = true ->
     contains_slash (pathname loc) = true ->
     agent_base loc = origin loc ++ replace_last_segment (pathname loc)) /\
    exists rest,
      script_text (agent_script loc)
      = JsonObject
          (("@context", JsonString "https://schema.org")
           :: ("@type", JsonString "RealEstateAgent")
           :: ("@id", JsonString (agent_base loc ++ "#agency")) :: rest) /\
      In ("url", JsonString (agent_base loc ++ "index.html")) rest.
Proof.
  intros loc. split; [| split; [| split]].
  - unfold agent_base.
    destruct (prefix "http" (origin loc ++ _)) eqn:Hp; simpl;
      [exact Hp | reflexivity].
  - intros Hpath. unfold agent_base.
    destruct (negb (prefix "http" _)); [reflexivity |].
    assert (Hdir : ends_with_slash
                     (replace_last_segment
                        (if truthy_str (pathname loc)
                         then pathname loc else "/")) = true).
    { destruct Hpath as [-> | Hs]; [reflexivity |].
      destruct (pathname loc) as [| c r] eqn:Hp; [discriminate |].
      cbn [truthy_str].
      now destruct (replace_last_segment_split _ Hs) as (_ & _ & _ & Hend). }
    rewrite ends_with_slash_app; [exact Hdir |].
    now apply ends_with_slash_truthy.
  - intros Ho Hs. unfold agent_base.
    destruct (pathname loc) as [| c r] eqn:Hp; [discriminate |].
    cbn [truthy_str].
    assert (Hpre : prefix "http"
                     (origin loc ++ replace_last_segment (String c r)) = true).
    { now apply prefix_app. }
    now rewrite Hpre.
  - eexists. split; [reflexivity |]. simpl. auto.
Qed.

Lemma X19_agency_base_witness :
  agent_base location0 = "https://example.org/sito/".
Proof.
  rewrite (proj1 (proj2 (proj2 (X19_agency_base_is_an_http_directory
                                  location0))));
    reflexivity.
Defined.

(** ** Images *)

(** X20. [getPrimaImmagine] never gives an empty source: it is the source
    of the first image when the entry has one with a non-empty source, and
    the placeholder otherwise (no list, empty list, or first image without
    source); with the placeholder the alternative text is never empty: the
    title of the entry, or "Immobile" when the title is missing or empty. *)
Theorem X20_first_image_or_placeholder :
  forall e : Immobile,
    truthy_text (src (getPrimaImmagine e)) = true /\
    (has_first_image e = false ->
     src (getPrimaImmagine e) = Some placeholder_src /\
     truthy_text (alt (getPrimaImmagine e)) = true /\
     (truthy_text (titolo e) = true -> alt (getPrimaImmagine e) = titolo e) /\
     (truthy_text (titolo e) = false ->
      alt (getPrimaImmagine e) = Some "Immobile")) /\
    (has_first_image e = true ->
     exists first rest,
       immagini e = Some (first :: rest) /\
       src (getPrimaImmagine e) = src first /\
       (truthy_text (alt first) = true ->
        alt (getPrimaImmagine e) = alt first) /\
       (truthy_text (alt first) = false ->
        alt (getPrimaImmagine e) = titolo e)).
Proof.
  intros e. unfold getPrimaImmagine, has_first_image.
  assert (Hplace : forall t : option string,
             truthy_text (Some (if truthy_text t then text_or_empty t
                                else "Immobile")) = true /\
             (truthy_text t = true ->
              Some (if truthy_text t then text_or_empty t else "Immobile")
              = t) /\
             (truthy_text t = false ->
              Some (if truthy_text t then text_or_empty t else "Immobile")
              = Some "Immobile")).
  { intros [t |]; simpl.
    - destruct t; simpl; repeat split; congruence.
    - repeat split; congruence. }
  destruct (Hplace (titolo e)) as (Hp1 & Hp2 & Hp3).
  destruct (immagini e) as [[| first rest] |]; simpl.
  - split; [reflexivity |]. split; [| discriminate]. intros _. repeat split; auto.
  - destruct (truthy_text (src first)) eqn:Hs; simpl.
    + split; [exact Hs |]. split; [discriminate |]. intros _.
      exists first, rest. split; [reflexivity |]. split; [reflexivity |].
      split; intros Ha; now rewrite Ha.
    + split; [reflexivity |]. split; [| discriminate].
      intros _. repeat split; auto.
  - split; [reflexivity |]. split; [| discriminate]. intros _. repeat split; auto.
Qed.

Lemma X20_first_image_witness :
  src (getPrimaImmagine immobile1) = Some placeholder_src.
Proof.
  apply (proj1 (proj2 (X20_first_image_or_placeholder immobile1))).
  reflexivity.
Defined.

Lemma thumb_click_thumbs (idx : nat) (g : Gallery) :
  gallery_thumbs (thumb_click idx g) = gallery_thumbs g.
Proof.
  unfold thumb_click. now destruct (nth_error (gallery_thumbs g) idx).
Qed.

Lemma thumb_clicks_thumbs (clicks : list nat) (g : Gallery) :
  gallery_thumbs (thumb_clicks clicks g) = gallery_thumbs g.
Proof.
  revert g. induction clicks as [| idx clicks IH]; intros g; [reflexivity |].
  unfold thumb_clicks in *. simpl. rewrite IH. apply thumb_click_thumbs.
Qed.

Lemma thumb_click_last (i j : nat) (g : Gallery) :
  (j < List.length (gallery_thumbs g))%nat ->
  thumb_click j (thumb_click i g) = thumb_click j g.
Proof.
  intros Hj. unfold thumb_click at 1 3.
  rewrite thumb_click_thumbs.
  destruct (nth_error (gallery_thumbs g) j) eqn:Hn.
  - reflexivity.
  - apply nth_error_None in Hn. lia.
Qed.

(** X21. The gallery has thumbnails only for an entry with more than one
    image, one per image in order.  A click on thumbnail [j] shows image
    [j] whatever was shown before (the last click wins), clicks never change
    the thumbnails, and an entry with at most one image has a gallery that
    no click changes. *)
Theorem X21_gallery_shows_the_last_clicked_image :
  forall (e : Immobile) (clicks : list nat) (j : nat) (im : Immagine),
    nth_error (gallery_thumbs (renderGallery e)) j = Some im ->
    gallery_main (thumb_clicks (clicks ++ [j]) (renderGallery e))
    = {| src := Some (ToString_text (src im));
         alt := Some (if truthy_text (alt im)
                      then text_or_empty (alt im) else "") |} /\
    gallery_thumbs (thumb_clicks (clicks ++ [j]) (renderGallery e))
    = gallery_thumbs (renderGallery e) /\
    immagini e = Some (gallery_thumbs (renderGallery e)) /\
    (2 <= List.length (gallery_thumbs (renderGallery e)))%nat.
Proof.
  intros e clicks j im Hj.
  split; [| split; [apply thumb_clicks_thumbs |]].
  - unfold thumb_clicks. rewrite fold_left_app. simpl.
    fold (thumb_clicks clicks (renderGallery e)).
    unfold thumb_click. rewrite thumb_clicks_thumbs, Hj. reflexivity.
  - unfold renderGallery in *.
    destruct (immagini e) as [[| main [| second others]] |]; simpl in *;
      try (destruct j; discriminate).
    split; [reflexivity | lia].
Qed.

Lemma X21_gallery_witness :
  gallery_main (thumb_clicks ([0%nat; 7%nat] ++ [1%nat])
                  (renderGallery immobile_descritto))
  = {| src := Some "assets/img/b.jpg"; alt := Some "" |}.
Proof.
  apply (proj1 (X21_gallery_shows_the_last_clicked_image immobile_descritto
                  [0%nat; 7%nat] 1%nat
                  {| src := Some "assets/img/b.jpg"; alt := None |}
                  eq_refl)).
Defined.

(** X22. An entry with no image or a single one gets a gallery without
    thumbnails, which no sequence of clicks changes; its main image is the
    single image, or the placeholder of [getPrimaImmagine]. *)
Theorem X22_single_image_gallery_is_static :
  forall (e : Immobile) (clicks : list nat),
    (forall l, immagini e = Some l -> (List.length l <= 1)%nat) ->
    gallery_thumbs (renderGallery e) = [] /\
    thumb_clicks clicks (renderGallery e) = renderGallery e /\
    (forall im, immagini e = Some [im] ->
                gallery_main (renderGallery e) = im) /\
    (immagini e = None \/ immagini e = Some [] ->
     gallery_main (renderGallery e) = getPrimaImmagine e).
Proof.
  intros e clicks Hone.
  assert (Hthumbs : gallery_thumbs (renderGallery e) = []).
  { unfold renderGallery.
    destruct (immagini e) as [[| main [| second others]] |] eqn:Hi;
      try reflexivity.
    specialize (Hone _ eq_refl). simpl in Hone. lia. }
  split; [exact Hthumbs |]. split; [| split].
  - induction clicks as [| idx clicks IH]; [reflexivity |].
    unfold thumb_clicks in *. simpl.
    assert (Hclick : thumb_click idx (renderGallery e) = renderGallery e).
    { unfold thumb_click. rewrite Hthumbs. now destruct idx. }
    now rewrite Hclick.
  - intros im Him. unfold renderGallery. now rewrite Him.
  - intros [Hi | Hi]; unfold renderGallery; now rewrite Hi.
Qed.

Lemma X22_single_image_witness :
  thumb_clicks [0%nat; 1%nat] (renderGallery immobile1)
  = renderGallery immobile1.
Proof.
  apply (proj1 (proj2 (X22_single_image_gallery_is_static immobile1
                         [0%nat; 1%nat]
                         (fun l (H : immagini immobile1 = Some l) =>
                            match H in _ = o
                                  return match o with
                                         | Some l => (List.length l <= 1)%nat
                                         | None => True
                                         end
                            with eq_refl => I end)))).
Defined.

(** ** The menu button *)

Lemma menu_step_consistent (s : MenuState) (e : MenuEvent) :
  aria_consistent s -> aria_consistent (menu_step s e).
Proof.
  intros Hs. destruct e as [| | key]; simpl.
  - unfold aria_consistent. simpl. now destruct (nav_open s).
  - split; reflexivity.
  - destruct (String.eqb key "Escape" && nav_open s);
      [split; reflexivity | exact Hs].
Qed.

Lemma menu_run_consistent (events : list MenuEvent) (s : MenuState) :
  aria_consistent s -> aria_consistent (menu_run events s).
Proof.
  revert s. induction events as [| e events IH]; intros s Hs; [exact Hs |].
  unfold menu_run in *. simpl. apply IH. now apply menu_step_consistent.
Qed.

(** X23. From the state in which [initHeaderMobile] leaves a closed menu,
    after any sequence of clicks on the button, clicks on navigation links
    and key presses, [aria-expanded] and [aria-label] of the button say
    whether the menu is open.  A click on a link and Escape always leave the
    menu closed; Escape on a closed menu and any other key do nothing; two
    clicks on the button restore the open state; and focus is moved to the
    button only by an Escape that closes the menu. *)
Theorem X23_menu_button_tells_the_menu_state :
  forall (events : list MenuEvent) (s : MenuState),
    aria_consistent (menu_run events (menu_initial false)) /\
    (aria_consistent s -> aria_consistent (menu_run events s)) /\
    aria_consistent (menu_step s HamburgerClick) /\
    aria_consistent (menu_step s NavLinkClick) /\
    nav_open (menu_step s NavLinkClick) = false /\
    nav_open (menu_step s (KeyDown "Escape")) = false /\
    (forall key, key <> "Escape" -> menu_step s (KeyDown key) = s) /\
    (nav_open s = false -> menu_step s (KeyDown "Escape") = s) /\
    nav_open (menu_step (menu_step s HamburgerClick) HamburgerClick)
    = nav_open s /\
    (forall e, focus_calls (menu_step s e) <> focus_calls s ->
               e = KeyDown "Escape" /\ nav_open s = true /\
               nav_open (menu_step s e) = false).
Proof.
  intros events s.
  split; [apply menu_run_consistent; split; reflexivity |].
  split; [apply menu_run_consistent |].
  split; [unfold aria_consistent; simpl; now destruct (nav_open s) |].
  split; [split; reflexivity |].
  split; [reflexivity |].
  split.
  { cbn [menu_step]. rewrite String.eqb_refl. cbn [andb].
    destruct (nav_open s) eqn:Ho; [reflexivity | exact Ho]. }
  split.
  { intros key Hkey. simpl.
    apply String.eqb_neq in Hkey. now rewrite Hkey. }
  split; [intros Hc; simpl; now rewrite Hc |].
  split; [simpl; apply negb_involutive |].
  intros e Hfocus. destruct e as [| | key]; simpl in Hfocus; try congruence.
  destruct (String.eqb_spec key "Escape") as [Heq | Hne];
    [subst key | simpl in Hfocus; congruence].
  cbn [menu_step]. rewrite String.eqb_refl. cbn [andb] in *.
  destruct (nav_open s) eqn:Ho; [repeat split | congruence].
Qed.

Lemma X23_menu_witness :
  aria_consistent
    (menu_run [KeyDown "Tab"; NavLinkClick]
       (menu_step (menu_initial true) HamburgerClick)).
Proof.
  apply (proj1 (proj2 (X23_menu_button_tells_the_menu_state
                         [KeyDown "Tab"; NavLinkClick]
                         (menu_step (menu_initial true) HamburgerClick)))).
  split; reflexivity.
Defined.

(** ** Bounds typed with trailing text *)

Lemma drop_trailing_app (s t : string) :
  no_whitespace s = true ->
  drop_trailing_whitespace (s ++ t) = s ++ drop_trailing_whitespace t.
Proof.
  induction s as [| c r IH]; simpl; [reflexivity |].
  intros Hs. apply andb_true_iff in Hs. destruct Hs as [Hc Hr].
  apply negb_true_iff in Hc. rewrite Hc. simpl. now rewrite IH.
Qed.

Lemma drop_trailing_digit (t : string) :
  starts_with_digit t = false ->
  starts_with_digit (drop_trailing_whitespace t) = false.
Proof.
  destruct t as [| c r]; simpl; [reflexivity |].
  intros Hc.
  destruct (is_whitespace c && negb (truthy_str (drop_trailing_whitespace r)));
    [reflexivity | exact Hc].
Qed.

(** X24. [parseInt] stops at the first character that is not a digit, so a
    bound typed as a positive safe integer followed by any other text is
    read as that number: "250000 euro" gives 250000 and "100.000" gives
    100. *)
Theorem X24_bound_is_the_leading_number :
  forall (n : Z) (t : string),
    0 < n -> safe_integer n -> starts_with_digit t = false ->
    read_bound (Some (Number_toString n ++ t)) = Some (Fin n).
Proof.
  intros n t Hn _ Ht. destruct n as [| p | p]; try lia.
  unfold read_bound. cbn [option_map].
  assert (Htrim : trim (Number_toString (Z.pos p) ++ t)
                  = Number_toString (Z.pos p) ++ drop_trailing_whitespace t).
  { unfold trim.
    pose proof (no_whitespace_Number_toString (Z.pos p)) as Hnw.
    pose proof (Number_toString_nonempty (Z.pos p)) as Hne.
    destruct (Number_toString (Z.pos p)) as [| c r] eqn:Hs; [discriminate |].
    assert (Hskip : skip_whitespace (String c r ++ t) = String c r ++ t).
    { simpl in Hnw. apply andb_true_iff in Hnw. destruct Hnw as [Hc _].
      apply negb_true_iff in Hc. simpl. now rewrite Hc. }
    rewrite Hskip. now apply drop_trailing_app. }
  rewrite Htrim.
  pose proof (parseInt10_count_text p (drop_trailing_whitespace t)
                (drop_trailing_digit t Ht)) as Hparse.
  pose proof (Number_toString_nonempty (Z.pos p)) as Hne.
  destruct (Number_toString (Z.pos p)) as [| c r] eqn:Hs; [discriminate |].
  cbn [append] in *. now rewrite Hparse.
Qed.

Lemma X24_bound_witness :
  read_bound (Some "100.000") = Some (Fin 100).
Proof.
  apply (X24_bound_is_the_leading_number 100 ".000");
    [lia | unfold safe_integer, MAX_SAFE_INTEGER; lia | reflexivity].
Defined.

(** ** What the injections leave alone *)

Lemma filter_remove_first (p : Script -> bool) (i : string)
  (l : list Script) :
  (forall s, String.eqb (script_id s) i = true -> p s = false) ->
  filter p (remove_first i l) = filter p l.
Proof.
  intros Hp. induction l as [| s l IH]; simpl; [reflexivity |].
  destruct (String.eqb (script_id s) i) eqn:Hs.
  - now rewrite (Hp s Hs).
  - simpl. now rewrite IH.
Qed.

Lemma foreign_offer (s : Script) :
  String.eqb (script_id s) "jsonld-offer" = true -> foreign_script s = false.
Proof. intros Hs. unfold foreign_script. now rewrite Hs. Qed.

Lemma run_injection_frame (loc : Location) (d : Document) (x : Injection) :
  filter foreign_script (head_scripts (run_injection loc d x))
  = filter foreign_script (head_scripts d) /\
  outside_head (run_injection loc d x) = outside_head d.
Proof.
  destruct x as [e |]; cbn [run_injection].
  - unfold injectJsonLdOffer. simpl. split; [| reflexivity].
    rewrite filter_app. simpl. rewrite app_nil_r.
    destruct (getElementById "jsonld-offer" (head_scripts d)); [| reflexivity].
    apply filter_remove_first, foreign_offer.
  - unfold injectRealEstateAgentSchema.
    destruct (getElementById JSONLD_AGENT_ID (head_scripts d));
      [split; reflexivity |].
    simpl. split; [| reflexivity].
    rewrite filter_app. simpl. now rewrite app_nil_r.
Qed.

(** X25. The injections touch nothing but their own blocks: after any
    sequence of offer and agency injections the head scripts that carry
    neither marker are the same, in the same order, and the title, the
    descriptions and the detail and not-found blocks are as before. *)
Theorem X25_injections_leave_other_content :
  forall (loc : Location) (calls : list Injection) (d : Document),
    filter foreign_script (head_scripts (run_injections loc calls d))
    = filter foreign_script (head_scripts d) /\
    outside_head (run_injections loc calls d) = outside_head d.
Proof.
  intros loc calls. induction calls as [| x calls IH]; intros d;
    [split; reflexivity |].
  change (run_injections loc (x :: calls) d)
    with (run_injections loc calls (run_injection loc d x)).
  destruct (IH (run_injection loc d x)) as [IHs IHo].
  destruct (run_injection_frame loc d x) as [Hs Ho].
  split; congruence.
Qed.

(** ** Criteria and options *)

Lemma filterImmobili_In (immobili : list Immobile) (f : Filters)
  (e : Immobile) :
  In e (filterImmobili immobili f) <-> In e immobili /\ Satisfies f e.
Proof.
  unfold filterImmobili. now rewrite filter_In, filterImmobili_cb_Satisfies.
Qed.

(** X26. Two different non-empty values of the same text criterion select
    disjoint sets of entries: no entry is in the results for two contract
    types, for two cities, or for two categories. *)
Theorem X26_different_values_select_disjoint_entries :
  forall (immobili : list Immobile) (f g : Filters) (e : Immobile),
    In e (filterImmobili immobili f) ->
    In e (filterImmobili immobili g) ->
    (contratto f = "" \/ contratto g = "" \/ contratto f = contratto g) /\
    (localita f = "" \/ localita g = "" \/ localita f = localita g) /\
    (f_tipoImmobile f = "" \/ f_tipoImmobile g = ""
     \/ f_tipoImmobile f = f_tipoImmobile g).
Proof.
  intros immobili f g e Hf Hg.
  apply filterImmobili_In in Hf, Hg.
  destruct Hf as (_ & Hc1 & _ & _ & Hl1 & Ht1).
  destruct Hg as (_ & Hc2 & _ & _ & Hl2 & Ht2).
  repeat split.
  - destruct Hc1 as [-> | H1]; [now left |].
    destruct Hc2 as [-> | H2]; [right; now left | right; right; congruence].
  - destruct Hl1 as [-> | H1]; [now left |].
    destruct Hl2 as [-> | H2]; [right; now left | right; right; congruence].
  - destruct Ht1 as [-> | H1]; [now left |].
    destruct Ht2 as [-> | H2]; [right; now left | right; right; congruence].
Qed.

Lemma X26_disjoint_witness :
  contratto (with_contratto "rent" noFilters) = ""
  \/ contratto (with_localita "Roma" noFilters) = ""
  \/ contratto (with_contratto "rent" noFilters)
     = contratto (with_localita "Roma" noFilters).
Proof.
  refine (proj1 (X26_different_values_select_disjoint_entries scenarioA
                   (with_contratto "rent" noFilters)
                   (with_localita "Roma" noFilters) immobile2 _ _));
    vm_compute; now left.
Defined.


